(** * Feature extraction of microscopium: a shallow embedding

    The functions of [microscopium/features.py] are translated one by one.
    What the source gets from numpy, scipy, scikit-image and scikit-learn
    is modelled next to it: arrays are a shape with C-ordered data,
    Python exceptions are values of [exn], floating point numbers are
    rationals with exact arithmetic, extended by what else the source can
    produce: infinity, nan and the masked entry of a masked array.  Two
    places are closer to the machine.  The percentage in a feature name
    is computed as Python does, on doubles.  The memory that [np.empty]
    hands out holds floats the program has not written: they are part
    of the world a call runs in. *)

From Stdlib Require Import String Ascii DecimalString.
From Stdlib Require Import List Arith PeanoNat ZArith QArith Qround Qfield Bool Lia Permutation.
Import ListNotations.

Open Scope string_scope.
Open Scope list_scope.
Open Scope nat_scope.

(** ** Python exceptions and results *)

Inductive exn : Type :=
| ValueError (msg : string)
| IndexError (msg : string)
| TypeError (msg : string)
| RuntimeError (msg : string)
| OverflowError (msg : string).

Inductive res (A : Type) : Type :=
| Ok (a : A)
| Raise (e : exn).

Arguments Ok {A} a.
Arguments Raise {A} e.

Definition bind {A B : Type} (r : res A) (k : A -> res B) : res B :=
  match r with
  | Ok a => k a
  | Raise e => Raise e
  end.

Notation "x <- e ;; k" := (bind e (fun x => k))
  (at level 61, e at next level, right associativity).
Notation "' p <- e ;; k" := (bind e (fun x => match x with p => k end))
  (at level 61, p pattern, e at next level, right associativity).

(** ** Floating point values

    A finite float is a rational.  [Inf] is a positive number divided by
    zero, [NaN] is what 0/0 and the mean of an empty selection give.
    [Masked] is an entry of a masked array whose mask is set: the array
    shows no value for it.  The datum under the mask is still there, and
    whoever drops the mask gets it (see [getdata]). *)

Inductive fval : Type :=
| Num (q : Q)
| Inf
| NaN
| Masked.

Definition Qnat (n : nat) : Q := inject_Z (Z.of_nat n).

(** [a / b] on two counts: numpy gives nan for 0/0 and inf for a/0. *)
Definition count_div (a b : nat) : fval :=
  if b =? 0 then (if a =? 0 then NaN else Inf) else Num (Qnat a / Qnat b).

(** [x > t] on floats; a comparison with nan is False. *)
Definition fgt (x : fval) (t : Q) : bool :=
  match x with
  | Num q => negb (Qle_bool q t)
  | Inf => true
  | _ => false
  end.

Definition Qgt_bool (x y : Q) : bool := negb (Qle_bool x y).

(** [np.mean] of an array of booleans; nan when it is empty. *)
Definition mean_bool (l : list bool) : fval :=
  count_div (length (filter (fun b => b) l)) (length l).

(** ** String formatting *)

Definition str_of_nat (n : nat) : string := NilZero.string_of_uint (Nat.to_uint n).

Definition str_of_Z (z : Z) : string :=
  if (z <? 0)%Z then ("-" ++ str_of_nat (Z.to_nat (- z)))%string
  else str_of_nat (Z.to_nat z).

(** [int(x)] of a float truncates towards zero. *)
Definition int_of_Q (q : Q) : Z := Z.quot (Qnum q) (Zpos (Qden q)).

(** Nearest integer to [a / b], ties to even, for [0 <= a] and [0 < b]. *)
Definition round_half_even (a b : Z) : Z :=
  let fl := (a / b)%Z in
  let r := (a mod b)%Z in
  match (2 * r ?= b)%Z with
  | Lt => fl
  | Gt => (fl + 1)%Z
  | Eq => if Z.even fl then fl else (fl + 1)%Z
  end.

(** *** Doubles

    A product of two floats is a double again: the exact product,
    rounded to 53 significant bits, ties to even.  The feature names of
    [nearest_neighbors] hold [int(q * 100)] for quantiles [q] the caller
    chooses, and there the rounding decides: [0.29 * 100] is
    [28.999999999999996], so that the name says 28. *)

(** [2 ^ e], and 1 for a negative [e]. *)
Definition pow2 (e : Z) : Z := (2 ^ Z.max 0 e)%Z.

(** [floor (log2 (a / b))] for positive [a] and [b]. *)
Definition log2_floor (a b : Z) : Z :=
  let l := (Z.log2 a - Z.log2 b)%Z in
  if (b * pow2 l <=? a * pow2 (- l))%Z then l else (l - 1)%Z.

(** The double nearest to a rational, ties to even: 53 significant
    bits, and no bit below [2 ^ -1074].  [None] is an infinity: the
    rounded value is beyond the largest double.  A rational that is a
    double is left as it is. *)
Definition to_double (q : Q) : option Q :=
  let a := Z.abs (Qnum q) in
  let b := Zpos (Qden q) in
  if (a =? 0)%Z then Some 0%Q
  else
    let e := Z.max (log2_floor a b - 52) (-1074) in
    let m := round_half_even (a * pow2 (- e)) (b * pow2 e) in
    if (2 ^ 1024 <=? m * pow2 e)%Z then None
    else Some (Qred (Qmake (Z.sgn (Qnum q) * m * pow2 e) (Z.to_pos (pow2 (- e))))).

(** [int(q * 100)] for a float [q]: the product of the doubles,
    truncated; the infinity of a product that overflows is no integer. *)
Definition percent (q : Q) : res Z :=
  match to_double q with
  | None => Raise (OverflowError "cannot convert float infinity to integer")
  | Some d =>
      match to_double (d * 100) with
      | None => Raise (OverflowError "cannot convert float infinity to integer")
      | Some p => Ok (int_of_Q p)
      end
  end.

(** ['%.2f' % q] *)
Definition format_2f (q : Q) : string :=
  let h := round_half_even (Z.abs (Qnum q) * 100) (Zpos (Qden q)) in
  let ip := Z.to_nat (h / 100) in
  let fp := Z.to_nat (h mod 100) in
  ((if (Qnum q <? 0)%Z then "-" else "") ++
   str_of_nat ip ++ "." ++ (if (fp <? 10)%nat then "0" else "") ++ str_of_nat fp)%string.

(** ** numpy arrays *)

Record ndarray (A : Type) : Type := mkarr { shape : list nat; data : list A }.

Arguments mkarr {A} shape data.
Arguments shape {A} n.
Arguments data {A} n.

Definition ndim {A} (a : ndarray A) : nat := length (shape a).
Definition size {A} (a : ndarray A) : nat := length (data a).

Definition prod (s : list nat) : nat := fold_right Nat.mul 1 s.

(** The arrays numpy can build: as many data as the shape says. *)
Definition well_formed {A} (a : ndarray A) : Prop := size a = prod (shape a).

Definition amap {A B} (f : A -> B) (a : ndarray A) : ndarray B :=
  mkarr (shape a) (map f (data a)).

Definition list_eqb (s t : list nat) : bool :=
  if list_eq_dec Nat.eq_dec s t then true else false.

Fixpoint upd {A} (p : nat) (v : A) (l : list A) : list A :=
  match l, p with
  | [], _ => []
  | _ :: t, 0 => v :: t
  | x :: t, S p' => x :: upd p' v t
  end.

(** All multi-indices of a shape, in C order. *)
Fixpoint coords (s : list nat) : list (list nat) :=
  match s with
  | [] => [[]]
  | n :: s' => flat_map (fun i => map (cons i) (coords s')) (seq 0 n)
  end.

(** The datum at a multi-index with integer entries; [None] outside. *)
Fixpoint lookup {A} (s : list nat) (d : list A) (c : list Z) : option A :=
  match s, c with
  | [], [] => nth_error d 0
  | n :: s', z :: c' =>
      if ((0 <=? z) && (z <? Z.of_nat n))%Z
      then lookup s' (skipn (Z.to_nat z * prod s') d) c'
      else None
  | _, _ => None
  end.

Definition zadd (c d : list Z) : list Z := map (fun '(x, y) => (x + y)%Z) (combine c d).
Definition zsub (c d : list Z) : list Z := map (fun '(x, y) => (x - y)%Z) (combine c d).
Definition zcoord (c : list nat) : list Z := map Z.of_nat c.

(** ** scipy.ndimage and skimage.morphology *)

(** [skmorph.disk(r)] and [skmorph.ball(r)]: the offsets from the centre
    whose squared norm is at most [r * r], in 2 and in 3 dimensions. *)
Fixpoint cube (dims : nat) (r : nat) : list (list Z) :=
  match dims with
  | 0 => [[]]
  | S k => flat_map (fun i => map (cons (Z.of_nat i - Z.of_nat r)%Z) (cube k r))
                    (seq 0 (2 * r + 1))
  end.

Definition norm2 (d : list Z) : Z := fold_right (fun x acc => (x * x + acc)%Z) 0%Z d.

Record selem : Type := mkselem { selem_ndim : nat; offsets : list (list Z) }.

Definition sphere (dims r : nat) : selem :=
  mkselem dims
    (filter (fun d => (norm2 d <=? Z.of_nat r * Z.of_nat r)%Z) (cube dims r)).

Definition disk (r : nat) : selem := sphere 2 r.
Definition ball (r : nat) : selem := sphere 3 r.

Definition at_or_false (s : list nat) (d : list bool) (c : list Z) : bool :=
  match lookup s d c with
  | Some b => b
  | None => false
  end.

(** [binary_erosion] and [binary_dilation] with [border_value=0]. *)
Definition erosion (s : list nat) (offs : list (list Z)) (d : list bool) : list bool :=
  map (fun c => forallb (fun o => at_or_false s d (zadd (zcoord c) o)) offs) (coords s).

Definition dilation (s : list nat) (offs : list (list Z)) (d : list bool) : list bool :=
  map (fun c => existsb (fun o => at_or_false s d (zsub (zcoord c) o)) offs) (coords s).

(** [nd.binary_opening(a, selem)]: an erosion, then a dilation. *)
Definition binary_opening (a : ndarray bool) (se : selem) : res (ndarray bool) :=
  if ndim a =? selem_ndim se
  then Ok (mkarr (shape a)
                 (dilation (shape a) (offsets se) (erosion (shape a) (offsets se) (data a))))
  else Raise (RuntimeError "structure and input must have same dimensionality").

(** [if erode > 0: a = nd.binary_opening(a, selem)], the smoothing step
    of [object_features] and [fraction_positive]. *)
Definition opening (erode : nat) (a : ndarray bool) (se : selem) : res (ndarray bool) :=
  if 0 <? erode then binary_opening a se else Ok a.

(** The neighbours of the flat index [p] along each axis (the default
    structuring element of [nd.label]: no diagonals). *)
Fixpoint axis_neighbours (s : list nat) (p : nat) : list nat :=
  match s with
  | [] => []
  | n :: s' =>
      let st := prod s' in
      let c := (p / st) mod n in
      (if 0 <? c then [p - st] else []) ++
      (if c + 1 <? n then [p + st] else []) ++
      axis_neighbours s' p
  end.

(** Give label [l] to the unlabelled foreground reachable from [stack]. *)
Fixpoint flood (fuel : nat) (s : list nat) (mask : list bool) (l : nat)
               (stack : list nat) (lab : list nat) : list nat :=
  match fuel with
  | 0 => lab
  | S fuel' =>
      match stack with
      | [] => lab
      | p :: st =>
          if nth p mask false && (nth p lab 0 =? 0)
          then flood fuel' s mask l (axis_neighbours s p ++ st) (upd p l lab)
          else flood fuel' s mask l st lab
      end
  end.

(** A pixel is labelled once and pushes at most two neighbours per axis. *)
Definition flood_fuel (s : list nat) (mask : list bool) : nat :=
  S ((2 * length s + 1) * length mask).

Fixpoint label_scan (s : list nat) (mask : list bool) (todo : list nat)
                    (lab : list nat) (n : nat) : list nat * nat :=
  match todo with
  | [] => (lab, n)
  | p :: todo' =>
      if nth p mask false && (nth p lab 0 =? 0)
      then label_scan s mask todo'
             (flood (flood_fuel s mask) s mask (S n) [p] lab) (S n)
      else label_scan s mask todo' lab n
  end.

(** [nd.label(a)]: the label image and the number of objects; objects are
    numbered from 1 in the order of their first pixel. *)
Definition label (a : ndarray bool) : ndarray nat * nat :=
  let r := label_scan (shape a) (data a) (seq 0 (size a)) (repeat 0 (size a)) 0 in
  (mkarr (shape a) (fst r), snd r).

(** [nd.label] of an integer image: every non-zero pixel is foreground. *)
Definition label_int (a : ndarray Z) : ndarray nat * nat :=
  label (amap (fun v => negb (v =? 0)%Z) a).

(** ** Dense matrices *)

Record matrix (A : Type) : Type := mkmat { ncols : nat; rows : list (list A) }.

Arguments mkmat {A} ncols rows.
Arguments ncols {A} m.
Arguments rows {A} m.

(** [m[:, j]] *)
Definition column {A} (m : matrix A) (j : nat) : res (list A) :=
  if j <? ncols m
  then Ok (flat_map (fun row => match nth_error row j with
                                | Some x => [x]
                                | None => []
                                end) (rows m))
  else Raise (IndexError "index is out of bounds for axis 1").

(** [np.sum(m, axis=1)] *)
Definition row_sums (m : matrix nat) : list nat := map (fun row => list_sum row) (rows m).

(** [m.T] *)
Definition transpose {A} (dflt : A) (m : matrix A) : matrix A :=
  mkmat (length (rows m))
        (map (fun j => map (fun row => nth j row dflt) (rows m)) (seq 0 (ncols m))).

(** [m.ravel()] *)
Definition ravel {A} (m : matrix A) : list A := concat (rows m).

(** ** scipy.sparse *)

Definition count_pair (rs cs : list nat) (r c : nat) : nat :=
  length (filter (fun rc => (fst rc =? r) && (snd rc =? c)) (combine rs cs)).

(** [sparse.coo_matrix((np.ones(n), (rs, cs))).todense()]: entry (r, c)
    adds a one for every position holding the pair (r, c). *)
Definition coo_todense (rs cs : list nat) : res (matrix nat) :=
  if negb (length rs =? length cs)
  then Raise (ValueError "row, column, and data array must all be the same length")
  else if length rs =? 0
  then Raise (ValueError "cannot infer dimensions from zero sized index arrays")
  else Ok (mkmat (S (list_max cs))
                 (map (fun r => map (count_pair rs cs r) (seq 0 (S (list_max cs))))
                      (seq 0 (S (list_max rs))))).

(** ** microscopium.features.fraction_positive *)

Definition fraction_positive (bin_im positive_im : ndarray bool) (erode : nat)
    (overlap_thresh : Q) (bin_name positive_name : string)
    : res (list fval * list string) :=
  let selem := disk erode in
  bin_im <- opening erode bin_im selem ;;
  positive_im <- opening erode positive_im selem ;;
  let lab_im := data (fst (label bin_im)) in
  let pos_im := map (fun b : bool => if b then 1 else 0) (data positive_im) in
  counts <- coo_todense lab_im pos_im ;;
  col1 <- column counts 1 ;;
  let means := map (fun ab => count_div (fst ab) (snd ab))
                   (combine col1 (row_sums counts)) in
  let f := [mean_bool (map (fun m => fgt m overlap_thresh) (skipn 1 means))] in
  let name := [("frac-" ++ bin_name ++ "-pos-" ++ positive_name ++ "-erode-"
                ++ str_of_nat erode ++ "-thresh-" ++ format_2f overlap_thresh)%string] in
  Ok (f, name).

Definition bools (s : list nat) (l : list nat) : ndarray bool :=
  mkarr s (map (fun v => negb (v =? 0)) l).

(** ** numpy helpers of the histogram *)

(** [np.bincount(l, minlength=m)]: entry [v] counts the occurrences of
    [v]; the result has [max(m, max(l) + 1)] entries, and [m] entries
    when [l] is empty. *)
Definition bincount (l : list nat) (minlength : nat) : list nat :=
  let n := match l with
           | [] => minlength
           | _ :: _ => Nat.max minlength (S (list_max l))
           end in
  map (count_occ Nat.eq_dec l) (seq 0 n).

Definition pair_eq_dec (x y : nat * nat) : {x = y} + {x <> y}.
Proof. decide equality; apply Nat.eq_dec. Defined.

(** [skimage.util.unique_rows]: each row once.  The library returns the
    rows in the byte order of their memory image; the counts taken from
    the result do not depend on the order. *)
Definition unique_rows (m : list (nat * nat)) : list (nat * nat) := nodup pair_eq_dec m.

(** [np.vstack((a, b)).T] on two one-dimensional arrays. *)
Definition vstack_T {A} (a b : list A) : res (list (A * A)) :=
  if length a =? length b
  then Ok (combine a b)
  else Raise (ValueError "all the input array dimensions except for the concatenation axis must match exactly").

(** [dst[start:start + len(src)] = src] *)
Fixpoint set_slice {A} (start : nat) (src dst : list A) : list A :=
  match start, dst with
  | _, [] => []
  | S k, x :: dst' => x :: set_slice k src dst'
  | 0, x :: dst' =>
      match src with
      | [] => dst
      | y :: src' => y :: set_slice 0 src' dst'
      end
  end.

(** ** microscopium.features.nuclei_per_cell_histogram *)

(** The first half of the function: the array [cells]. *)
Definition nuclei_per_cell (nuc_im cell_im : ndarray Z) : res (list nat) :=
  let nuc_lab := fst (label_int nuc_im) in
  let cell_lab := fst (label_int cell_im) in
  match_ <- vstack_T (data nuc_lab) (data cell_lab) ;;
  let match_ := filter (fun r => negb (fst r + snd r =? 0)) match_ in
  let match_ := unique_rows match_ in
  (* number of nuclei in each cell *)
  Ok (bincount (map snd match_) 0).

Definition nuclei_per_cell_histogram (nuc_im cell_im : ndarray Z) (max_value : nat)
    : res (list fval * list string) :=
  let names := map (fun n => ("cells-with-" ++ str_of_nat n ++ "-nuclei")%string)
                   (seq 0 (max_value + 1)) in
  let names := names ++ [("cells-with->" ++ str_of_nat max_value ++ "-nuclei")%string] in
  cells <- nuclei_per_cell nuc_im cell_im ;;
  (* number of cells with x nuclei *)
  let nhist := bincount cells (max_value + 2) in
  let total := list_sum nhist in
  let fs := repeat 0 (max_value + 2) in
  let fs := set_slice 0 (firstn (max_value + 1) nhist) fs in
  let fs := upd (max_value + 1) (list_sum (skipn (max_value + 1) nhist)) fs in
  let fs := map (fun v => count_div v total) fs in
  Ok (fs, names).

Definition ints (s : list nat) (l : list Z) : ndarray Z := mkarr s l.

(** ** scipy.stats.mstats.mquantiles *)

Fixpoint insert_sorted (x : Q) (l : list Q) : list Q :=
  match l with
  | [] => [x]
  | y :: l' => if Qle_bool x y then x :: l else y :: insert_sorted x l'
  end.

(** [np.sort] *)
Definition sort (l : list Q) : list Q := fold_right insert_sorted [] l.

Definition clip (x lo hi : Q) : Q :=
  if Qle_bool x lo then lo else if Qle_bool hi x then hi else x.

(** [_quantiles1D] of [mquantiles], with [alphap = betap = 0.4].  For a
    column without data it returns [np.empty(len(p))] with the mask
    set: a masked entry, over memory nobody wrote. *)
Definition quantiles1D (col : list Q) (p : Q) : fval :=
  let x := sort col in
  let n := length x in
  if n =? 0 then Masked
  else if n =? 1 then Num (nth 0 x 0%Q)
  else
    let m := ((4 # 10) + p * (1 - (4 # 10) - (4 # 10)))%Q in
    let aleph := (Qnat n * p + m)%Q in
    let k := Z.to_nat (Qfloor (clip aleph 1 (Qnat (n - 1)))) in
    let gamma := clip (aleph - Qnat k) 0 1 in
    Num ((1 - gamma) * nth (k - 1) x 0%Q + gamma * nth k x 0%Q)%Q.

Definition columns (m : matrix Q) : list (list Q) :=
  map (fun j => map (fun row => nth j row 0%Q) (rows m)) (seq 0 (ncols m)).

(** [mquantiles(m, prob, axis=0)]: row [i] holds the quantile [prob[i]]
    of every column. *)
Definition mquantiles (m : matrix Q) (prob : list Q) : matrix fval :=
  mkmat (ncols m) (map (fun p => map (fun col => quantiles1D col p) (columns m)) prob).

(** ** skimage.measure.regionprops *)

Record region : Type := mkregion {
  region_label : nat;
  label_image : ndarray nat;
  intensity_image : option (ndarray Q)
}.

(** The labels 1, 2, ... that occur in the label image. *)
Definition present_labels (lab : ndarray nat) : list nat :=
  filter (fun l => existsb (Nat.eqb l) (data lab)) (seq 1 (list_max (data lab))).

Definition regionprops (lab : ndarray nat) (intensity : option (ndarray Q))
    : res (list region) :=
  if negb ((ndim lab =? 2) || (ndim lab =? 3))
  then Raise (TypeError "Only 2-D and 3-D images supported.")
  else
    let objects := map (fun l => mkregion l lab intensity) (present_labels lab) in
    match intensity, objects with
    | Some im, _ :: _ =>
        if list_eqb (shape im) (shape lab) then Ok objects
        else Raise (ValueError "Label and intensity image must have the same shape.")
    | _, _ => Ok objects
    end.

Definition mean (l : list Q) : Q := (fold_right Qplus 0 l / Qnat (length l))%Q.

(** [region.centroid]: the mean coordinate of the pixels of the region. *)
Definition centroid (r : region) : list Q :=
  let lab := label_image r in
  let pixels := map fst (filter (fun cl => snd cl =? region_label r)
                                (combine (coords (shape lab)) (data lab))) in
  map (fun axis => mean (map (fun c => Qnat (nth axis c 0)) pixels))
      (seq 0 (ndim lab)).

(** [objects[j]] on a Python list *)
Definition getitem {A} (l : list A) (j : nat) : res A :=
  match nth_error l j with
  | Some x => Ok x
  | None => Raise (IndexError "list index out of range")
  end.

Fixpoint mapM {A B} (f : A -> res B) (l : list A) : res (list B) :=
  match l with
  | [] => Ok []
  | x :: l' => y <- f x ;; ys <- mapM f l' ;; Ok (y :: ys)
  end.

(** ** What the libraries compute numerically

    The values below are computed by the libraries in floating point and
    by algorithms the properties proved here do not depend on; they are
    taken as they come. *)

Class Library : Type := {
  (** the state of a [numpy.random.RandomState] *)
  rng : Type;
  (** [np.random.RandomState(seed)] *)
  RandomState : Z -> rng;
  (** one integer drawn below [high], and the state after the draw *)
  randint1 : rng -> nat -> nat * rng;
  (** [getattr(region, prop)] for the scalar properties of a region *)
  region_property : region -> string -> Q;
  (** [skimage.filters.threshold_otsu], [skimage.filters.threshold_local] *)
  threshold_otsu : ndarray Q -> res Q;
  threshold_local : ndarray Q -> nat -> res (ndarray Q);
  np_sqrt : Q -> Q;
  np_arccos : Q -> Q;
  np_sin : Q -> Q;
  np_cos : Q -> Q;
  np_pi : Q
}.

Section Features.

Context {L : Library}.

(** ** microscopium.features.normalize_vectors, triplet_angles *)

Definition sum_squares (v : list Q) : Q := fold_right (fun x acc => (x * x + acc)%Q) 0%Q v.

Definition normalize_vectors (v : list (list Q)) : list (list Q) :=
  map (fun row =>
         let v_norm := np_sqrt (sum_squares row) in
         (* ignore 0-vectors for division *)
         let v_norm := if Qeq_bool v_norm 0 then 1%Q else v_norm in
         map (fun x => (x / v_norm)%Q) row) v.

Definition vsub (a b : list Q) : list Q :=
  map (fun xy => (fst xy - snd xy)%Q) (combine a b).

Definition dot (a b : list Q) : Q :=
  fold_right Qplus 0%Q (map (fun xy => (fst xy * snd xy)%Q) (combine a b)).

(** [points[idx]] for an array of indices *)
Definition take (points : list (list Q)) (idx : list nat) : res (list (list Q)) :=
  mapM (fun j => match nth_error points j with
                 | Some pt => Ok pt
                 | None => Raise (IndexError "index is out of bounds for axis 0")
                 end) idx.

Definition triplet_angles (points : list (list Q)) (indices : matrix nat)
    : res (list Q) :=
  i0 <- column indices 0 ;;
  roots <- take points i0 ;;
  i1 <- column indices 1 ;;
  leaf1 <- take points i1 ;;
  i2 <- column indices 2 ;;
  leaf2 <- take points i2 ;;
  let u := normalize_vectors (map (fun lr => vsub (fst lr) (snd lr)) (combine leaf1 roots)) in
  let v := normalize_vectors (map (fun lr => vsub (fst lr) (snd lr)) (combine leaf2 roots)) in
  let cosines := map (fun uv => dot (fst uv) (snd uv)) (combine u v) in
  let cosines := map (fun c => if Qgt_bool c 1 then 1%Q else c) cosines in
  let cosines := map (fun c => if Qgt_bool (-1) c then (-1)%Q else c) cosines in
  Ok (map np_arccos cosines).

(** ** sklearn.neighbors.NearestNeighbors *)

Fixpoint insert_by_distance (x : Q * nat) (l : list (Q * nat)) : list (Q * nat) :=
  match l with
  | [] => [x]
  | y :: l' => if Qle_bool (fst x) (fst y) then x :: l else y :: insert_by_distance x l'
  end.

(** [NearestNeighbors(n_neighbors=k).fit(X)]; [X] is [np.array] of a list
    of points, one-dimensional when the list is empty. *)
Definition fit (n_neighbors : nat) (X : list (list Q)) : res (nat * list (list Q)) :=
  match X with
  | [] => Raise (ValueError "Expected 2D array, got 1D array instead")
  | _ :: _ => Ok (n_neighbors, X)
  end.

(** [nbrs.kneighbors(X)]: for each query point the [n_neighbors] nearest
    fitted points, nearest first (equal distances in the order of the
    fitted points), as a matrix of distances and a matrix of indices. *)
Definition kneighbors (nbrs : nat * list (list Q)) (X : list (list Q))
    : res (matrix Q * matrix nat) :=
  let (n_neighbors, fitted) := nbrs in
  if length fitted <? n_neighbors
  then Raise (ValueError "Expected n_neighbors <= n_samples")
  else
    let nearest := map (fun q =>
        firstn n_neighbors
          (fold_right insert_by_distance []
             (combine (map (fun pt => sum_squares (vsub pt q)) fitted)
                      (seq 0 (length fitted))))) X in
    Ok (mkmat n_neighbors (map (fun row => map (fun di => np_sqrt (fst di)) row) nearest),
        mkmat n_neighbors (map (fun row => map snd row) nearest)).

(** ** microscopium.features.nearest_neighbors *)

(** The label image argument: an array of bool or an array of int. *)
Inductive label_input : Type :=
| BoolImage (a : ndarray bool)
| IntImage (a : ndarray nat).

Definition nearest_neighbors (lab_im : label_input) (n : nat) (quantiles : list Q)
    : res (list fval * list string) :=
  let lab_im := match lab_im with
                | BoolImage a => fst (label a)
                | IntImage a => a
                end in
  objects <- regionprops lab_im None ;;
  let centroids := map centroid objects in
  nbrs <- fit (n + 1) centroids ;;
  '(distances, indices) <- kneighbors nbrs centroids ;;
  angles <- triplet_angles centroids
              (mkmat (Nat.min 3 (ncols indices)) (map (firstn 3) (rows indices))) ;;
  (* ignore order/orientation of vectors, only measure acute angles *)
  let angles := map (fun a => if Qgt_bool a np_pi then (2 * np_pi - a)%Q else a) angles in
  let distances := mkmat (ncols distances)
                         (map (fun ar => upd 0 (fst ar) (snd ar))
                              (combine angles (rows distances))) in
  let sines := map np_sin angles in
  let cosines := map np_cos angles in
  let features := mkmat (2 + ncols distances)
                        (map (fun scd => fst (fst scd) :: snd (fst scd) :: snd scd)
                             (combine (combine sines cosines) (rows distances))) in
  let nei := ravel (mquantiles features quantiles) in
  let colnames := ["sin-theta"; "cos-theta"; "theta"] ++
                  map (fun i => ("d-neighbor-" ++ str_of_nat i ++ "-")%string) (seq 1 n) in
  names <- mapM (fun cq => pc <- percent (snd cq) ;;
                           Ok (fst cq ++ "-percentile-" ++ str_of_Z pc)%string)
                (list_prod colnames quantiles) ;;
  Ok (nei, names).

(** ** The random source *)

(** The [random_seed] argument: [None], an int, or the RandomState
    instance the caller owns. *)
Inductive seed : Type :=
| SeedNone
| SeedInt (z : Z)
| SeedInstance.

(** A float as it lies in memory: a number, an infinity or nan.  There
    is no mask in memory. *)
Inductive stored : Type :=
| SNum (q : Q)
| SInf
| SNaN.

Definition plain (x : stored) : fval :=
  match x with
  | SNum q => Num q
  | SInf => Inf
  | SNaN => NaN
  end.

(** What a call finds and leaves behind: the two generators that
    outlive it, numpy's global one and the caller's instance, and the
    memory [np.empty] hands out without writing it.  [memory w k] is
    float [k] of that memory, whatever an earlier user left there.  The
    program has no say in it. *)
Record world : Type := mkworld {
  global_state : rng;
  instance_state : rng;
  memory : nat -> stored
}.

(** Float [k] of the unwritten memory, as a value. *)
Definition unwritten (w : world) (k : nat) : fval := plain (memory w k).

(** The world once [n] floats of the unwritten memory are used: a later
    array lies elsewhere, and what it finds there is another matter. *)
Definition taken (n : nat) (w : world) : world :=
  mkworld (global_state w) (instance_state w) (fun k => memory w (n + k)).

(** The datum of an entry of a masked array: its value, and for a masked
    entry what lies under the mask. *)
Definition datum (under : fval) (v : fval) : fval :=
  match v with
  | Masked => under
  | _ => v
  end.

(** The data of a masked array as [np.concatenate] returns them: it
    returns a plain array and the mask is dropped.  Under a masked
    entry of [mquantiles] lies the float [np.empty] found in its place:
    float [k] of the unwritten memory for entry [k].  The memory of the
    array is used afterwards. *)
Definition getdata (l : list fval) (w : world) : list fval * world :=
  (map (fun kv => datum (unwritten w (fst kv)) (snd kv)) (combine (seq 0 (length l)) l),
   taken (length l) w).

Inductive random_source : Type :=
| GlobalRandom
| Fresh (r : rng)
| CallerInstance.

(** Modelled from the spec: [normalise_random_state] of [microscopium/_util.py],
    which is not among the sources.  The random source is "an explicit,
    caller-owned random source", given as "a seed or stateful generator":
    an int seeds a new generator, an instance is used as it is, and [None]
    leaves numpy's global generator. *)
Definition normalise_random_state (random_seed : seed) : random_source :=
  match random_seed with
  | SeedNone => GlobalRandom
  | SeedInt z => Fresh (RandomState z)
  | SeedInstance => CallerInstance
  end.

Fixpoint draws (r : rng) (high size : nat) : list nat * rng :=
  match size with
  | 0 => ([], r)
  | S k =>
      let (j, r1) := randint1 r high in
      let (js, r2) := draws r1 high k in
      (j :: js, r2)
  end.

(** [random.randint(0, high, size=size)]: an empty request is answered
    before the bounds are looked at; an empty range raises. *)
Definition randint (random : random_source) (high size : nat) (w : world)
    : res (list nat * world) :=
  if size =? 0 then Ok ([], w)
  else if high =? 0 then Raise (ValueError "low >= high")
  else
    match random with
    | GlobalRandom =>
        let (js, r) := draws (global_state w) high size in
        Ok (js, mkworld r (instance_state w) (memory w))
    | Fresh r0 => Ok (fst (draws r0 high size), w)
    | CallerInstance =>
        let (js, r) := draws (instance_state w) high size in
        Ok (js, mkworld (global_state w) r (memory w))
    end.

(** ** microscopium.features.object_features *)

Definition quantiles_default : list Q := [5 # 100; 25 # 100; 5 # 10; 75 # 100; 95 # 100]%Q.

Definition prop_names_2d : list string :=
  ["area"; "eccentricity"; "euler_number"; "extent";
   "min_intensity"; "mean_intensity"; "max_intensity"; "solidity"].

Definition prop_names_3d : list string :=
  ["area"; "euler_number"; "extent";
   "min_intensity"; "mean_intensity"; "max_intensity"; "solidity"].

(** The structuring element [object_features] picks: a disk in two
    dimensions, a ball in three, an error otherwise. *)
Definition structuring_element (dims erode : nat) : res selem :=
  if dims =? 2 then Ok (disk erode)
  else if dims =? 3 then Ok (ball erode)
  else Raise (ValueError "Unexpected number of image dimensions").

Definition object_features (bin_im : ndarray bool) (im : ndarray Q) (erode : nat)
    (sample_size : option nat) (random_seed : seed) (w : world)
    : res (list fval * list string * world) :=
  let random := normalise_random_state random_seed in
  selem <- structuring_element (ndim im) erode ;;
  bin_im <- opening erode bin_im selem ;;
  let lab_im := fst (label bin_im) in
  let n_objs := snd (label bin_im) in
  '(sample_size, sample_indices, w) <-
    match sample_size with
    | None => Ok (n_objs, seq 0 n_objs, w)
    | Some k => '(js, w') <- randint random n_objs k w ;; Ok (k, js, w')
    end ;;
  let prop_names := if ndim im =? 2 then prop_names_2d else prop_names_3d in
  objects <- regionprops lab_im (Some im) ;;
  props <- mapM (fun j => obj <- getitem objects j ;;
                          Ok (map (region_property obj) prop_names))
                sample_indices ;;
  let properties := mkmat (length prop_names) props in
  let quantiles := quantiles_default in
  let feature_quantiles := transpose Masked (mquantiles properties quantiles) in
  let unmasked := getdata (ravel feature_quantiles) w in
  let fs := Num (Qnat n_objs) :: fst unmasked in
  let names :=
    "num-objs" ::
    map (fun pq => (fst pq ++ "-percentile" ++ str_of_Z (int_of_Q (snd pq * 100)))%string)
        (list_prod prop_names quantiles) in
  Ok (fs, names, snd unmasked).

(** ** microscopium.features.intensity_object_features *)

(** The [threshold] argument: a float, or the tuple the feature map is
    given. *)
Inductive threshold : Type :=
| ThrFloat (t : Q)
| ThrTuple (ts : list Q).

(** [im > t] where [t] is a float or a tuple, with numpy's broadcasting:
    a tuple of length [l] is matched against the last axis. *)
Definition greater_threshold (im : ndarray Q) (t : threshold) : res (ndarray bool) :=
  match t with
  | ThrFloat t => Ok (amap (fun v => Qgt_bool v t) im)
  | ThrTuple ts =>
      let l := length ts in
      match rev (shape im) with
      | [] => Ok (mkarr [l] (flat_map (fun v => map (Qgt_bool v) ts) (data im)))
      | n :: s0 =>
          if n =? l
          then Ok (mkarr (shape im)
                         (map (fun pv => Qgt_bool (snd pv) (nth (fst pv mod n) ts 0%Q))
                              (combine (seq 0 (size im)) (data im))))
          else if l =? 1
          then Ok (amap (fun v => Qgt_bool v (nth 0 ts 0%Q)) im)
          else if n =? 1
          then Ok (mkarr (rev (l :: s0))
                         (flat_map (fun v => map (Qgt_bool v) ts) (data im)))
          else Raise (ValueError "operands could not be broadcast together")
      end
  end.

(** [im > t] for an array [t] of the shape of [im]. *)
Definition greater_array (im t : ndarray Q) : res (ndarray bool) :=
  if list_eqb (shape im) (shape t)
  then Ok (mkarr (shape im)
                 (map (fun vt => Qgt_bool (fst vt) (snd vt)) (combine (data im) (data t))))
  else Raise (ValueError "operands could not be broadcast together").

Definition intensity_object_features (im : ndarray Q) (thr : option threshold)
    (adaptive_t_radius : nat) (sample_size : option nat) (random_seed : seed)
    (w : world) : res (list fval * list string * world) :=
  match thr with
  | None =>
      t1 <- threshold_otsu im ;;
      let tim1 := amap (fun v => Qgt_bool v t1) im in
      '(f1, names1, w) <- object_features tim1 im 2 sample_size random_seed w ;;
      let names1 := map (fun name => ("otsu-threshold-" ++ name)%string) names1 in
      if ndim im =? 2
      then
        t2 <- threshold_local im adaptive_t_radius ;;
        tim2 <- greater_array im t2 ;;
        '(f2, names2, w) <- object_features tim2 im 2 sample_size random_seed w ;;
        let names2 := map (fun name => ("adaptive-threshold-" ++ name)%string) names2 in
        Ok (f1 ++ f2, names1 ++ names2, w)
      else Ok (f1, names1, w)
  | Some t =>
      tim <- greater_threshold im t ;;
      object_features tim im 2 sample_size random_seed w
  end.

(** ** microscopium.features.default_feature_map *)

(** [np.array(image[..., i])] *)
Definition channel (image : ndarray Q) (i : nat) : res (ndarray Q) :=
  match rev (shape image) with
  | [] => Raise (IndexError "too many indices for array")
  | c :: s0 =>
      if i <? c
      then Ok (mkarr (rev s0)
                     (flat_map (fun p => match nth_error (data image) (p * c + i) with
                                         | Some v => [v]
                                         | None => []
                                         end)
                               (seq 0 (size image / c))))
      else Raise (IndexError "index is out of bounds for the last axis")
  end.

(** The loop over the channels: [all_fs] and [all_names] grow together. *)
Fixpoint channel_loop (todo : list (ndarray Q * string)) (thr : option threshold)
    (sample_size : option nat) (random_seed : seed)
    (all_fs : list (list fval)) (all_names : list string) (w : world)
    : res (list (list fval) * list string * world) :=
  match todo with
  | [] => Ok (all_fs, all_names, w)
  | (im, prefix) :: todo' =>
      '(fs, names, w) <- intensity_object_features im thr 51 sample_size random_seed w ;;
      let names := map (fun name => (prefix ++ "-" ++ name)%string) names in
      channel_loop todo' thr sample_size random_seed
                   (all_fs ++ [fs]) (all_names ++ names) w
  end.

(** [np.concatenate] of a list of one-dimensional arrays *)
Definition concatenate {A} (l : list (list A)) : res (list A) :=
  match l with
  | [] => Raise (ValueError "need at least one array to concatenate")
  | _ :: _ => Ok (concat l)
  end.

Definition default_feature_map (image : ndarray Q) (thr : option threshold)
    (channels : option (list nat)) (channel_names : option (list string))
    (sample_size : option nat) (random_seed : seed) (w : world)
    : res (list fval * list string * world) :=
  (* process all image channels unless otherwise specified: *)
  channels <- match channels with
              | Some cs => Ok cs
              | None => match rev (shape image) with
                        | [] => Raise (IndexError "tuple index out of range")
                        | c :: _ => Ok (seq 0 c)
                        end
              end ;;
  images <- mapM (channel image) channels ;;
  let channel_names :=
    match channel_names with
    | Some ns => ns
    | None => map (fun i => ("chan" ++ str_of_nat i)%string) channels
    end in
  '(all_fs, all_names, w) <-
    channel_loop (combine images channel_names) thr sample_size random_seed [] [] w ;;
  fs <- concatenate all_fs ;;
  Ok (fs, all_names, w).

End Features.

(** ** A library instance to run the functions on

    A small linear congruential generator for the random source, the area and
    the intensities of a region computed exactly, the other region
    properties and the transcendental functions replaced by simple
    rational stand-ins.  It serves to evaluate the functions on concrete
    images. *)

Definition region_values (r : region) : list Q :=
  match intensity_image r with
  | None => []
  | Some im => map snd (filter (fun lv => fst lv =? region_label r)
                               (combine (data (label_image r)) (data im)))
  end.

Definition region_area (r : region) : nat :=
  length (filter (Nat.eqb (region_label r)) (data (label_image r))).

Definition example_property (r : region) (prop : string) : Q :=
  if String.eqb prop "area" then Qnat (region_area r)
  else if String.eqb prop "min_intensity" then hd 0%Q (sort (region_values r))
  else if String.eqb prop "max_intensity" then last (sort (region_values r)) 0%Q
  else if String.eqb prop "mean_intensity" then Qred (mean (region_values r))
  else 0%Q.

Definition example_library : Library := {|
  rng := nat;
  RandomState := fun z => Z.to_nat z;
  randint1 := fun r high => ((r / 7) mod high, (r * 5 + 3) mod 251);
  region_property := example_property;
  threshold_otsu := fun im => Ok (Qred (mean (data im)));
  threshold_local := fun im _ => Ok (amap (fun _ => Qred (mean (data im))) im);
  np_sqrt := fun q => q;
  np_arccos := fun q => (1 - q)%Q;
  np_sin := fun q => q;
  np_cos := fun q => (1 - q)%Q;
  np_pi := (355 # 113)%Q
|}.

Definition floats (s : list nat) (l : list Z) : ndarray Q := mkarr s (map inject_Z l).

(** ** The extractors as calls

    One type for a call of any of the six extractors, so that a property
    of all of them is one statement. *)

Inductive extractor : Type :=
| ObjectFeatures (bin_im : ndarray bool) (im : ndarray Q) (erode : nat)
    (sample_size : option nat) (random_seed : seed)
| IntensityObjectFeatures (im : ndarray Q) (thr : option threshold)
    (adaptive_t_radius : nat) (sample_size : option nat) (random_seed : seed)
| NearestNeighbors (lab_im : label_input) (n : nat) (quantiles : list Q)
| FractionPositive (bin_im positive_im : ndarray bool) (erode : nat)
    (overlap_thresh : Q) (bin_name positive_name : string)
| NucleiPerCellHistogram (nuc_im cell_im : ndarray Z) (max_value : nat)
| DefaultFeatureMap (image : ndarray Q) (thr : option threshold)
    (channels : option (list nat)) (channel_names : option (list string))
    (sample_size : option nat) (random_seed : seed).

Section Calls.

Context {L : Library}.

Definition run (e : extractor) (w : world) : res (list fval * list string * world) :=
  match e with
  | ObjectFeatures b im er ss sd => object_features b im er ss sd w
  | IntensityObjectFeatures im thr r ss sd => intensity_object_features im thr r ss sd w
  | NearestNeighbors lab n qs => out <- nearest_neighbors lab n qs ;; Ok (out, w)
  | FractionPositive b p er t bn pn => out <- fraction_positive b p er t bn pn ;; Ok (out, w)
  | NucleiPerCellHistogram nuc cell mx => out <- nuclei_per_cell_histogram nuc cell mx ;; Ok (out, w)
  | DefaultFeatureMap im thr cs ns ss sd => default_feature_map im thr cs ns ss sd w
  end.

(** The generator state a seed argument makes a call read: that of the
    generator it is normalised to when this one outlives the call, none
    when the generator is made for the call. *)
Definition source_state (sd : seed) (w : world) : option rng :=
  match normalise_random_state sd with
  | GlobalRandom => Some (global_state w)
  | Fresh _ => None
  | CallerInstance => Some (instance_state w)
  end.

Definition source_of (e : extractor) (w : world) : option rng :=
  match e with
  | ObjectFeatures _ _ _ _ sd => source_state sd w
  | IntensityObjectFeatures _ _ _ _ sd => source_state sd w
  | DefaultFeatureMap _ _ _ _ _ sd => source_state sd w
  | _ => None
  end.

(** What a caller sees of a run: the exception, or the feature vector
    with its names and the state the random source is left in. *)
Definition observe {A} (view : world -> option rng) (r : res (A * world))
    : res (A * option rng) :=
  match r with
  | Ok (out, w) => Ok (out, view w)
  | Raise x => Raise x
  end.

End Calls.

(** The exceptions [NearestNeighbors] raises when it is given too few
    points. *)
Definition insufficient_objects (e : exn) : Prop :=
  e = ValueError "Expected 2D array, got 1D array instead" \/
  e = ValueError "Expected n_neighbors <= n_samples".

(** The exception of [object_features] on an image without objects. *)
Definition zero_objects_error : exn := ValueError "low >= high".

(** The label image [nearest_neighbors] works on. *)
Definition labelled (lab_im : label_input) : ndarray nat :=
  match lab_im with
  | BoolImage a => fst (label a)
  | IntImage a => a
  end.

(** The nuclei of a cell, the way the docstring counts them: the labels
    of nucleus objects (positive labels) that share a pixel with the
    cell [c]. *)
Definition nuclei_in_cell (nuc_lab cell_lab : list nat) (c : nat) : nat :=
  length (nodup Nat.eq_dec
            (filter (fun n => negb (n =? 0))
                    (map fst (filter (fun r => snd r =? c) (combine nuc_lab cell_lab))))).

Definition sumQ (l : list Q) : Q := fold_right Qplus 0%Q l.

(** The property names and the feature names of [object_features]. *)
Definition prop_names_of (im : ndarray Q) : list string :=
  if ndim im =? 2 then prop_names_2d else prop_names_3d.

Definition quantile_names (prop_names : list string) : list string :=
  map (fun pq => (fst pq ++ "-percentile" ++ str_of_Z (int_of_Q (snd pq * 100)))%string)
      (list_prod prop_names quantiles_default).

(** What the labelling keeps true while it runs: labels sit on
    foreground pixels only and do not exceed the number of objects. *)
Definition labels_ok (mask : list bool) (lab : list nat) (n : nat) : Prop :=
  length lab = length mask /\
  forall p, nth p lab 0 <> 0 -> nth p mask false = true /\ nth p lab 0 <= n.

(** The foreground pixels [flood] has not labelled yet. *)
Definition unlabelled (mask : list bool) (lab : list nat) : nat :=
  length (filter (fun q => nth q mask false && (nth q lab 0 =? 0)) (seq 0 (length lab))).

(** ** Concrete inputs *)

(** Two worlds that have the caller's generator in common and nothing
    else, and a third one that is the first but for the unwritten
    memory. *)
Definition example_world : @world example_library :=
  @mkworld example_library 1 2 (fun k => SNum (Qnat (7 + k))).
Definition other_world : @world example_library :=
  @mkworld example_library 7 2 (fun _ => SNaN).
Definition stale_world : @world example_library :=
  @mkworld example_library 1 2 (fun k => if Nat.even k then SNaN else SNum 0).

(** A 6 x 6 image with one bright object that survives the opening. *)
Definition blob : ndarray Q :=
  floats [6; 6] [9;9;9;9;9;9; 9;9;9;9;9;9; 9;9;9;9;9;9;
                 9;9;9;9;9;9; 9;9;9;9;9;9; 0;0;0;0;0;9]%Z.

(** The same image as the single channel of a 6 x 6 x 1 image. *)
Definition blob_image : ndarray Q := mkarr [6; 6; 1] (data blob).

(** An image without any object. *)
Definition dark : ndarray Q := floats [2; 2] [0; 0; 0; 0]%Z.
Definition dark_mask : ndarray bool := bools [2; 2] [0; 0; 0; 0].

(** Five channels of 5 x 5 pixels, every pixel at intensity 5. *)
Definition flat_image : ndarray Q := floats [5; 5; 5] (repeat 5%Z 125).

(** ** A library instance with an exact square root

    The square root of a rational whose numerator times denominator is a
    perfect square is exact; everything else is as in [example_library]. *)



(** The table [features] of [nearest_neighbors], one row per object:
    sine, cosine, angle and the [n] distances. *)
Definition neighbor_features {L : Library} (lab_im : label_input) (n : nat)
    : res (matrix Q) :=
  let lab_im := match lab_im with
                | BoolImage a => fst (label a)
                | IntImage a => a
                end in
  objects <- regionprops lab_im None ;;
  let centroids := map centroid objects in
  nbrs <- fit (n + 1) centroids ;;
  '(distances, indices) <- kneighbors nbrs centroids ;;
  angles <- triplet_angles centroids
              (mkmat (Nat.min 3 (ncols indices)) (map (firstn 3) (rows indices))) ;;
  let angles := map (fun a => if Qgt_bool a np_pi then (2 * np_pi - a)%Q else a) angles in
  let distances := mkmat (ncols distances)
                         (map (fun ar => upd 0 (fst ar) (snd ar))
                              (combine angles (rows distances))) in
  let sines := map np_sin angles in
  let cosines := map np_cos angles in
  Ok (mkmat (2 + ncols distances)
            (map (fun scd => fst (fst scd) :: snd (fst scd) :: snd scd)
                 (combine (combine sines cosines) (rows distances)))).

(** The column names of [nearest_neighbors]. *)
Definition neighbor_colnames (n : nat) : list string :=
  ["sin-theta"; "cos-theta"; "theta"] ++
  map (fun i => ("d-neighbor-" ++ str_of_nat i ++ "-")%string) (seq 1 n).

(** The names [object_features] gives its features. *)
Definition object_feature_names (im : ndarray Q) : list string :=
  "num-objs" :: quantile_names (prop_names_of im).

(** The names [intensity_object_features] gives its features: one block
    for a given threshold; without one, a block for Otsu's threshold
    and, in two dimensions, a block for the adaptive threshold. *)
Definition block_names (im : ndarray Q) (thr : option threshold) : list string :=
  match thr with
  | Some _ => object_feature_names im
  | None =>
      map (fun name => ("otsu-threshold-" ++ name)%string) (object_feature_names im) ++
      (if ndim im =? 2
       then map (fun name => ("adaptive-threshold-" ++ name)%string) (object_feature_names im)
       else [])
  end.

Section Frames.

Context {L : Library}.

(** Both generators are in [w'] as they were in [w]. *)
Definition same_generators (w w' : world) : Prop :=
  global_state w' = global_state w /\ instance_state w' = instance_state w.

(** What a call that draws from [random] leaves as it was: the
    generators other than [random]. *)
Definition untouched (random : random_source) (w w' : world) : Prop :=
  match random with
  | GlobalRandom => instance_state w' = instance_state w
  | Fresh _ => same_generators w w'
  | CallerInstance => global_state w' = global_state w
  end.

(** The generator an extractor call draws from and the sample size it
    is given, for the extractors that sample. *)
Definition generator_of (e : extractor) : option random_source :=
  match e with
  | ObjectFeatures _ _ _ _ sd => Some (normalise_random_state sd)
  | IntensityObjectFeatures _ _ _ _ sd => Some (normalise_random_state sd)
  | DefaultFeatureMap _ _ _ _ _ sd => Some (normalise_random_state sd)
  | _ => None
  end.

Definition sample_size_of (e : extractor) : option nat :=
  match e with
  | ObjectFeatures _ _ _ ss _ => ss
  | IntensityObjectFeatures _ _ _ ss _ => ss
  | DefaultFeatureMap _ _ _ _ ss _ => ss
  | _ => None
  end.

End Frames.

(** The channels [default_feature_map] processes: the ones it is given,
    or all of the last axis. *)
Definition selected_channels (image : ndarray Q) (channels : option (list nat))
    : res (list nat) :=
  match channels with
  | Some cs => Ok cs
  | None => match rev (shape image) with
            | [] => Raise (IndexError "tuple index out of range")
            | c :: _ => Ok (seq 0 c)
            end
  end.

(** The channel names it uses: the ones it is given, or chan0, chan1, ... *)
Definition used_names (cs : list nat) (channel_names : option (list string)) : list string :=
  match channel_names with
  | Some ns => ns
  | None => map (fun i => ("chan" ++ str_of_nat i)%string) cs
  end.

(** ** Empty samples

    [object_features] takes the quantiles of the properties of the
    objects it sampled.  When it sampled none, the quantiles are masked
    and what it returns in their place is unwritten memory. *)

Section Samples.

Context {L : Library}.

(** The number of objects [object_features] takes the quantiles of: all
    objects of the opened mask, or as many as the sample size says. *)
Definition measured (bin_im : ndarray bool) (im : ndarray Q) (erode : nat)
    (sample_size : option nat) : res nat :=
  selem <- structuring_element (ndim im) erode ;;
  bin_im <- opening erode bin_im selem ;;
  Ok (match sample_size with
      | None => snd (label bin_im)
      | Some k => k
      end).

(** The sample of [object_features] is not empty (or the call raises
    before it gets there). *)
Definition measures (bin_im : ndarray bool) (im : ndarray Q) (erode : nat)
    (sample_size : option nat) : bool :=
  match measured bin_im im erode sample_size with
  | Ok 0 => false
  | _ => true
  end.

(** The masks [intensity_object_features] hands to [object_features]. *)
Definition segmentations (im : ndarray Q) (thr : option threshold)
    (adaptive_t_radius : nat) : list (res (ndarray bool)) :=
  match thr with
  | Some t => [greater_threshold im t]
  | None =>
      (t1 <- threshold_otsu im ;; Ok (amap (fun v => Qgt_bool v t1) im)) ::
      (if ndim im =? 2
       then [t2 <- threshold_local im adaptive_t_radius ;; greater_array im t2]
       else [])
  end.

Definition intensity_measures (im : ndarray Q) (thr : option threshold)
    (adaptive_t_radius : nat) (sample_size : option nat) : bool :=
  forallb (fun m => match m with
                    | Ok tim => measures tim im 2 sample_size
                    | Raise _ => true
                    end)
          (segmentations im thr adaptive_t_radius).

(** The channel images [default_feature_map] has features computed of. *)
Definition processed (image : ndarray Q) (channels : option (list nat))
    (channel_names : option (list string)) : res (list (ndarray Q)) :=
  cs <- selected_channels image channels ;;
  images <- mapM (channel image) cs ;;
  Ok (map fst (combine images (used_names cs channel_names))).

(** Every sample the call takes the quantiles of holds an object.  The
    extractors that do not segment take no sample. *)
Definition measures_objects (e : extractor) : bool :=
  match e with
  | ObjectFeatures b im er ss _ => measures b im er ss
  | IntensityObjectFeatures im thr r ss _ => intensity_measures im thr r ss
  | DefaultFeatureMap image thr cs ns ss _ =>
      match processed image cs ns with
      | Ok images => forallb (fun im => intensity_measures im thr 51 ss) images
      | Raise _ => true
      end
  | _ => true
  end.

(** Two worlds hold the same unwritten memory. *)
Definition same_memory (w1 w2 : world) : Prop :=
  forall k : nat, unwritten w1 k = unwritten w2 k.

(** A result without the values of the vector: the exception, or the
    length of the vector, the names and the world. *)
Definition outline (r : res (list fval * list string * world))
    : res (nat * list string * world) :=
  match r with
  | Ok (fs, names, w) => Ok (length fs, names, w)
  | Raise x => Raise x
  end.

(** Two worlds a call with the seed [sd] may run in, for a comparison
    of the two runs: the random source it reads is in the same state,
    and the unwritten memory is the same if [M] says so. *)
Definition alike (sd : seed) (M : Prop) (w1 w2 : world) : Prop :=
  source_state sd w1 = source_state sd w2 /\ (M -> same_memory w1 w2).

(** Two results that cannot be told apart by the exception, the names,
    the shape of the values and the state of the random source, nor by
    the values when [full] holds. *)
Definition agree {A S : Type} (shape : A -> S) (sd : seed) (M full : Prop)
    (r1 r2 : res (A * list string * world)) : Prop :=
  match r1, r2 with
  | Ok (a1, names1, v1), Ok (a2, names2, v2) =>
      names1 = names2 /\ shape a1 = shape a2 /\ alike sd M v1 v2 /\ (full -> a1 = a2)
  | Raise x1, Raise x2 => x1 = x2
  | _, _ => False
  end.

(** What [object_features] returns of an image without objects when it
    returns: the count, and for each quantile the float that lay in the
    unwritten memory. *)
Definition unwritten_block (im : ndarray Q) (w : world) : list fval :=
  Num 0 :: map (unwritten w) (seq 0 (5 * length (prop_names_of im))).

Definition unwritten_result (im : ndarray Q) (w : world)
    : list fval * list string * world :=
  (unwritten_block im w, object_feature_names im,
   taken (5 * length (prop_names_of im)) w).

(** The three ways to call an extractor as to the sample size: without
    one and with 0 it returns [out], with a positive one it raises a
    ValueError. *)
Definition zero_objects_outcome
    (call : option nat -> res (list fval * list string * world))
    (out : list fval * list string * world) : Prop :=
  call None = Ok out /\
  call (Some 0) = Ok out /\
  forall k : nat, exists msg : string, call (Some (S k)) = Raise (ValueError msg).

End Samples.

(** The bright pixels of [blob]. *)
Definition blob_mask : ndarray bool := amap (fun v => Qgt_bool v 1) blob.

(** Three points and the index triplet over them. *)
Definition corner_points : list (list Q) := [[0; 0]; [1; 0]; [0; 1]]%Q.
Definition corner_triplet : matrix nat := mkmat 3 [[0; 1; 2]].

(** Six objects of one pixel on a 3 x 7 image. *)
Definition six_dots : ndarray bool :=
  bools [3; 7] [1;0;1;0;1;0;1; 0;0;0;0;0;0;0; 1;0;1;0;0;0;1].

(** * Properties *)

(** ** Lists *)

Lemma upd_length {A} (p : nat) (v : A) (l : list A) : length (upd p v l) = length l.
Proof.
  revert p; induction l as [|x l IH]; intros [|p]; simpl; auto.
Qed.

Lemma nth_upd_same {A} (p : nat) (v d : A) (l : list A) :
  p < length l -> nth p (upd p v l) d = v.
Proof.
  revert p; induction l as [|x l IH]; intros [|p] H; simpl in *; try lia; auto.
  apply IH; lia.
Qed.

Lemma nth_upd_other {A} (p q : nat) (v d : A) (l : list A) :
  q <> p -> nth q (upd p v l) d = nth q l d.
Proof.
  revert p q; induction l as [|x l IH]; intros [|p] [|q] H; simpl; auto; try lia.
Qed.

Lemma list_max_zero (l : list nat) : (forall x, In x l -> x = 0) -> list_max l = 0.
Proof.
  induction l as [|x l IH]; intros H; simpl; auto.
  rewrite (H x (or_introl eq_refl)), IH; auto.
  intros y Hy; apply H; right; exact Hy.
Qed.

Lemma list_max_ge (l : list nat) (x : nat) : In x l -> x <= list_max l.
Proof.
  induction l as [|y l IH]; simpl; intros H; [contradiction|].
  destruct H as [->|H]; [lia|]. specialize (IH H); lia.
Qed.

(** ** Labelling *)

Lemma labels_ok_le mask lab n m : n <= m -> labels_ok mask lab n -> labels_ok mask lab m.
Proof.
  intros Hle [Hlen H]; split; auto.
  intros p Hp; destruct (H p Hp); split; auto; lia.
Qed.

Lemma flood_ok fuel s mask l : forall stack lab n,
  l <= n -> labels_ok mask lab n -> labels_ok mask (flood fuel s mask l stack lab) n.
Proof.
  induction fuel as [|fuel IH]; intros stack lab n Hl Hok; simpl; auto.
  destruct stack as [|p st]; auto.
  destruct (nth p mask false && (nth p lab 0 =? 0)) eqn:E; [|apply IH; auto].
  apply andb_prop in E; destruct E as [Em El].
  apply IH; auto.
  destruct Hok as [Hlen H]; split; [rewrite upd_length; auto|].
  intros q Hq.
  destruct (Nat.eq_dec q p) as [->|Hne].
  - split; auto.
    destruct (Nat.lt_ge_cases p (length lab)) as [Hlt|Hge].
    + rewrite nth_upd_same; auto.
    + rewrite nth_overflow in Hq; [congruence | rewrite upd_length; auto].
  - rewrite nth_upd_other in *; auto.
Qed.

Lemma flood_keeps fuel s mask l : forall stack lab p,
  nth p lab 0 <> 0 -> nth p (flood fuel s mask l stack lab) 0 = nth p lab 0.
Proof.
  induction fuel as [|fuel IH]; intros stack lab p Hp; simpl; auto.
  destruct stack as [|q st]; auto.
  destruct (nth q mask false && (nth q lab 0 =? 0)) eqn:E; [|apply IH; auto].
  apply andb_prop in E; destruct E as [_ El]; apply Nat.eqb_eq in El.
  assert (Hne : p <> q) by congruence.
  rewrite IH; rewrite nth_upd_other; auto.
Qed.

Lemma flood_marks fuel s mask l st lab p :
  l <> 0 -> p < length lab ->
  nth p mask false = true -> nth p lab 0 = 0 ->
  nth p (flood (S fuel) s mask l (p :: st) lab) 0 <> 0.
Proof.
  intros Hl Hlt Hm Hz; simpl.
  rewrite Hm, Hz; simpl.
  rewrite flood_keeps; rewrite nth_upd_same; auto.
Qed.

Lemma label_scan_cons s mask p todo lab n :
  label_scan s mask (p :: todo) lab n =
  if nth p mask false && (nth p lab 0 =? 0)
  then label_scan s mask todo (flood (flood_fuel s mask) s mask (S n) [p] lab) (S n)
  else label_scan s mask todo lab n.
Proof. reflexivity. Qed.

Lemma flood_length fuel s mask l : forall stack lab,
  length (flood fuel s mask l stack lab) = length lab.
Proof.
  induction fuel as [|fuel IH]; intros stack lab; simpl; auto.
  destruct stack as [|r st]; auto.
  destruct (nth r mask false && (nth r lab 0 =? 0)); rewrite IH; auto.
  apply upd_length.
Qed.

Lemma label_scan_ok s mask : forall todo lab n,
  labels_ok mask lab n ->
  labels_ok mask (fst (label_scan s mask todo lab n)) (snd (label_scan s mask todo lab n)).
Proof.
  induction todo as [|p todo IH]; intros lab n Hok; [exact Hok|].
  rewrite label_scan_cons.
  destruct (nth p mask false && (nth p lab 0 =? 0)); [|apply IH; auto].
  apply IH. apply flood_ok; [lia|]. apply labels_ok_le with n; [lia|exact Hok].
Qed.

Lemma label_scan_keeps s mask : forall todo lab n p,
  nth p lab 0 <> 0 -> nth p (fst (label_scan s mask todo lab n)) 0 <> 0.
Proof.
  induction todo as [|q todo IH]; intros lab n p Hp; [exact Hp|].
  rewrite label_scan_cons.
  destruct (nth q mask false && (nth q lab 0 =? 0)); [|apply IH; auto].
  apply IH. rewrite flood_keeps; auto.
Qed.

Lemma label_scan_covers s mask : forall todo lab n p,
  length lab = length mask -> In p todo -> p < length mask ->
  nth p mask false = true ->
  nth p (fst (label_scan s mask todo lab n)) 0 <> 0.
Proof.
  induction todo as [|q todo IH]; intros lab n p Hlen Hin Hlt Hm; [contradiction|].
  rewrite label_scan_cons.
  destruct (Nat.eq_dec (nth p lab 0) 0) as [Hz|Hnz].
  2:{ destruct (nth q mask false && (nth q lab 0 =? 0));
        apply label_scan_keeps; auto. rewrite flood_keeps; auto. }
  destruct Hin as [->|Hin].
  - rewrite Hm, Hz. cbn [andb Nat.eqb]. apply label_scan_keeps.
    apply flood_marks; auto; lia.
  - destruct (nth q mask false && (nth q lab 0 =? 0)) eqn:E.
    + apply IH; auto. rewrite flood_length; auto.
    + apply IH; auto.
Qed.

(** *** The fuel of [flood] is never used up *)

Lemma axis_neighbours_length (s : list nat) (p : nat) :
  length (axis_neighbours s p) <= 2 * length s.
Proof.
  induction s as [|n s IH]; simpl; auto.
  rewrite !length_app.
  destruct (0 <? (p / prod s) mod n); destruct ((p / prod s) mod n + 1 <? n); simpl; lia.
Qed.

Lemma filter_switch_off (f g : nat -> bool) (p : nat) :
  f p = true -> g p = false -> (forall q, q <> p -> g q = f q) ->
  forall n a,
    length (filter f (seq a n)) =
    length (filter g (seq a n)) + (if (a <=? p) && (p <? a + n) then 1 else 0).
Proof.
  intros Hf Hg Hother.
  induction n as [|n IH]; intros a.
  - simpl. destruct (a <=? p) eqn:E1; destruct (p <? a + 0) eqn:E2; simpl; auto.
    apply Nat.leb_le in E1; apply Nat.ltb_lt in E2; lia.
  - cbn [seq filter]. specialize (IH (S a)).
    destruct (Nat.eq_dec a p) as [->|Hne].
    + rewrite Hf, Hg. cbn [length]. rewrite IH.
      replace (S p <=? p) with false by (symmetry; apply Nat.leb_gt; lia).
      replace (p <=? p) with true by (symmetry; apply Nat.leb_le; lia).
      replace (p <? p + S n) with true by (symmetry; apply Nat.ltb_lt; lia).
      simpl. lia.
    + rewrite (Hother a Hne).
      assert (Hc : (a <=? p) && (p <? a + S n) = (S a <=? p) && (p <? S a + n)).
      { destruct (a <=? p) eqn:E1; destruct (S a <=? p) eqn:E2;
          destruct (p <? a + S n) eqn:E3; destruct (p <? S a + n) eqn:E4; auto;
          repeat match goal with
                 | H : (_ <=? _) = true |- _ => apply Nat.leb_le in H
                 | H : (_ <=? _) = false |- _ => apply Nat.leb_gt in H
                 | H : (_ <? _) = true |- _ => apply Nat.ltb_lt in H
                 | H : (_ <? _) = false |- _ => apply Nat.ltb_ge in H
                 end; lia. }
      rewrite Hc. destruct (f a); cbn [length]; rewrite IH; lia.
Qed.

Lemma unlabelled_upd (mask : list bool) (lab : list nat) (p l : nat) :
  l <> 0 -> p < length lab ->
  nth p mask false = true -> nth p lab 0 = 0 ->
  unlabelled mask lab = S (unlabelled mask (upd p l lab)).
Proof.
  intros Hl Hlt Hm Hz. unfold unlabelled. rewrite upd_length.
  rewrite (filter_switch_off
             (fun q => nth q mask false && (nth q lab 0 =? 0))
             (fun q => nth q mask false && (nth q (upd p l lab) 0 =? 0)) p).
  - replace (0 <=? p) with true by (symmetry; apply Nat.leb_le; lia).
    replace (p <? 0 + length lab) with true by (symmetry; apply Nat.ltb_lt; lia).
    simpl. lia.
  - rewrite Hm, Hz. reflexivity.
  - rewrite nth_upd_same by exact Hlt.
    destruct l; [contradiction|]. rewrite Hm. reflexivity.
  - intros q Hq. rewrite nth_upd_other by exact Hq. reflexivity.
Qed.

Lemma unlabelled_le (mask : list bool) (lab : list nat) :
  unlabelled mask lab <= length lab.
Proof.
  unfold unlabelled.
  etransitivity; [apply filter_length_le|]. rewrite length_seq. auto.
Qed.

Lemma flood_saturates s mask l : l <> 0 -> forall fuel stack lab extra,
  length lab = length mask ->
  length stack + 2 * length s * unlabelled mask lab <= fuel ->
  flood (fuel + extra) s mask l stack lab = flood fuel s mask l stack lab.
Proof.
  intros Hl. induction fuel as [|fuel IH]; intros stack lab extra Hlen Hm.
  - destruct stack; [|simpl in Hm; lia]. destruct extra; reflexivity.
  - cbn [Nat.add flood]. destruct stack as [|p st]; auto.
    destruct (nth p mask false && (nth p lab 0 =? 0)) eqn:E.
    + apply andb_prop in E. destruct E as [Ep Ez]. apply Nat.eqb_eq in Ez.
      assert (Hlt : p < length lab).
      { rewrite Hlen. destruct (Nat.lt_ge_cases p (length mask)) as [|Hge]; auto.
        rewrite nth_overflow in Ep by exact Hge. discriminate. }
      apply IH; [rewrite upd_length; exact Hlen|].
      rewrite (unlabelled_upd mask lab p l Hl Hlt Ep Ez) in Hm.
      pose proof (axis_neighbours_length s p).
      rewrite length_app. simpl in Hm. nia.
    + apply IH; auto. simpl in Hm. lia.
Qed.

(** [label] would number the objects the same way with any more fuel. *)
Lemma flood_fuel_enough (s : list nat) (mask : list bool) (l p : nat)
      (lab : list nat) (extra : nat) :
  l <> 0 -> length lab = length mask ->
  flood (flood_fuel s mask + extra) s mask l [p] lab
  = flood (flood_fuel s mask) s mask l [p] lab.
Proof.
  intros Hl Hlen. apply flood_saturates; auto.
  pose proof (unlabelled_le mask lab). unfold flood_fuel. simpl. nia.
Qed.

Lemma repeat_labels_ok mask : labels_ok mask (repeat 0 (length mask)) 0.
Proof.
  split; [apply repeat_length|].
  intros p Hp. exfalso; apply Hp.
  destruct (Nat.lt_ge_cases p (length mask)) as [Hlt|Hge].
  - apply nth_repeat_lt; auto.
  - apply nth_overflow; rewrite repeat_length; auto.
Qed.

Lemma label_ok (a : ndarray bool) :
  labels_ok (data a) (data (fst (label a))) (snd (label a)).
Proof.
  unfold label; simpl. apply label_scan_ok. apply repeat_labels_ok.
Qed.

Lemma label_shape (a : ndarray bool) : shape (fst (label a)) = shape a.
Proof. reflexivity. Qed.

Lemma label_size (a : ndarray bool) : size (fst (label a)) = size a.
Proof. apply (label_ok a). Qed.

Lemma label_foreground (a : ndarray bool) (p : nat) :
  p < size a -> nth p (data a) false = true -> nth p (data (fst (label a))) 0 <> 0.
Proof.
  intros Hlt Hm. unfold label; simpl.
  apply label_scan_covers; auto.
  - apply repeat_length.
  - apply in_seq; unfold size in *; lia.
Qed.

Lemma label_zero_objects (a : ndarray bool) :
  snd (label a) = 0 -> forall x, In x (data (fst (label a))) -> x = 0.
Proof.
  intros Hz x Hx.
  destruct (label_ok a) as [_ H].
  apply (In_nth _ _ 0) in Hx; destruct Hx as [p [_ Hp]].
  destruct (Nat.eq_dec x 0) as [|Hne]; auto.
  subst x. destruct (H p Hne) as [_ Hle]. lia.
Qed.

Lemma label_zero_objects_max (a : ndarray bool) :
  snd (label a) = 0 -> list_max (data (fst (label a))) = 0.
Proof. intros H; apply list_max_zero, label_zero_objects, H. Qed.

(** ** Opening *)

Lemma lookup_In {A} (s : list nat) : forall (d : list A) (c : list Z) (x : A),
  lookup s d c = Some x -> In x d.
Proof.
  induction s as [|n s IH]; intros d c x H; destruct c as [|z c]; simpl in H; try discriminate.
  - destruct d; simpl in H; [discriminate|]. injection H as ->. left; reflexivity.
  - destruct ((0 <=? z)%Z && (z <? Z.of_nat n)%Z); [|discriminate].
    apply IH in H. revert H. generalize (Z.to_nat z * prod s). clear.
    intros k; revert d; induction k as [|k IHk]; intros [|y d]; simpl; auto.
Qed.

Lemma at_or_false_empty (s : list nat) (d : list bool) (c : list Z) :
  (forall b, In b d -> b = false) -> at_or_false s d c = false.
Proof.
  intros H; unfold at_or_false.
  destruct (lookup s d c) as [b|] eqn:E; auto.
  apply H. eapply lookup_In; eauto.
Qed.

Lemma dilation_empty (s : list nat) (offs : list (list Z)) (d : list bool) :
  (forall b, In b d -> b = false) ->
  forall b, In b (dilation s offs d) -> b = false.
Proof.
  intros H b Hb. unfold dilation in Hb.
  apply in_map_iff in Hb; destruct Hb as [c [<- _]].
  induction offs as [|o offs IH]; simpl; auto.
  rewrite at_or_false_empty; auto.
Qed.

Lemma erosion_empty (s : list nat) (o : list Z) (offs : list (list Z)) (d : list bool) :
  (forall b, In b d -> b = false) ->
  forall b, In b (erosion s (o :: offs) d) -> b = false.
Proof.
  intros H b Hb. unfold erosion in Hb.
  apply in_map_iff in Hb; destruct Hb as [c [<- _]].
  simpl. rewrite at_or_false_empty; auto.
Qed.

Lemma opening_empty (erode : nat) (a a' : ndarray bool) (se : selem) :
  (forall b, In b (data a) -> b = false) ->
  opening erode a se = Ok a' ->
  forall b, In b (data a') -> b = false.
Proof.
  intros H Ho. unfold opening, binary_opening in Ho.
  destruct (0 <? erode).
  - destruct (ndim a =? selem_ndim se); [|discriminate].
    injection Ho as <-; simpl.
    destruct (offsets se) as [|o offs].
    + intros b Hb. unfold dilation in Hb.
      apply in_map_iff in Hb; destruct Hb as [c [<- _]]. reflexivity.
    + apply dilation_empty. apply erosion_empty. exact H.
  - injection Ho as <-. exact H.
Qed.

Lemma coords_length (s : list nat) : length (coords s) = prod s.
Proof.
  induction s as [|n s IH]; simpl; auto.
  generalize 0 as k.
  induction n as [|n IHn]; intros k; simpl; auto.
  rewrite length_app, length_map, IHn, IH. reflexivity.
Qed.

Lemma opening_size (erode : nat) (a a' : ndarray bool) (se : selem) :
  well_formed a -> opening erode a se = Ok a' ->
  shape a' = shape a /\ size a' = size a.
Proof.
  intros Hwf Ho. unfold opening, binary_opening in Ho.
  destruct (0 <? erode).
  - destruct (ndim a =? selem_ndim se); [|discriminate].
    injection Ho as <-; unfold size; simpl. split; auto.
    unfold dilation. rewrite length_map, coords_length. symmetry; exact Hwf.
  - injection Ho as <-. auto.
Qed.

(** ** fraction_positive *)

Lemma bool_ints_zero (d : list bool) :
  (forall b, In b d -> b = false) ->
  list_max (map (fun b : bool => if b then 1 else 0) d) = 0.
Proof.
  intros H. apply list_max_zero. intros x Hx.
  apply in_map_iff in Hx; destruct Hx as [b [<- Hb]].
  rewrite (H b Hb). reflexivity.
Qed.

Lemma bool_ints_one (d : list bool) :
  In true d -> list_max (map (fun b : bool => if b then 1 else 0) d) = 1.
Proof.
  intros H. apply Nat.le_antisymm.
  - apply list_max_le. apply Forall_forall. intros x Hx.
    apply in_map_iff in Hx; destruct Hx as [[|] [<- _]]; lia.
  - apply list_max_ge. apply in_map_iff. exists true; auto.
Qed.

Lemma coo_todense_Ok (rs cs : list nat) (m : matrix nat) :
  coo_todense rs cs = Ok m ->
  m = mkmat (S (list_max cs))
            (map (fun r => map (count_pair rs cs r) (seq 0 (S (list_max cs))))
                 (seq 0 (S (list_max rs)))).
Proof.
  unfold coo_todense.
  destruct (negb (length rs =? length cs)); [discriminate|].
  destruct (length rs =? 0); [discriminate|].
  intros H; injection H as <-; reflexivity.
Qed.

Lemma coo_todense_defined (rs cs : list nat) :
  length rs = length cs -> length rs <> 0 ->
  coo_todense rs cs =
  Ok (mkmat (S (list_max cs))
            (map (fun r => map (count_pair rs cs r) (seq 0 (S (list_max cs))))
                 (seq 0 (S (list_max rs))))).
Proof.
  intros Hlen Hnz. unfold coo_todense.
  rewrite (proj2 (Nat.eqb_eq _ _) Hlen); simpl.
  destruct (length rs =? 0) eqn:E; auto.
  apply Nat.eqb_eq in E; contradiction.
Qed.

Lemma In_size {A} (a : ndarray A) (x : A) : In x (data a) -> size a <> 0.
Proof. unfold size; destruct (data a); simpl; [contradiction | discriminate]. Qed.

(** C5: the docstring example.  For the reference mask
    [[1,1,0],[0,0,0],[1,1,1]], the positive mask [[1,0,0],[0,1,1],[0,1,1]],
    erosion radius 0 and overlap threshold 0.6, [fraction_positive]
    returns the value 0.5 under the single name
    frac-<ref>-pos-<pos>-erode-0-thresh-0.60, whatever the two class
    names are. *)
Theorem fraction_positive_docstring_example :
  forall bin_name positive_name : string,
    fraction_positive (bools [3; 3] [1;1;0; 0;0;0; 1;1;1])
                      (bools [3; 3] [1;0;0; 0;1;1; 0;1;1])
                      0 (6 # 10) bin_name positive_name
    = Ok ([Num (1 # 2)],
          [("frac-" ++ bin_name ++ "-pos-" ++ positive_name
            ++ "-erode-0-thresh-0.60")%string]).
Proof.
  intros bin_name positive_name. vm_compute. reflexivity.
Qed.

(** C4, as the code has it: when the reference mask holds no object after
    the opening and the positive mask, of the same size, still holds a
    True pixel, [fraction_positive] returns one value under one name, and
    the value is nan, the mean over no object at all. *)
Theorem fraction_positive_zero_objects :
  forall (bin_im positive_im b p : ndarray bool) (erode : nat) (overlap_thresh : Q)
         (bin_name positive_name : string),
    opening erode bin_im (disk erode) = Ok b ->
    opening erode positive_im (disk erode) = Ok p ->
    snd (label b) = 0 ->
    In true (data p) ->
    size b = size p ->
    fraction_positive bin_im positive_im erode overlap_thresh bin_name positive_name
    = Ok ([NaN],
          [("frac-" ++ bin_name ++ "-pos-" ++ positive_name ++ "-erode-"
            ++ str_of_nat erode ++ "-thresh-" ++ format_2f overlap_thresh)%string]).
Proof.
  intros bin_im positive_im b p erode t bn pn Hb Hp Hz Hin Hsz.
  unfold fraction_positive. rewrite Hb; cbn [bind]. rewrite Hp; cbn [bind].
  rewrite coo_todense_defined.
  - rewrite (label_zero_objects_max b Hz), (bool_ints_one _ Hin).
    reflexivity.
  - rewrite length_map. fold (size (fst (label b))). rewrite label_size. exact Hsz.
  - fold (size (fst (label b))). rewrite label_size, Hsz. eapply In_size; eauto.
Qed.

(** C10: a positive mask without a True pixel.  Whatever the reference
    mask with a foreground pixel, [fraction_positive] raises; and on two
    well-formed masks of one shape (two-dimensional when they are opened)
    the exception is the IndexError of column 1 of a count matrix that
    has a single column. *)
Theorem fraction_positive_needs_positive_pixel :
  forall (bin_im positive_im : ndarray bool) (erode : nat) (overlap_thresh : Q)
         (bin_name positive_name : string),
    (forall x, In x (data positive_im) -> x = false) ->
    In true (data bin_im) ->
    (exists e, fraction_positive bin_im positive_im erode overlap_thresh
                                 bin_name positive_name = Raise e) /\
    (shape bin_im = shape positive_im ->
     well_formed bin_im -> well_formed positive_im ->
     erode = 0 \/ ndim bin_im = 2 ->
     fraction_positive bin_im positive_im erode overlap_thresh bin_name positive_name
     = Raise (IndexError "index is out of bounds for axis 1")).
Proof.
  intros bin_im positive_im erode t bn pn Hneg Hfg.
  assert (Hcol : forall b p,
             opening erode bin_im (disk erode) = Ok b ->
             opening erode positive_im (disk erode) = Ok p ->
             forall counts,
               coo_todense (data (fst (label b)))
                           (map (fun x : bool => if x then 1 else 0) (data p)) = Ok counts ->
               column counts 1 = Raise (IndexError "index is out of bounds for axis 1")).
  { intros b p Hb Hp counts Hc.
    apply coo_todense_Ok in Hc. subst counts.
    rewrite (bool_ints_zero (data p)); [reflexivity|].
    eapply opening_empty; eauto. }
  split.
  - unfold fraction_positive.
    destruct (opening erode bin_im (disk erode)) as [b|e] eqn:Hb; cbn [bind]; [|eauto].
    destruct (opening erode positive_im (disk erode)) as [p|e] eqn:Hp; cbn [bind]; [|eauto].
    destruct (coo_todense _ _) as [counts|e] eqn:Hc; cbn [bind]; [|eauto].
    rewrite (Hcol b p eq_refl eq_refl counts Hc). cbn [bind]. eauto.
  - intros Hshape Hwb Hwp Hdim.
    assert (Hopen : forall a, shape a = shape bin_im -> exists a', opening erode a (disk erode) = Ok a').
    { intros a Ha. unfold opening, binary_opening, ndim. rewrite Ha.
      destruct Hdim as [->|Hd]; [simpl; eauto|].
      unfold ndim in Hd. rewrite Hd. destruct (0 <? erode); simpl; eauto. }
    destruct (Hopen bin_im eq_refl) as [b Hb].
    destruct (Hopen positive_im (eq_sym Hshape)) as [p Hp].
    destruct (opening_size _ _ _ _ Hwb Hb) as [Hsb Hzb].
    destruct (opening_size _ _ _ _ Hwp Hp) as [Hsp Hzp].
    assert (Hsize : size b = size p).
    { rewrite Hzb, Hzp. unfold well_formed in *. rewrite Hwb, Hwp, Hshape. reflexivity. }
    assert (Hlen : length (data (fst (label b))) =
                   length (map (fun x : bool => if x then 1 else 0) (data p))).
    { rewrite length_map. fold (size (fst (label b))). rewrite label_size. exact Hsize. }
    assert (Hnz : length (data (fst (label b))) <> 0).
    { fold (size (fst (label b))). rewrite label_size, Hzb. eapply In_size; eauto. }
    pose proof (coo_todense_defined _ _ Hlen Hnz) as Hcoo.
    unfold fraction_positive. rewrite Hb; cbn [bind]. rewrite Hp; cbn [bind].
    rewrite Hcoo; cbn [bind].
    rewrite (Hcol b p Hb Hp _ Hcoo). reflexivity.
Qed.

(** ** Counting *)

Lemma indicator_sum (x : nat) (g : nat -> nat) : forall n a,
  list_sum (map (fun v => (if Nat.eq_dec x v then 1 else 0) + g v) (seq a n)) =
  (if (a <=? x) && (x <? a + n) then 1 else 0) + list_sum (map g (seq a n)).
Proof.
  induction n as [|n IH]; intros a; simpl.
  - destruct (a <=? x) eqn:E1; destruct (x <? a + 0) eqn:E2; simpl; auto.
    apply Nat.leb_le in E1; apply Nat.ltb_lt in E2; lia.
  - rewrite IH.
    destruct (Nat.eq_dec x a) as [->|Hne].
    + replace (S a <=? a) with false by (symmetry; apply Nat.leb_gt; lia).
      replace (a <=? a) with true by (symmetry; apply Nat.leb_le; lia).
      replace (a <? a + S n) with true by (symmetry; apply Nat.ltb_lt; lia).
      simpl; lia.
    + destruct (a <=? x) eqn:E1; destruct (S a <=? x) eqn:E2;
        destruct (x <? a + S n) eqn:E3; destruct (x <? S a + n) eqn:E4; simpl; try lia;
        repeat match goal with
               | H : (_ <=? _) = true |- _ => apply Nat.leb_le in H
               | H : (_ <=? _) = false |- _ => apply Nat.leb_gt in H
               | H : (_ <? _) = true |- _ => apply Nat.ltb_lt in H
               | H : (_ <? _) = false |- _ => apply Nat.ltb_ge in H
               end; lia.
Qed.

Lemma count_occ_sum (l : list nat) : forall n,
  (forall x, In x l -> x < n) ->
  list_sum (map (count_occ Nat.eq_dec l) (seq 0 n)) = length l.
Proof.
  induction l as [|x l IH]; intros n H.
  - simpl. induction (seq 0 n); simpl; auto.
  - rewrite (map_ext (count_occ Nat.eq_dec (x :: l))
                     (fun v => (if Nat.eq_dec x v then 1 else 0) + count_occ Nat.eq_dec l v)).
    + rewrite indicator_sum, IH.
      * assert (Hx : x < n) by (apply H; left; reflexivity).
        replace (x <? 0 + n) with true by (symmetry; apply Nat.ltb_lt; lia).
        simpl. reflexivity.
      * intros y Hy; apply H; right; exact Hy.
    + intros v; simpl. destruct (Nat.eq_dec x v); reflexivity.
Qed.

Lemma bincount_length (l : list nat) (m : nat) :
  length (bincount l m) = match l with
                          | [] => m
                          | _ :: _ => Nat.max m (S (list_max l))
                          end.
Proof. unfold bincount. rewrite length_map, length_seq. reflexivity. Qed.

Lemma bincount_sum (l : list nat) (m : nat) : list_sum (bincount l m) = length l.
Proof.
  unfold bincount. apply count_occ_sum.
  destruct l as [|y l]; [intros x []|].
  intros x Hx. apply list_max_ge in Hx. lia.
Qed.

(** The counts do not depend on the order of the rows. *)
Lemma bincount_Permutation (l l' : list nat) (m : nat) :
  Permutation l l' -> bincount l m = bincount l' m.
Proof.
  intros HP. unfold bincount.
  assert (Hmax : list_max l = list_max l').
  { induction HP; simpl; lia. }
  assert (Hn : match l with [] => m | _ :: _ => Nat.max m (S (list_max l)) end =
               match l' with [] => m | _ :: _ => Nat.max m (S (list_max l')) end).
  { destruct l as [|x l], l' as [|y l'].
    - reflexivity.
    - apply Permutation_nil in HP; discriminate.
    - apply Permutation_sym, Permutation_nil in HP; discriminate.
    - rewrite Hmax; reflexivity. }
  rewrite Hn. apply map_ext. intros v.
  apply (proj1 (Permutation_count_occ Nat.eq_dec l l') HP).
Qed.

Lemma list_sum_split (k : nat) (l : list nat) :
  list_sum (firstn k l) + list_sum (skipn k l) = list_sum l.
Proof. rewrite <- list_sum_app, firstn_skipn. reflexivity. Qed.

Lemma set_slice_prefix {A} (src : list A) : forall dst,
  length src <= length dst -> set_slice 0 src dst = src ++ skipn (length src) dst.
Proof.
  induction src as [|y src IH]; intros [|x dst] H; simpl in *; auto; try lia.
  rewrite IH; auto; lia.
Qed.

Lemma upd_app {A} (src : list A) (x v : A) (rest : list A) :
  upd (length src) v (src ++ x :: rest) = src ++ v :: rest.
Proof. induction src as [|y src IH]; simpl; auto. rewrite IH; reflexivity. Qed.

(** The bucket counts before the division: the first [k] entries of the
    histogram, then the sum of all the others. *)
Lemma buckets (k : nat) (nhist : list nat) :
  k + 1 <= length nhist ->
  upd k (list_sum (skipn k nhist)) (set_slice 0 (firstn k nhist) (repeat 0 (k + 1)))
  = firstn k nhist ++ [list_sum (skipn k nhist)].
Proof.
  intros H.
  assert (Hk : length (firstn k nhist) = k) by (rewrite length_firstn; lia).
  rewrite set_slice_prefix by (rewrite Hk, repeat_length; lia).
  rewrite Hk.
  assert (Hs : skipn k (repeat 0 (k + 1)) = [0]).
  { clear. induction k as [|k IH]; simpl; auto. }
  rewrite Hs. rewrite <- Hk at 1. apply upd_app.
Qed.

Lemma count_div_Num (t : nat) (l : list nat) :
  t <> 0 ->
  map (fun v => count_div v t) l = map Num (map (fun v => (Qnat v / Qnat t)%Q) l).
Proof.
  intros Ht. rewrite map_map. apply map_ext. intros v.
  unfold count_div. destruct (t =? 0) eqn:E; auto.
  apply Nat.eqb_eq in E; contradiction.
Qed.

Lemma Qnat_plus (a b : nat) : Qnat (a + b) == Qnat a + Qnat b.
Proof. unfold Qnat. rewrite Nat2Z.inj_add, inject_Z_plus. reflexivity. Qed.

Lemma sumQ_div (t : nat) (l : list nat) :
  sumQ (map (fun v => (Qnat v / Qnat t)%Q) l) == Qnat (list_sum l) / Qnat t.
Proof.
  induction l as [|x l IH]; simpl.
  - unfold Qnat; simpl. unfold Qdiv. rewrite Qmult_0_l. reflexivity.
  - rewrite IH, Qnat_plus. unfold Qdiv. rewrite Qmult_plus_distr_l. reflexivity.
Qed.

Lemma Qnat_div_self (t : nat) : t <> 0 -> Qnat t / Qnat t == 1.
Proof.
  intros Ht. apply Qmult_inv_r. unfold Qnat, Qeq; simpl. lia.
Qed.

(** ** nuclei_per_cell_histogram *)

Lemma label_int_foreground (a : ndarray Z) (p : nat) :
  p < size a -> nth p (data a) 0%Z <> 0%Z ->
  nth p (data (fst (label_int a))) 0 <> 0.
Proof.
  intros Hlt Hnz. unfold label_int. apply label_foreground.
  - unfold size, amap; simpl. rewrite length_map. exact Hlt.
  - unfold amap; simpl.
    rewrite (nth_indep _ false (negb (0 =? 0)%Z)) by (rewrite length_map; exact Hlt).
    rewrite (map_nth (fun v => negb (v =? 0)%Z)).
    apply negb_true_iff, Z.eqb_neq, Hnz.
Qed.

Lemma label_int_size (a : ndarray Z) : size (fst (label_int a)) = size a.
Proof.
  unfold label_int. rewrite label_size. unfold size, amap; simpl. apply length_map.
Qed.

Lemma nuclei_per_cell_defined (nuc_im cell_im : ndarray Z) (p : nat) :
  size nuc_im = size cell_im ->
  p < size nuc_im ->
  nth p (data nuc_im) 0%Z <> 0%Z ->
  exists cells, nuclei_per_cell nuc_im cell_im = Ok cells /\ cells <> [].
Proof.
  intros Hsz Hlt Hn.
  unfold nuclei_per_cell, vstack_T.
  fold (size (fst (label_int nuc_im))) (size (fst (label_int cell_im))).
  rewrite !label_int_size, Hsz, Nat.eqb_refl. cbn [bind].
  eexists; split; [reflexivity|].
  set (nuc_lab := data (fst (label_int nuc_im))).
  set (cell_lab := data (fst (label_int cell_im))).
  assert (Hin : In (nth p nuc_lab 0, nth p cell_lab 0)
                   (unique_rows (filter (fun r => negb (fst r + snd r =? 0))
                                        (combine nuc_lab cell_lab)))).
  { apply nodup_In, filter_In. split.
    - assert (Hl : length nuc_lab = length cell_lab).
      { unfold nuc_lab, cell_lab.
        fold (size (fst (label_int nuc_im))) (size (fst (label_int cell_im))).
        rewrite !label_int_size. exact Hsz. }
      rewrite <- combine_nth by exact Hl.
      apply nth_In. rewrite length_combine, <- Hl, Nat.min_id.
      unfold nuc_lab. fold (size (fst (label_int nuc_im))).
      rewrite label_int_size. exact Hlt.
    - simpl. apply negb_true_iff, Nat.eqb_neq.
      pose proof (label_int_foreground nuc_im p Hlt Hn) as Hf.
      fold nuc_lab in Hf. lia. }
  intros Hnil. apply (f_equal (@length nat)) in Hnil.
  rewrite bincount_length in Hnil.
  destruct (map snd _) as [|c cs] eqn:E.
  - apply (in_map snd) in Hin. rewrite E in Hin. contradiction.
  - simpl in Hnil. lia.
Qed.

(** C8: when a pixel lies in a nucleus and in a cell, the histogram has
    [max_value + 2] entries, all of them numbers, and they add up to 1. *)
Theorem histogram_sums_to_one :
  forall (nuc_im cell_im : ndarray Z) (max_value p : nat),
    size nuc_im = size cell_im ->
    p < size nuc_im ->
    nth p (data nuc_im) 0%Z <> 0%Z ->
    nth p (data cell_im) 0%Z <> 0%Z ->
    exists (qs : list Q) (names : list string),
      nuclei_per_cell_histogram nuc_im cell_im max_value = Ok (map Num qs, names) /\
      length qs = max_value + 2 /\
      sumQ qs == 1.
Proof.
  intros nuc_im cell_im max_value p Hsz Hlt Hn _.
  destruct (nuclei_per_cell_defined nuc_im cell_im p Hsz Hlt Hn) as [cells [Hc Hne]].
  unfold nuclei_per_cell_histogram. rewrite Hc; cbn [bind].
  set (nhist := bincount cells (max_value + 2)).
  assert (Hlen : max_value + 1 + 1 <= length nhist).
  { unfold nhist. rewrite bincount_length. destruct cells; lia. }
  assert (Htot : list_sum nhist <> 0).
  { unfold nhist. rewrite bincount_sum. destruct cells; simpl; congruence. }
  replace (max_value + 2) with (max_value + 1 + 1) by lia.
  rewrite buckets by exact Hlen.
  rewrite count_div_Num by exact Htot.
  eexists; eexists; split; [reflexivity|]. split.
  - rewrite length_map, length_app, length_firstn. simpl. lia.
  - rewrite sumQ_div, list_sum_app. simpl. rewrite Nat.add_0_r, list_sum_split.
    apply Qnat_div_self, Htot.
Qed.

(** *** What [cells] counts *)

Lemma nth_bincount (l : list nat) (c : nat) :
  nth c (bincount l 0) 0 = count_occ Nat.eq_dec l c.
Proof.
  unfold bincount.
  set (n := match l with [] => 0 | _ :: _ => Nat.max 0 (S (list_max l)) end).
  destruct (Nat.lt_ge_cases c n) as [Hlt|Hge].
  - rewrite (nth_indep _ 0 (count_occ Nat.eq_dec l 0)) by (rewrite length_map, length_seq; exact Hlt).
    rewrite (map_nth (count_occ Nat.eq_dec l)), seq_nth by exact Hlt. reflexivity.
  - rewrite nth_overflow by (rewrite length_map, length_seq; exact Hge).
    symmetry. apply count_occ_not_In. intros Hin.
    pose proof (list_max_ge _ _ Hin) as Hle. subst n.
    destruct l; [destruct Hin|]. lia.
Qed.

Lemma count_occ_map_snd (l : list (nat * nat)) (c : nat) :
  count_occ Nat.eq_dec (map snd l) c = length (filter (fun r => snd r =? c) l).
Proof.
  induction l as [|[a b] l IH]; simpl; auto.
  destruct (Nat.eq_dec b c) as [->|Hne].
  - rewrite Nat.eqb_refl. simpl. rewrite IH. reflexivity.
  - replace (b =? c) with false by (symmetry; apply Nat.eqb_neq; exact Hne). exact IH.
Qed.

Lemma filter_nodup {A} (dec : forall x y : A, {x = y} + {x <> y}) (f : A -> bool) (l : list A) :
  filter f (nodup dec l) = nodup dec (filter f l).
Proof.
  induction l as [|x l IH]; simpl; auto.
  destruct (in_dec dec x l) as [Hin|Hnin]; destruct (f x) eqn:E; simpl.
  - destruct (in_dec dec x (filter f l)) as [|Hn]; auto.
    exfalso; apply Hn, filter_In; auto.
  - exact IH.
  - rewrite E. destruct (in_dec dec x (filter f l)) as [Hi|]; [|rewrite IH; reflexivity].
    apply filter_In in Hi. destruct Hi; contradiction.
  - rewrite E. exact IH.
Qed.

Lemma filter_implied {A} (f g : A -> bool) (l : list A) :
  (forall x, f x = true -> g x = true) -> filter f (filter g l) = filter f l.
Proof.
  intros H. induction l as [|x l IH]; simpl; auto.
  destruct (g x) eqn:Eg; simpl.
  - destruct (f x); rewrite IH; reflexivity.
  - destruct (f x) eqn:Ef; [rewrite (H x Ef) in Eg; discriminate | exact IH].
Qed.

Lemma nodup_fst_length (c : nat) (l : list (nat * nat)) :
  (forall r, In r l -> snd r = c) ->
  length (nodup pair_eq_dec l) = length (nodup Nat.eq_dec (map fst l)).
Proof.
  induction l as [|[a b] l IH]; intros H; simpl; auto.
  assert (Hb : b = c) by (apply (H (a, b)); left; reflexivity).
  assert (Hl : forall r, In r l -> snd r = c) by (intros r Hr; apply H; right; exact Hr).
  destruct (in_dec pair_eq_dec (a, b) l) as [Hin|Hnin];
    destruct (in_dec Nat.eq_dec a (map fst l)) as [Hin'|Hnin']; simpl; auto.
  - exfalso. apply Hnin'. apply in_map_iff. exists (a, b); auto.
  - exfalso. apply Hnin. apply in_map_iff in Hin'. destruct Hin' as [[a' b'] [Ha Hr]].
    simpl in Ha. subst a'. rewrite <- (Hl _ Hr) in Hb. simpl in Hb. subst b'. exact Hr.
Qed.

Lemma nodup_zero_split (l : list nat) :
  length (nodup Nat.eq_dec l) =
  length (nodup Nat.eq_dec (filter (fun n => negb (n =? 0)) l)) +
  (if in_dec Nat.eq_dec 0 l then 1 else 0).
Proof.
  induction l as [|x l IH]; simpl; auto.
  destruct x as [|x]; simpl.
  - destruct (in_dec Nat.eq_dec 0 l) as [Hin|Hnin].
    + destruct (Nat.eq_dec 0 0) as [_|F]; [|contradiction].
      rewrite IH. destruct (in_dec Nat.eq_dec 0 l); [reflexivity|contradiction].
    + destruct (Nat.eq_dec 0 0) as [_|F]; [|contradiction].
      simpl. rewrite IH. destruct (in_dec Nat.eq_dec 0 l); [contradiction|lia].
  - destruct (Nat.eq_dec (S x) 0) as [F|_]; [discriminate|].
    destruct (in_dec Nat.eq_dec (S x) l) as [Hin|Hnin];
      destruct (in_dec Nat.eq_dec (S x) (filter (fun n => negb (n =? 0)) l)) as [Hin'|Hnin'];
      simpl; rewrite IH; destruct (in_dec Nat.eq_dec 0 l) as [H0|H0]; try lia.
    + exfalso; apply Hnin', filter_In; auto.
    + exfalso; apply Hnin', filter_In; auto.
    + exfalso; apply filter_In in Hin'; destruct Hin'; contradiction.
    + exfalso; apply filter_In in Hin'; destruct Hin'; contradiction.
Qed.

(** X21: For a cell [c], the entry of [cells] is the number of nuclei in the
    cell, plus one when a pixel of the cell is free of nuclei. *)
Lemma nuclei_per_cell_value (nuc_im cell_im : ndarray Z) (cells : list nat) (c : nat) :
  nuclei_per_cell nuc_im cell_im = Ok cells ->
  0 < c ->
  let nuc_lab := data (fst (label_int nuc_im)) in
  let cell_lab := data (fst (label_int cell_im)) in
  nth c cells 0 =
  nuclei_in_cell nuc_lab cell_lab c +
  (if in_dec Nat.eq_dec 0 (map fst (filter (fun r => snd r =? c) (combine nuc_lab cell_lab)))
   then 1 else 0).
Proof.
  intros H Hc nuc_lab cell_lab.
  unfold nuclei_per_cell, vstack_T in H. fold nuc_lab cell_lab in H.
  destruct (length nuc_lab =? length cell_lab); [|discriminate].
  cbn [bind] in H. injection H as <-.
  rewrite nth_bincount, count_occ_map_snd. unfold unique_rows.
  rewrite filter_nodup, filter_implied.
  - rewrite (nodup_fst_length c).
    + unfold nuclei_in_cell. apply nodup_zero_split.
    + intros r Hr. apply filter_In in Hr. destruct Hr as [_ Hr]. apply Nat.eqb_eq, Hr.
  - intros [a b] Hr. simpl in *. apply Nat.eqb_eq in Hr. subst b.
    apply negb_true_iff, Nat.eqb_neq. lia.
Qed.

(** C7, at an input the code miscounts: one cell of two pixels with one
    nucleus on its first pixel.  The cell holds one nucleus; the array
    [cells] gives it two, the nucleus and the background label of the
    pixel the nucleus leaves free, and the histogram puts the cell in
    the bucket of two nuclei. *)
Theorem nuclei_per_cell_counts_background :
  let nuc_im := ints [1; 2] [1; 0]%Z in
  let cell_im := ints [1; 2] [1; 1]%Z in
  nuclei_in_cell (data (fst (label_int nuc_im))) (data (fst (label_int cell_im))) 1 = 1 /\
  nuclei_per_cell nuc_im cell_im = Ok [0; 2] /\
  nuclei_per_cell_histogram nuc_im cell_im 3 =
  Ok ([Num (1 # 2); Num (0 # 2); Num (1 # 2); Num (0 # 2); Num (0 # 2)],
      ["cells-with-0-nuclei"; "cells-with-1-nuclei"; "cells-with-2-nuclei";
       "cells-with-3-nuclei"; "cells-with->3-nuclei"]).
Proof. vm_compute. repeat split. Qed.

(** ** nearest_neighbors *)

(** C3: when the label image holds fewer than [n + 1] objects,
    [nearest_neighbors] raises instead of returning a feature vector.
    The exception is not the one [object_features] raises on an image
    without objects, and on a two- or three-dimensional label image it
    is the complaint of [NearestNeighbors] about too few points. *)
Theorem nearest_neighbors_insufficient_objects :
  forall (L : Library) (lab_im : label_input) (n : nat) (quantiles : list Q),
    length (present_labels (labelled lab_im)) < n + 1 ->
    exists e : exn,
      nearest_neighbors lab_im n quantiles = Raise e /\
      e <> zero_objects_error /\
      (ndim (labelled lab_im) = 2 \/ ndim (labelled lab_im) = 3 ->
       insufficient_objects e).
Proof.
  intros L lab_im n quantiles Hfew.
  unfold nearest_neighbors. fold (labelled lab_im).
  unfold regionprops.
  destruct ((ndim (labelled lab_im) =? 2) || (ndim (labelled lab_im) =? 3)) eqn:Hd;
    cbn [negb bind].
  - destruct (present_labels (labelled lab_im)) as [|l ls] eqn:Hl; cbn [map bind fit].
    + eexists; split; [reflexivity|]. split; [discriminate|].
      intros _; left; reflexivity.
    + cbn [kneighbors length]. rewrite !length_map.
      simpl in Hfew.
      replace (S (length ls) <? n + 1) with true by (symmetry; apply Nat.ltb_lt; lia).
      cbn [bind].
      eexists; split; [reflexivity|]. split; [discriminate|].
      intros _; right; reflexivity.
  - eexists; split; [reflexivity|]. split; [discriminate|].
    intros [H|H]; rewrite H in Hd; discriminate.
Qed.

(** ** Results of binds *)

Lemma bind_Ok {A B} (a : A) (k : A -> res B) : bind (Ok a) k = k a.
Proof. reflexivity. Qed.

Lemma Ok_pair_inj {A B} (a a' : A) (b b' : B) :
  Ok (a, b) = Ok (a', b') -> a = a' /\ b = b'.
Proof. intros H; injection H as -> ->. auto. Qed.

Lemma Ok_triple_inj {A B C} (a a' : A) (b b' : B) (c c' : C) :
  Ok (a, b, c) = Ok (a', b', c') -> a = a' /\ b = b' /\ c = c'.
Proof. intros H; injection H as -> -> ->. auto. Qed.

Lemma mapM_length {A B} (f : A -> res B) : forall (l : list A) (ys : list B),
  mapM f l = Ok ys -> length ys = length l.
Proof.
  induction l as [|x l IH]; intros ys H.
  - injection H as <-. reflexivity.
  - cbn [mapM] in H.
    destruct (f x) as [y|]; [|discriminate]. rewrite bind_Ok in H.
    destruct (mapM f l) as [ys'|]; [|discriminate]. rewrite bind_Ok in H.
    injection H as <-. simpl. rewrite (IH ys' eq_refl). reflexivity.
Qed.

Ltac bind_inversion H :=
  repeat match type of H with
         | bind ?r _ = Ok _ =>
             let x := fresh "x" in
             let E := fresh "E" in
             destruct r as [x|] eqn:E; cbn [bind] in H; [|discriminate H]
         | (let (_, _) := ?p in _) = Ok _ => destruct p
         | (match ?p with (_, _) => _ end) = Ok _ => destruct p
         end.

(** ** object_features on an image without objects *)

Section ZeroObjects.

Context {L : Library}.

Lemma regionprops_zero_objects (b : ndarray bool) (intensity : option (ndarray Q)) :
  snd (label b) = 0 -> ndim b = 2 \/ ndim b = 3 ->
  regionprops (fst (label b)) intensity = Ok [].
Proof.
  intros Hz Hd. unfold regionprops, present_labels.
  rewrite (label_zero_objects_max b Hz).
  replace (ndim (fst (label b))) with (ndim b) by reflexivity.
  destruct Hd as [-> | ->]; simpl; destruct intensity; reflexivity.
Qed.

Lemma structuring_element_dims (dims erode : nat) (se : selem) :
  structuring_element dims erode = Ok se -> dims = 2 \/ dims = 3.
Proof.
  unfold structuring_element.
  destruct (dims =? 2) eqn:E2; [apply Nat.eqb_eq in E2; auto|].
  destruct (dims =? 3) eqn:E3; [apply Nat.eqb_eq in E3; auto|].
  discriminate.
Qed.

Lemma getdata_length (l : list fval) (w : world) :
  length (fst (getdata l w)) = length l.
Proof.
  unfold getdata; cbn [fst].
  rewrite length_map, length_combine, length_seq. apply Nat.min_id.
Qed.


(** No entry of the data is masked. *)
Lemma getdata_plain (l : list fval) (w : world) :
  Forall (fun v => v <> Masked) (fst (getdata l w)).
Proof.
  unfold getdata; cbn [fst]. apply Forall_forall. intros v Hv.
  apply in_map_iff in Hv. destruct Hv as [[k x] [<- _]]. cbn [fst snd].
  destruct x; try discriminate.
  unfold datum, unwritten. destruct (memory w k); discriminate.
Qed.

Lemma getdata_generators (l : list fval) (w : world) :
  same_generators w (snd (getdata l w)).
Proof. split; reflexivity. Qed.

Lemma object_features_no_objects bin_im im erode se b random_seed w sample_size :
  structuring_element (ndim im) erode = Ok se ->
  opening erode bin_im se = Ok b ->
  ndim b = ndim im ->
  snd (label b) = 0 ->
  sample_size = None \/ sample_size = Some 0 ->
  object_features bin_im im erode sample_size random_seed w = Ok (unwritten_result im w).
Proof.
  intros Hse Hopen Hdim Hz Hs.
  pose proof (structuring_element_dims _ _ _ Hse) as Hd.
  unfold object_features. rewrite Hse; cbn [bind]. rewrite Hopen; cbn [bind].
  rewrite Hz.
  destruct Hs as [-> | ->].
  - cbn [seq bind].
    rewrite regionprops_zero_objects by (rewrite ?Hdim; auto).
    cbn [bind mapM].
    unfold unwritten_result, unwritten_block, object_feature_names, prop_names_of,
      quantile_names.
    destruct Hd as [Hd|Hd]; rewrite Hd; reflexivity.
  - unfold randint. cbn [Nat.eqb bind].
    rewrite regionprops_zero_objects by (rewrite ?Hdim; auto).
    cbn [bind mapM].
    unfold unwritten_result, unwritten_block, object_feature_names, prop_names_of,
      quantile_names.
    destruct Hd as [Hd|Hd]; rewrite Hd; reflexivity.
Qed.

Lemma object_features_no_objects_sampled bin_im im erode se b random_seed w k :
  structuring_element (ndim im) erode = Ok se ->
  opening erode bin_im se = Ok b ->
  snd (label b) = 0 ->
  object_features bin_im im erode (Some (S k)) random_seed w = Raise zero_objects_error.
Proof.
  intros Hse Hopen Hz.
  unfold object_features. rewrite Hse; cbn [bind]. rewrite Hopen; cbn [bind].
  rewrite Hz. reflexivity.
Qed.

Lemma object_features_outcome bin_im im erode se b random_seed w :
  structuring_element (ndim im) erode = Ok se ->
  opening erode bin_im se = Ok b ->
  ndim b = ndim im ->
  snd (label b) = 0 ->
  zero_objects_outcome (fun ss => object_features bin_im im erode ss random_seed w)
                       (unwritten_result im w).
Proof.
  intros Hse Hopen Hdim Hz. unfold zero_objects_outcome. repeat split.
  - eapply object_features_no_objects; eauto.
  - eapply object_features_no_objects; eauto.
  - intros k. eexists.
    erewrite object_features_no_objects_sampled by eauto. reflexivity.
Qed.

Lemma intensity_object_features_otsu im t1 r sample_size random_seed w :
  threshold_otsu im = Ok t1 ->
  intensity_object_features im None r sample_size random_seed w =
  ('(f1, names1, w1) <-
     object_features (amap (fun v => Qgt_bool v t1) im) im 2 sample_size random_seed w ;;
   let names1 := map (fun name => ("otsu-threshold-" ++ name)%string) names1 in
   if ndim im =? 2
   then
     t2 <- threshold_local im r ;;
     tim2 <- greater_array im t2 ;;
     '(f2, names2, w2) <- object_features tim2 im 2 sample_size random_seed w1 ;;
     let names2 := map (fun name => ("adaptive-threshold-" ++ name)%string) names2 in
     Ok (f1 ++ f2, names1 ++ names2, w2)
   else Ok (f1, names1, w1)).
Proof. intros H. unfold intensity_object_features. rewrite H. reflexivity. Qed.

(** C2, as the code has it.  The mask of an image of two or three
    dimensions holds no object once it is opened.  Then
    [object_features] returns without a sample size and with the sample
    size 0: the count 0, followed for each property and quantile by the
    float that lay in the unwritten memory [mquantiles] put under its
    mask, with the usual names.  The floats are not a value the program
    defines: they are what the world holds.  With a positive sample size
    it raises a ValueError, that of [randint] on the empty range.
    [intensity_object_features] does the same.  With a threshold it is
    [object_features] on the mask of the threshold.  Without one, once
    the mask of Otsu's threshold holds no object: it raises with a
    positive sample size; otherwise, in three dimensions it returns the
    block of the unwritten floats under the otsu names, in two
    dimensions this block comes first in whatever it returns, and the
    block of the adaptive threshold is made of the floats that follow
    when its mask holds no object either. *)
Theorem object_features_zero_objects :
  forall (bin_im : ndarray bool) (im : ndarray Q) (erode : nat) (se : selem)
         (b : ndarray bool) (random_seed : seed) (w : world),
    structuring_element (ndim im) erode = Ok se ->
    opening erode bin_im se = Ok b ->
    ndim b = ndim im ->
    snd (label b) = 0 ->
    zero_objects_outcome (fun ss => object_features bin_im im erode ss random_seed w)
                         (unwritten_result im w)
    /\
    (erode = 2 ->
     (forall (t : threshold) (r : nat),
         greater_threshold im t = Ok bin_im ->
         zero_objects_outcome
           (fun ss => intensity_object_features im (Some t) r ss random_seed w)
           (unwritten_result im w))
     /\
     (forall (t1 : Q) (r : nat),
         threshold_otsu im = Ok t1 ->
         bin_im = amap (fun v => Qgt_bool v t1) im ->
         (forall k : nat, exists msg : string,
             intensity_object_features im None r (Some (S k)) random_seed w
             = Raise (ValueError msg))
         /\
         (ndim im = 3 ->
          forall ss : option nat,
            ss = None \/ ss = Some 0 ->
            intensity_object_features im None r ss random_seed w
            = Ok (unwritten_block im w, block_names im None,
                  taken (5 * length (prop_names_of im)) w))
         /\
         (forall (ss : option nat) (fs : list fval) (names : list string) (w' : world),
             ss = None \/ ss = Some 0 ->
             intensity_object_features im None r ss random_seed w = Ok (fs, names, w') ->
             firstn (1 + 5 * length (prop_names_of im)) fs = unwritten_block im w)
         /\
         (forall (t2 : ndarray Q) (tim2 b2 : ndarray bool) (ss : option nat),
             ndim im = 2 ->
             threshold_local im r = Ok t2 ->
             greater_array im t2 = Ok tim2 ->
             opening 2 tim2 se = Ok b2 ->
             ndim b2 = ndim im ->
             snd (label b2) = 0 ->
             ss = None \/ ss = Some 0 ->
             intensity_object_features im None r ss random_seed w
             = Ok (unwritten_block im w
                   ++ unwritten_block im (taken (5 * length (prop_names_of im)) w),
                   block_names im None,
                   taken (5 * length (prop_names_of im))
                         (taken (5 * length (prop_names_of im)) w))))).
Proof.
  intros bin_im im erode se b random_seed w Hse Hopen Hdim Hz.
  split; [eapply object_features_outcome; eauto|].
  intros ->. split.
  - intros t r Ht.
    pose proof (object_features_outcome _ _ _ _ _ random_seed w Hse Hopen Hdim Hz)
      as (H0 & H1 & H2).
    unfold zero_objects_outcome, intensity_object_features.
    rewrite Ht; cbn [bind]. auto.
  - intros t1 r Ht1 ->. split; [|split; [|split]].
    + intros k. eexists.
      rewrite (intensity_object_features_otsu _ _ _ _ _ _ Ht1).
      erewrite object_features_no_objects_sampled by eauto. reflexivity.
    + intros Hd ss Hs.
      rewrite (intensity_object_features_otsu _ _ _ _ _ _ Ht1).
      erewrite object_features_no_objects by eauto.
      unfold unwritten_result, block_names. cbn [bind]. rewrite Hd.
      cbn [Nat.eqb]. rewrite app_nil_r. reflexivity.
    + intros ss fs names w' Hs H.
      rewrite (intensity_object_features_otsu _ _ _ _ _ _ Ht1) in H.
      erewrite object_features_no_objects in H by eauto.
      unfold unwritten_result in H. rewrite bind_Ok in H. cbn beta iota in H.
      assert (Hlen : length (unwritten_block im w) = 1 + 5 * length (prop_names_of im)).
      { unfold unwritten_block. cbn [length]. rewrite length_map, length_seq. reflexivity. }
      destruct (ndim im =? 2).
      * bind_inversion H.
        apply Ok_triple_inj in H. destruct H as [<- _].
        rewrite <- Hlen, firstn_app, Nat.sub_diag, firstn_all. cbn [firstn].
        apply app_nil_r.
      * apply Ok_triple_inj in H. destruct H as [<- _].
        rewrite <- Hlen. apply firstn_all.
    + intros t2 tim2 b2 ss Hd Ht2 Hg Hopen2 Hdim2 Hz2 Hs.
      rewrite (intensity_object_features_otsu _ _ _ _ _ _ Ht1).
      erewrite object_features_no_objects by eauto.
      unfold unwritten_result at 1. rewrite bind_Ok. cbn beta iota.
      rewrite Hd. cbn [Nat.eqb]. rewrite Ht2, bind_Ok, Hg, bind_Ok.
      erewrite object_features_no_objects by (rewrite ?Hd in *; eauto).
      unfold unwritten_result, block_names. rewrite bind_Ok. cbn beta iota.
      rewrite Hd. reflexivity.
Qed.

(** With a float threshold, [intensity_object_features] is
    [object_features] on the thresholded image, with the default
    erosion radius. *)
Lemma intensity_object_features_float (im : ndarray Q) (t : Q) (r : nat)
    (sample_size : option nat) (random_seed : seed) (w : world) :
  intensity_object_features im (Some (ThrFloat t)) r sample_size random_seed w
  = object_features (amap (fun v => Qgt_bool v t) im) im 2 sample_size random_seed w.
Proof. reflexivity. Qed.

End ZeroObjects.

(** ** Lengths of feature vectors and name lists *)

Lemma concat_map_length {A B} (f : A -> list B) (k : nat) (l : list A) :
  (forall x, length (f x) = k) -> length (concat (map f l)) = length l * k.
Proof.
  intros H. induction l as [|x l IH]; simpl; auto.
  rewrite length_app, H, IH. reflexivity.
Qed.

Lemma ravel_transpose_length {A} (d : A) (m : matrix A) :
  length (ravel (transpose d m)) = ncols m * length (rows m).
Proof.
  unfold ravel, transpose; simpl.
  rewrite concat_map_length with (k := length (rows m)).
  - rewrite length_seq. reflexivity.
  - intros j. apply length_map.
Qed.

Lemma ravel_mquantiles_length (m : matrix Q) (prob : list Q) :
  length (ravel (mquantiles m prob)) = length prob * ncols m.
Proof.
  unfold ravel, mquantiles; simpl.
  apply concat_map_length. intros p.
  unfold columns. rewrite !length_map, length_seq. reflexivity.
Qed.

Lemma mquantiles_shape (m : matrix Q) (prob : list Q) :
  ncols (mquantiles m prob) = ncols m /\ length (rows (mquantiles m prob)) = length prob.
Proof. unfold mquantiles; simpl. rewrite length_map. auto. Qed.

Section Lengths.

Context {L : Library}.

Lemma object_features_lengths bin_im im erode sample_size random_seed w fs names w' :
  object_features bin_im im erode sample_size random_seed w = Ok (fs, names, w') ->
  length fs = length names.
Proof.
  unfold object_features. intros H. bind_inversion H.
  apply Ok_triple_inj in H. destruct H as [<- [<- _]]. cbn [length]. f_equal.
  rewrite getdata_length, ravel_transpose_length.
  match goal with
  | |- context [mquantiles ?m ?q] => destruct (mquantiles_shape m q) as [-> ->]
  end.
  rewrite length_map, length_prod. reflexivity.
Qed.

Lemma intensity_object_features_lengths im thr r sample_size random_seed w fs names w' :
  intensity_object_features im thr r sample_size random_seed w = Ok (fs, names, w') ->
  length fs = length names.
Proof.
  unfold intensity_object_features. intros H.
  destruct thr as [t|].
  - bind_inversion H. eapply object_features_lengths; eauto.
  - bind_inversion H.
    match goal with
    | E : object_features _ _ _ _ _ _ = Ok _ |- _ => apply object_features_lengths in E
    end.
    destruct (ndim im =? 2).
    + bind_inversion H.
      match goal with
      | E : object_features _ _ _ _ _ _ = Ok _ |- _ => apply object_features_lengths in E
      end.
      injection H as <- <- _.
      rewrite !length_app, !length_map. congruence.
    + injection H as <- <- _. rewrite length_map. assumption.
Qed.

Lemma channel_loop_lengths thr sample_size random_seed : forall todo all_fs all_names w r,
  length (concat all_fs) = length all_names ->
  channel_loop todo thr sample_size random_seed all_fs all_names w = Ok r ->
  length (concat (fst (fst r))) = length (snd (fst r)).
Proof.
  induction todo as [|[im prefix] todo IH]; intros all_fs all_names w r Hinv H.
  - injection H as <-. exact Hinv.
  - cbn [channel_loop] in H. bind_inversion H.
    match goal with
    | E : intensity_object_features _ _ _ _ _ _ = Ok _ |- _ =>
        apply intensity_object_features_lengths in E
    end.
    eapply IH; [|exact H].
    rewrite concat_app, !length_app, length_map. simpl. rewrite app_nil_r. lia.
Qed.

Lemma default_feature_map_lengths image thr channels channel_names sample_size
      random_seed w fs names w' :
  default_feature_map image thr channels channel_names sample_size random_seed w
  = Ok (fs, names, w') ->
  length fs = length names.
Proof.
  unfold default_feature_map. intros H. bind_inversion H.
  match goal with
  | E : channel_loop _ _ _ _ _ _ _ = Ok _ |- _ =>
      apply channel_loop_lengths in E; [|reflexivity]; simpl in E
  end.
  match goal with
  | E : concatenate ?l = Ok _ |- _ =>
      unfold concatenate in E; destruct l; [discriminate|]; injection E as <-
  end.
  injection H as <- <- _. assumption.
Qed.

Lemma kneighbors_ncols nbrs X distances indices :
  kneighbors nbrs X = Ok (distances, indices) -> ncols distances = fst nbrs.
Proof.
  unfold kneighbors. destruct nbrs as [k fitted].
  destruct (length fitted <? k); [discriminate|].
  intros H; injection H as <- _. reflexivity.
Qed.

Lemma nearest_neighbors_lengths lab_im n quantiles nei names :
  nearest_neighbors lab_im n quantiles = Ok (nei, names) ->
  length nei = length names.
Proof.
  unfold nearest_neighbors. intros H. bind_inversion H.
  match goal with
  | E : mapM _ _ = Ok _ |- _ => apply mapM_length in E; rename E into Hnames
  end.
  apply Ok_pair_inj in H. destruct H as [<- <-].
  rewrite ravel_mquantiles_length, Hnames.
  repeat (rewrite ?length_map, ?length_app, ?length_prod, ?length_seq).
  match goal with
  | E : kneighbors _ _ = Ok _ |- _ => apply kneighbors_ncols in E; rename E into Hk
  end.
  match goal with
  | E : fit _ ?c = Ok _ |- _ =>
      unfold fit in E; destruct c; [discriminate|]; injection E as <-
  end.
  simpl in *. nia.
Qed.

Lemma fraction_positive_lengths bin_im positive_im erode t bn pn f name :
  fraction_positive bin_im positive_im erode t bn pn = Ok (f, name) ->
  length f = length name.
Proof.
  unfold fraction_positive. intros H. bind_inversion H.
  injection H as <- <-. reflexivity.
Qed.

Lemma nuclei_per_cell_histogram_lengths nuc_im cell_im max_value fs names :
  nuclei_per_cell_histogram nuc_im cell_im max_value = Ok (fs, names) ->
  length fs = length names.
Proof.
  unfold nuclei_per_cell_histogram. intros H. bind_inversion H.
  injection H as <- <-.
  rewrite length_map, upd_length, length_app, length_map, length_seq. simpl.
  assert (Hs : forall (src dst : list nat) k, length (set_slice k src dst) = length dst).
  { clear. intros src dst; revert src.
    induction dst as [|y dst IH]; intros src k; destruct k; simpl; auto.
    destruct src; simpl; auto. }
  rewrite Hs, repeat_length. lia.
Qed.

(** C6: whatever extractor is called on whatever input, the feature
    vector and the name list it returns have the same length; for
    [default_feature_map] that is the vector and the list put together
    from all the channels. *)
Theorem feature_vector_matches_names :
  forall (e : extractor) (w w' : world) (fs : list fval) (names : list string),
    run e w = Ok (fs, names, w') ->
    length fs = length names.
Proof.
  intros e w w' fs names H.
  destruct e; cbn [run] in H.
  - eapply object_features_lengths; eauto.
  - eapply intensity_object_features_lengths; eauto.
  - destruct (nearest_neighbors lab_im n quantiles) as [[nei nms]|] eqn:E;
      cbn [bind] in H; [|discriminate].
    injection H as <- <- _. eapply nearest_neighbors_lengths; eauto.
  - destruct (fraction_positive bin_im positive_im erode overlap_thresh bin_name positive_name)
      as [[f nm]|] eqn:E; cbn [bind] in H; [|discriminate].
    injection H as <- <- _. eapply fraction_positive_lengths; eauto.
  - destruct (nuclei_per_cell_histogram nuc_im cell_im max_value) as [[f nm]|] eqn:E;
      cbn [bind] in H; [|discriminate].
    injection H as <- <- _. eapply nuclei_per_cell_histogram_lengths; eauto.
  - eapply default_feature_map_lengths; eauto.
Qed.

End Lengths.

(** ** The feature map, step by step *)

Section Steps.

Context {L : Library}.

Lemma channel_loop_cons im prefix todo thr sample_size random_seed all_fs all_names w :
  channel_loop ((im, prefix) :: todo) thr sample_size random_seed all_fs all_names w =
  (r <- intensity_object_features im thr 51 sample_size random_seed w ;;
   channel_loop todo thr sample_size random_seed
                (all_fs ++ [fst (fst r)])
                (all_names ++ map (fun name => (prefix ++ "-" ++ name)%string) (snd (fst r)))
                (snd r)).
Proof.
  cbn [channel_loop].
  destruct (intensity_object_features im thr 51 sample_size random_seed w) as [[[fs names] w1]|];
    reflexivity.
Qed.

Lemma default_feature_map_unfold image thr channels channel_names sample_size random_seed w :
  default_feature_map image thr channels channel_names sample_size random_seed w =
  (cs <- selected_channels image channels ;;
   images <- mapM (channel image) cs ;;
   r <- channel_loop (combine images (used_names cs channel_names))
                     thr sample_size random_seed [] [] w ;;
   fs <- concatenate (fst (fst r)) ;;
   Ok (fs, snd (fst r), snd r)).
Proof.
  unfold default_feature_map, selected_channels, used_names.
  destruct (match channels with Some cs => _ | None => _ end) as [cs|]; cbn [bind]; [|reflexivity].
  destruct (mapM (channel image) cs) as [images|]; cbn [bind]; [|reflexivity].
  destruct (channel_loop _ thr sample_size random_seed [] [] w) as [[[all_fs all_names] w1]|];
    reflexivity.
Qed.

End Steps.

(** ** Two runs from the same random source *)

Lemma columns_length (m : matrix Q) : length (columns m) = ncols m.
Proof. unfold columns. rewrite length_map, length_seq. reflexivity. Qed.

Lemma insert_sorted_length (x : Q) (l : list Q) :
  length (insert_sorted x l) = S (length l).
Proof.
  induction l as [|y l IH]; simpl; auto.
  destruct (Qle_bool x y); simpl; auto.
Qed.

Lemma sort_length (l : list Q) : length (sort l) = length l.
Proof.
  induction l as [|x l IH]; simpl; auto.
  rewrite insert_sorted_length, IH. reflexivity.
Qed.

(** A column that holds data has quantiles: no entry is masked. *)
Lemma quantiles1D_unmasked (col : list Q) (p : Q) :
  col <> [] -> quantiles1D col p <> Masked.
Proof.
  intros Hc. unfold quantiles1D. cbv zeta. rewrite sort_length.
  destruct col as [|x col]; [contradiction|]. cbn [length Nat.eqb].
  destruct (length col =? 0); discriminate.
Qed.

Lemma mquantiles_unmasked (m : matrix Q) (prob : list Q) :
  rows m <> [] ->
  Forall (fun v => v <> Masked) (ravel (transpose Masked (mquantiles m prob))).
Proof.
  intros Hr. apply Forall_forall. intros v Hv.
  unfold ravel, transpose in Hv. cbn [rows] in Hv.
  apply in_concat in Hv. destruct Hv as [l [Hl Hv]].
  apply in_map_iff in Hl. destruct Hl as [j [<- Hj]].
  apply in_seq in Hj.
  apply in_map_iff in Hv. destruct Hv as [row [<- Hrow]].
  unfold mquantiles in Hrow, Hj. cbn [rows ncols] in Hrow, Hj.
  apply in_map_iff in Hrow. destruct Hrow as [p [<- Hp]].
  assert (Hin : In (nth j (map (fun col => quantiles1D col p) (columns m)) Masked)
                   (map (fun col => quantiles1D col p) (columns m))).
  { apply nth_In. rewrite length_map, columns_length. lia. }
  apply in_map_iff in Hin. destruct Hin as [col [<- Hcol]].
  apply quantiles1D_unmasked.
  unfold columns in Hcol. apply in_map_iff in Hcol. destruct Hcol as [c [<- _]].
  destruct (rows m); [contradiction | discriminate].
Qed.

Section TwoRuns.

Context {L : Library}.

Lemma unmasked_data (w : world) : forall (l : list fval) (s : nat),
  Forall (fun v => v <> Masked) l ->
  map (fun kv => datum (unwritten w (fst kv)) (snd kv)) (combine (seq s (length l)) l) = l.
Proof.
  induction l as [|v l IH]; intros s H; [reflexivity|].
  inversion H as [|v' l' Hv Hl]; subst.
  cbn [length seq combine map fst snd]. f_equal; [|apply IH; exact Hl].
  destruct v; try reflexivity. contradiction.
Qed.

(** Data without a masked entry are read as they are: the unwritten
    memory has no part in them. *)
Lemma getdata_unmasked (l : list fval) (w : world) :
  Forall (fun v => v <> Masked) l -> fst (getdata l w) = l.
Proof. intros H. apply unmasked_data, H. Qed.

Lemma getdata_same_memory (l : list fval) (w1 w2 : world) :
  same_memory w1 w2 -> fst (getdata l w1) = fst (getdata l w2).
Proof.
  intros H. unfold getdata; cbn [fst].
  apply map_ext. intros [k v]. cbn [fst snd]. rewrite (H k). reflexivity.
Qed.

Lemma alike_taken (sd : seed) (M : Prop) (n : nat) (w1 w2 : world) :
  alike sd M w1 w2 -> alike sd M (taken n w1) (taken n w2).
Proof.
  intros [Hs Hm]. split.
  - unfold source_state in *. destruct (normalise_random_state sd); exact Hs.
  - intros HM k. apply (Hm HM).
Qed.

Lemma agree_weaken {A S} (shape : A -> S) (sd : seed) (M full full' : Prop)
      (r1 r2 : res (A * list string * world)) :
  (full' -> full) -> agree shape sd M full r1 r2 -> agree shape sd M full' r1 r2.
Proof.
  intros Hf. unfold agree.
  destruct r1 as [[[a1 n1] v1]|x1], r2 as [[[a2 n2] v2]|x2]; auto.
  intros (Hn & Hs & Hv & Ha). split; [|split; [|split]]; auto.
Qed.

Lemma randint_alike (sd : seed) (M : Prop) (high count : nat) (w1 w2 : world) :
  alike sd M w1 w2 ->
  match randint (normalise_random_state sd) high count w1,
        randint (normalise_random_state sd) high count w2 with
  | Ok (js1, v1), Ok (js2, v2) => js1 = js2 /\ alike sd M v1 v2
  | Raise x1, Raise x2 => x1 = x2
  | _, _ => False
  end.
Proof.
  intros [Hs Hm]. unfold randint.
  destruct (count =? 0); [split; [reflexivity | split; assumption]|].
  destruct (high =? 0); [reflexivity|].
  unfold alike, source_state in *.
  destruct (normalise_random_state sd); cbn [global_state instance_state] in *.
  - injection Hs as ->. destruct (draws (global_state w2) high count).
    split; [reflexivity | split; [reflexivity | exact Hm]].
  - split; [reflexivity | split; [reflexivity | exact Hm]].
  - injection Hs as ->. destruct (draws (instance_state w2) high count).
    split; [reflexivity | split; [reflexivity | exact Hm]].
Qed.

Lemma draws_length (high : nat) : forall (count : nat) (r : rng),
  length (fst (draws r high count)) = count.
Proof.
  induction count as [|k IH]; intros r; simpl; auto.
  destruct (randint1 r high) as [j r1]. specialize (IH r1).
  destruct (draws r1 high k) as [js r2]. simpl in *. rewrite IH. reflexivity.
Qed.

Lemma randint_length random high count w js w' :
  randint random high count w = Ok (js, w') -> length js = count.
Proof.
  unfold randint. destruct (count =? 0) eqn:E.
  - apply Nat.eqb_eq in E. intros H; injection H as <- _. subst; reflexivity.
  - destruct (high =? 0); [discriminate|].
    destruct random.
    + pose proof (draws_length high count (global_state w)) as Hl.
      destruct (draws (global_state w) high count). intros H; injection H as <- _. exact Hl.
    + intros H; injection H as <- _. apply draws_length.
    + pose proof (draws_length high count (instance_state w)) as Hl.
      destruct (draws (instance_state w) high count). intros H; injection H as <- _. exact Hl.
Qed.

(** Two runs of [object_features]: the values differ at most where the
    sample is empty and the unwritten memory is not the same. *)
Lemma object_features_agree bin_im im erode sample_size sd M w1 w2 :
  alike sd M w1 w2 ->
  agree (@length fval) sd M (measures bin_im im erode sample_size = true \/ M)
        (object_features bin_im im erode sample_size sd w1)
        (object_features bin_im im erode sample_size sd w2).
Proof.
  intros Ha. unfold object_features.
  destruct (structuring_element (ndim im) erode) as [se|x] eqn:Hse; cbn [bind];
    [|exact eq_refl].
  destruct (opening erode bin_im se) as [b|x] eqn:Hb; cbn [bind]; [|exact eq_refl].
  assert (Hm : measures bin_im im erode sample_size = true ->
               match sample_size with
               | None => snd (label b)
               | Some k => k
               end <> 0).
  { unfold measures, measured. rewrite Hse; cbn [bind]. rewrite Hb; cbn [bind].
    destruct (match sample_size with None => _ | Some k => k end);
      intros H; [discriminate H | discriminate]. }
  match goal with
  | |- agree _ _ _ _ (bind _ ?k) _ => set (K := k)
  end.
  assert (HK : forall (ss : nat) (js : list nat) (v1 v2 : world),
             alike sd M v1 v2 ->
             agree (@length fval) sd M (js <> [] \/ M) (K (ss, js, v1)) (K (ss, js, v2))).
  { intros ss js v1 v2 Hv. unfold K.
    destruct (regionprops (fst (label b)) (Some im)) as [objects|x]; cbn [bind];
      [|exact eq_refl].
    destruct (mapM _ js) as [props|x] eqn:Hp; cbn [bind]; [|exact eq_refl].
    apply mapM_length in Hp.
    cbn [agree]. split; [reflexivity|]. split.
    { cbn [length]. rewrite !getdata_length. reflexivity. }
    split; [apply alike_taken, Hv|].
    intros [Hjs|HM].
    - rewrite !getdata_unmasked; [reflexivity | |];
        apply mquantiles_unmasked; cbn [rows]; destruct props; destruct js;
          try discriminate; congruence.
    - f_equal. apply getdata_same_memory. apply (proj2 Hv HM). }
  destruct sample_size as [k|].
  - pose proof (randint_alike sd M (snd (label b)) k w1 w2 Ha) as Hr.
    destruct (randint (normalise_random_state sd) (snd (label b)) k w1)
      as [[js1 v1]|x1] eqn:E1;
      destruct (randint (normalise_random_state sd) (snd (label b)) k w2)
        as [[js2 v2]|x2] eqn:E2; try contradiction; cbn [bind]; [|exact Hr].
    destruct Hr as [<- Hv].
    eapply agree_weaken; [|apply (HK k js1 v1 v2 Hv)].
    intros [H|H]; [left|right; exact H].
    apply randint_length in E1. apply Hm in H. destruct js1; [simpl in E1; congruence|discriminate].
  - cbn [bind].
    eapply agree_weaken; [|apply (HK (snd (label b)) (seq 0 (snd (label b))) w1 w2 Ha)].
    intros [H|H]; [left|right; exact H].
    apply Hm in H. destruct (snd (label b)); [congruence | discriminate].
Qed.

Lemma intensity_object_features_agree im thr r sample_size sd M w1 w2 :
  alike sd M w1 w2 ->
  agree (@length fval) sd M (intensity_measures im thr r sample_size = true \/ M)
        (intensity_object_features im thr r sample_size sd w1)
        (intensity_object_features im thr r sample_size sd w2).
Proof.
  intros Ha. unfold intensity_object_features, intensity_measures, segmentations.
  destruct thr as [t|].
  - destruct (greater_threshold im t) as [tim|x]; cbn [bind forallb]; [|exact eq_refl].
    eapply agree_weaken; [|apply object_features_agree, Ha].
    intros [H|H]; [left|right; exact H].
    rewrite andb_true_r in H. exact H.
  - destruct (threshold_otsu im) as [t1|x]; cbn [bind]; [|exact eq_refl].
    pose proof (object_features_agree (amap (fun v => Qgt_bool v t1) im) im 2
                  sample_size sd M w1 w2 Ha) as H1.
    destruct (object_features _ im 2 sample_size sd w1) as [[[f1 n1] v1]|x1];
      destruct (object_features _ im 2 sample_size sd w2) as [[[f2 n2] v2]|x2];
      cbn [agree] in H1; try contradiction; cbn [bind]; [|exact H1].
    destruct H1 as (<- & Hl1 & Hv & Hf1).
    destruct (ndim im =? 2).
    + destruct (threshold_local im r) as [t2|x]; cbn [bind]; [|exact eq_refl].
      destruct (greater_array im t2) as [tim2|x]; cbn [bind forallb]; [|exact eq_refl].
      pose proof (object_features_agree tim2 im 2 sample_size sd M v1 v2 Hv) as H2.
      destruct (object_features tim2 im 2 sample_size sd v1) as [[[g1 m1] u1]|y1];
        destruct (object_features tim2 im 2 sample_size sd v2) as [[[g2 m2] u2]|y2];
        cbn [agree] in H2; try contradiction; cbn [bind]; [|exact H2].
      destruct H2 as (<- & Hl2 & Hu & Hf2).
      cbn [agree]. split; [reflexivity|]. split; [rewrite !length_app; congruence|].
      split; [exact Hu|].
      intros H.
      assert (H' : (measures (amap (fun v => Qgt_bool v t1) im) im 2 sample_size = true \/ M)
                   /\ (measures tim2 im 2 sample_size = true \/ M)).
      { destruct H as [H|H]; [|split; right; exact H].
        rewrite andb_true_r in H. apply andb_true_iff in H.
        destruct H as [Ha1 Ha2]. split; left; assumption. }
      destruct H' as [Ha1 Ha2]. rewrite (Hf1 Ha1), (Hf2 Ha2). reflexivity.
    + cbn [agree forallb]. split; [reflexivity|]. split; [exact Hl1|].
      split; [exact Hv|].
      intros H. apply Hf1.
      destruct H as [H|H]; [left|right; exact H].
      rewrite andb_true_r in H. exact H.
Qed.

Lemma channel_loop_agree thr sample_size sd M (full : Prop) :
  forall todo all_fs1 all_fs2 all_names w1 w2,
    alike sd M w1 w2 ->
    map (@length fval) all_fs1 = map (@length fval) all_fs2 ->
    (full -> all_fs1 = all_fs2) ->
    (full ->
     forallb (fun im => intensity_measures im thr 51 sample_size) (map fst todo) = true
     \/ M) ->
    agree (map (@length fval)) sd M full
          (channel_loop todo thr sample_size sd all_fs1 all_names w1)
          (channel_loop todo thr sample_size sd all_fs2 all_names w2).
Proof.
  induction todo as [|[im prefix] todo IH];
    intros all_fs1 all_fs2 all_names w1 w2 Ha Hl Hf Hm.
  - cbn [channel_loop agree]. auto.
  - rewrite !channel_loop_cons.
    pose proof (intensity_object_features_agree im thr 51 sample_size sd M w1 w2 Ha) as H1.
    destruct (intensity_object_features im thr 51 sample_size sd w1) as [[[f1 n1] v1]|x1];
      destruct (intensity_object_features im thr 51 sample_size sd w2) as [[[f2 n2] v2]|x2];
      cbn [agree] in H1; try contradiction; rewrite ?bind_Ok; cbn [bind fst snd];
      [|exact H1].
    destruct H1 as (<- & Hl1 & Hv & Hf1).
    apply IH.
    + exact Hv.
    + rewrite !map_app. cbn [map]. congruence.
    + intros H. rewrite (Hf H). f_equal. f_equal. apply Hf1.
      destruct (Hm H) as [Hb|HM]; [left|right; exact HM].
      cbn [map forallb fst] in Hb. apply andb_true_iff in Hb. apply Hb.
    + intros H. destruct (Hm H) as [Hb|HM]; [left|right; exact HM].
      cbn [map forallb fst] in Hb. apply andb_true_iff in Hb. apply Hb.
Qed.

Lemma default_feature_map_agree image thr channels channel_names sample_size sd M w1 w2 :
  alike sd M w1 w2 ->
  agree (@length fval) sd M
        (measures_objects
           (DefaultFeatureMap image thr channels channel_names sample_size sd) = true \/ M)
        (default_feature_map image thr channels channel_names sample_size sd w1)
        (default_feature_map image thr channels channel_names sample_size sd w2).
Proof.
  intros Ha. rewrite !default_feature_map_unfold.
  unfold measures_objects, processed.
  destruct (selected_channels image channels) as [cs|x]; cbn [bind]; [|exact eq_refl].
  destruct (mapM (channel image) cs) as [images|x]; cbn [bind]; [|exact eq_refl].
  pose proof (channel_loop_agree thr sample_size sd M
                (forallb (fun im => intensity_measures im thr 51 sample_size)
                         (map fst (combine images (used_names cs channel_names))) = true
                 \/ M)
                (combine images (used_names cs channel_names)) [] [] [] w1 w2 Ha
                eq_refl (fun _ => eq_refl) (fun H => H)) as H1.
  destruct (channel_loop _ thr sample_size sd [] [] w1) as [[[a1 n1] v1]|x1];
    destruct (channel_loop _ thr sample_size sd [] [] w2) as [[[a2 n2] v2]|x2];
    cbn [agree] in H1; try contradiction; cbn [bind fst snd]; [|exact H1].
  destruct H1 as (<- & Hl & Hv & Hf).
  unfold concatenate.
  destruct a1 as [|f1 a1], a2 as [|f2 a2]; try discriminate; cbn [bind]; [exact eq_refl|].
  cbn [agree]. split; [reflexivity|]. split.
  { assert (Hc : forall l1 l2 : list (list fval),
               map (@length fval) l1 = map (@length fval) l2 ->
               length (concat l1) = length (concat l2)).
    { induction l1 as [|y l1 IHl]; intros [|z l2] Hmap; try discriminate; auto.
      cbn [map] in Hmap. injection Hmap as Hy Hmap.
      cbn [concat]. rewrite !length_app, Hy, (IHl l2 Hmap). reflexivity. }
    apply Hc, Hl. }
  split; [exact Hv|].
  intros H. rewrite (Hf H). reflexivity.
Qed.

Lemma agree_observe (sd : seed) (M full : Prop)
      (r1 r2 : res (list fval * list string * world)) :
  agree (@length fval) sd M full r1 r2 ->
  observe (source_state sd) (outline r1) = observe (source_state sd) (outline r2) /\
  (full -> observe (source_state sd) r1 = observe (source_state sd) r2).
Proof.
  unfold agree.
  destruct r1 as [[[f1 n1] v1]|x1], r2 as [[[f2 n2] v2]|x2]; try contradiction.
  - intros (<- & Hl & [Hs _] & Hf). cbn [outline observe]. split.
    + rewrite Hl, Hs. reflexivity.
    + intros H. rewrite (Hf H), Hs. reflexivity.
  - intros <-. split; reflexivity.
Qed.

(** C9, as the code has it.  Two runs of an extractor on the same
    input, from worlds in which the random source the call reads is in
    the same state.  They raise the same exception, or both return: the
    same names, vectors of the same length, and the random source left
    in the same state.  The vectors are the same, entry for entry, when
    every sample the call takes the quantiles of holds an object, or
    when [np.empty] hands out the same unwritten memory in both runs.
    The random source is not the only state a result depends on: the
    quantiles of an empty sample are unwritten memory. *)
Theorem two_runs_agree :
  forall (e : extractor) (w1 w2 : world),
    source_of e w1 = source_of e w2 ->
    observe (source_of e) (outline (run e w1)) = observe (source_of e) (outline (run e w2))
    /\
    (measures_objects e = true \/ same_memory w1 w2 ->
     observe (source_of e) (run e w1) = observe (source_of e) (run e w2)).
Proof.
  intros e w1 w2 H.
  assert (Ha : forall sd, source_state sd w1 = source_state sd w2 ->
                          alike sd (same_memory w1 w2) w1 w2).
  { intros sd Hs. split; auto. }
  destruct e; cbn [run source_of] in *.
  - apply (agree_observe random_seed (same_memory w1 w2)).
    apply object_features_agree, Ha, H.
  - apply (agree_observe random_seed (same_memory w1 w2)).
    apply intensity_object_features_agree, Ha, H.
  - destruct (nearest_neighbors lab_im n quantiles) as [[nei names]|x];
      split; reflexivity.
  - destruct (fraction_positive bin_im positive_im erode overlap_thresh bin_name positive_name)
      as [[f name]|x]; split; reflexivity.
  - destruct (nuclei_per_cell_histogram nuc_im cell_im max_value) as [[f names]|x];
      split; reflexivity.
  - apply (agree_observe random_seed (same_memory w1 w2)).
    apply default_feature_map_agree, Ha, H.
Qed.

End TwoRuns.

(** ** The threshold tuple of default_feature_map *)

Section ThresholdTuple.

Context {L : Library}.

Lemma channel_defined (image : ndarray Q) (s0 : list nat) (n c i : nat) :
  shape image = s0 ++ [n; c] -> i < c ->
  exists d, channel image i = Ok (mkarr (s0 ++ [n]) d).
Proof.
  intros Hs Hi. unfold channel. rewrite Hs, rev_app_distr. simpl.
  replace (i <? c) with true by (symmetry; apply Nat.ltb_lt; exact Hi).
  rewrite rev_involutive. eexists; reflexivity.
Qed.

Lemma mapM_all {A B} (f : A -> res B) (P : B -> Prop) (l : list A) :
  (forall x, In x l -> exists y, f x = Ok y /\ P y) ->
  exists ys, mapM f l = Ok ys /\ Forall P ys /\ length ys = length l.
Proof.
  induction l as [|x l IH]; intros H.
  - exists []; simpl; auto.
  - destruct (H x (or_introl eq_refl)) as [y [Hy HP]].
    destruct IH as [ys [Hys [HF Hlen]]]; [intros z Hz; apply H; right; exact Hz|].
    exists (y :: ys). simpl. rewrite Hy; cbn [bind]. rewrite Hys; cbn [bind].
    repeat split; auto.
Qed.

Lemma greater_threshold_mismatch (im : ndarray Q) (s0 : list nat) (n : nat) (ts : list Q) :
  shape im = s0 ++ [n] ->
  n <> length ts -> length ts <> 1 -> n <> 1 ->
  greater_threshold im (ThrTuple ts)
  = Raise (ValueError "operands could not be broadcast together").
Proof.
  intros Hs H1 H2 H3. unfold greater_threshold.
  rewrite Hs, rev_app_distr. simpl.
  replace (n =? length ts) with false by (symmetry; apply Nat.eqb_neq; exact H1).
  replace (length ts =? 1) with false by (symmetry; apply Nat.eqb_neq; exact H2).
  replace (n =? 1) with false by (symmetry; apply Nat.eqb_neq; exact H3).
  reflexivity.
Qed.

(** X17: An image whose rows have [n] pixels, with a tuple of thresholds that
    has neither [n] entries nor one: every channel is compared with the
    whole tuple, and the first comparison already fails. *)
Lemma default_feature_map_tuple_raises (image : ndarray Q) (s0 : list nat) (n c : nat)
      (ts : list Q) (sample_size : option nat) (random_seed : seed) (w : world) :
  shape image = s0 ++ [n; c] -> 0 < c ->
  n <> length ts -> length ts <> 1 -> n <> 1 ->
  default_feature_map image (Some (ThrTuple ts)) None None sample_size random_seed w
  = Raise (ValueError "operands could not be broadcast together").
Proof.
  intros Hs Hc H1 H2 H3. unfold default_feature_map.
  assert (Hrev : rev (shape image) = c :: n :: rev s0).
  { rewrite Hs, rev_app_distr. reflexivity. }
  rewrite Hrev. cbn [bind].
  destruct (mapM_all (channel image) (fun im => shape im = s0 ++ [n]) (seq 0 c))
    as [images [Hm [HF Hlen]]].
  { intros i Hi. apply in_seq in Hi.
    destruct (channel_defined image s0 n c i Hs) as [d Hd]; [lia|].
    eexists; split; [exact Hd | reflexivity]. }
  rewrite Hm. cbn [bind].
  rewrite length_seq in Hlen.
  destruct c as [|c]; [lia|].
  destruct images as [|im0 images]; [discriminate|].
  cbn [seq map combine channel_loop].
  unfold intensity_object_features.
  rewrite (greater_threshold_mismatch im0 s0 n ts); auto.
  inversion HF; auto.
Qed.

End ThresholdTuple.

(** ** Evaluations *)

(** C1, at inputs where the code does not use the channel's own
    threshold.  [default_feature_map] hands the whole tuple to every
    channel, where it is compared along the columns of the channel.
    On 2 x 2 pixels of three channels with three thresholds the
    comparison cannot be broadcast and the call raises.  On 5 x 5 pixels
    of five channels, all at intensity 5, with thresholds (1, 1, 1, 1, 10),
    channel 0 loses its last column to the threshold of channel 4 and
    no object is left, while channel 0 under its own threshold 1 holds
    one object. *)
Theorem default_feature_map_shares_threshold_tuple :
  default_feature_map (floats [2; 2; 3] [1;2;3; 4;5;6; 7;8;9; 10;11;12]%Z)
                      (Some (ThrTuple [1; 2; 3]%Q)) None None None SeedNone example_world
  = Raise (ValueError "operands could not be broadcast together")
  /\
  (exists rest names w,
      default_feature_map flat_image (Some (ThrTuple [1; 1; 1; 1; 10]%Q))
                          (Some [0]) None None SeedNone example_world
      = Ok (Num 0 :: rest, names, w))
  /\
  (exists chan0 rest names w,
      channel flat_image 0 = Ok chan0 /\
      intensity_object_features chan0 (Some (ThrFloat 1)) 51 None SeedNone example_world
      = Ok (Num 1 :: rest, names, w)).
Proof.
  split; [vm_compute; reflexivity|]. split.
  - eexists; eexists; eexists. vm_compute. reflexivity.
  - eexists; eexists; eexists; eexists.
    split; [vm_compute; reflexivity | vm_compute; reflexivity].
Qed.

(** An image without objects.  With a sample size of 3,
    [object_features] raises.  Without one it returns, after the count,
    40 floats of unwritten memory: 7, 8, 9 and so on in one world, nan
    and 0.0 in turn in another. *)
Lemma object_features_zero_objects_raises_or_unwritten :
  snd (label dark_mask) = 0 /\
  (exists msg : string,
      object_features dark_mask dark 2 (Some 3) SeedNone example_world
      = Raise (ValueError msg)) /\
  (exists (names : list string) (w' : world),
      object_features dark_mask dark 2 None SeedNone example_world
      = Ok (Num 0 :: map (fun k => Num (Qnat (7 + k))) (seq 0 40), names, w')) /\
  (exists (names : list string) (w' : world),
      object_features dark_mask dark 2 None SeedNone stale_world
      = Ok (Num 0 :: concat (repeat [NaN; Num 0] 20), names, w')).
Proof.
  split; [vm_compute; reflexivity|].
  split; [eexists; vm_compute; reflexivity|].
  split; eexists; eexists; vm_compute; reflexivity.
Qed.

(** An image without objects, no sample size and the same seed.  The
    two worlds differ in their unwritten memory only, and the two runs
    return different vectors. *)
Lemma two_runs_differ_without_objects :
  let e := ObjectFeatures dark_mask dark 2 None (SeedInt 0) in
  global_state example_world = global_state stale_world /\
  instance_state example_world = instance_state stale_world /\
  source_of e example_world = source_of e stale_world /\
  observe (source_of e) (run e example_world) <> observe (source_of e) (run e stale_world).
Proof.
  split; [reflexivity|]. split; [reflexivity|]. split; [reflexivity|].
  intros H. vm_compute in H. discriminate H.
Qed.

(** A reference mask without objects: [fraction_positive] returns nan
    when the positive mask has a True pixel, and raises when it has
    none. *)
Lemma fraction_positive_zero_objects_not_zero :
  snd (label (bools [1; 2] [0; 0])) = 0 /\
  fraction_positive (bools [1; 2] [0; 0]) (bools [1; 2] [1; 0]) 0 (9 # 10) "nuclei" "tf"
  = Ok ([NaN], ["frac-nuclei-pos-tf-erode-0-thresh-0.90"]) /\
  fraction_positive (bools [1; 2] [0; 0]) (bools [1; 2] [0; 0]) 0 (9 # 10) "nuclei" "tf"
  = Raise (IndexError "index is out of bounds for axis 1").
Proof. repeat split; vm_compute; reflexivity. Qed.

Lemma object_features_zero_objects_witness :
  zero_objects_outcome
    (fun ss => object_features dark_mask dark 2 ss SeedNone example_world)
    (unwritten_result dark example_world)
  /\
  intensity_object_features (L := example_library) dark None 51 None SeedNone example_world
  = Ok (unwritten_block dark example_world ++ unwritten_block dark (taken 40 example_world),
        block_names dark None,
        taken 40 (taken 40 example_world)).
Proof.
  assert (Hse : structuring_element (ndim dark) 2 = Ok (disk 2)) by reflexivity.
  assert (Hopen : opening 2 dark_mask (disk 2) = Ok dark_mask) by (vm_compute; reflexivity).
  assert (Hz : snd (label dark_mask) = 0) by (vm_compute; reflexivity).
  destruct (object_features_zero_objects (L := example_library)
              dark_mask dark 2 (disk 2) dark_mask SeedNone example_world
              Hse Hopen eq_refl Hz) as [H1 H2].
  split; [exact H1|].
  destruct (H2 eq_refl) as [_ H3].
  assert (Ht1 : threshold_otsu (Library := example_library) dark = Ok 0%Q)
    by (vm_compute; reflexivity).
  assert (Hm : dark_mask = amap (fun v => Qgt_bool v 0) dark) by (vm_compute; reflexivity).
  destruct (H3 0%Q 51 Ht1 Hm) as (_ & _ & _ & H4).
  apply (H4 (amap (fun _ => 0%Q) dark) dark_mask dark_mask None);
    try (vm_compute; reflexivity).
  left. reflexivity.
Defined.

Lemma nearest_neighbors_insufficient_objects_witness :
  exists e : exn,
    nearest_neighbors (L := example_library) (BoolImage (bools [1; 3] [1; 0; 1])) 3
                      quantiles_default = Raise e /\
    e <> zero_objects_error /\
    (ndim (labelled (BoolImage (bools [1; 3] [1; 0; 1]))) = 2 \/
     ndim (labelled (BoolImage (bools [1; 3] [1; 0; 1]))) = 3 ->
     insufficient_objects e).
Proof.
  apply (nearest_neighbors_insufficient_objects example_library
           (BoolImage (bools [1; 3] [1; 0; 1])) 3 quantiles_default).
  vm_compute. lia.
Defined.

Lemma fraction_positive_zero_objects_witness :
  fraction_positive (bools [1; 2] [0; 0]) (bools [1; 2] [1; 0]) 0 (9 # 10) "nuclei" "tf"
  = Ok ([NaN], ["frac-nuclei-pos-tf-erode-0-thresh-0.90"]).
Proof.
  apply (fraction_positive_zero_objects
           (bools [1; 2] [0; 0]) (bools [1; 2] [1; 0])
           (bools [1; 2] [0; 0]) (bools [1; 2] [1; 0]) 0 (9 # 10) "nuclei" "tf");
    vm_compute; auto.
Defined.

Lemma feature_vector_matches_names_witness :
  exists fs names w,
    run (DefaultFeatureMap blob_image (Some (ThrFloat 1)) None None (Some 3) SeedInstance)
        example_world = Ok (fs, names, w) /\
    length fs = 41 /\
    length fs = length names.
Proof.
  eexists; eexists; eexists.
  split; [vm_compute; reflexivity|].
  split; [reflexivity|].
  eapply (feature_vector_matches_names (L := example_library)
            (DefaultFeatureMap blob_image (Some (ThrFloat 1)) None None (Some 3) SeedInstance)
            example_world).
  vm_compute. reflexivity.
Defined.

Lemma histogram_sums_to_one_witness :
  exists (qs : list Q) (names : list string),
    nuclei_per_cell_histogram (ints [1; 2] [1; 0]%Z) (ints [1; 2] [1; 1]%Z) 3
    = Ok (map Num qs, names) /\
    length qs = 3 + 2 /\
    sumQ qs == 1.
Proof.
  apply (histogram_sums_to_one (ints [1; 2] [1; 0]%Z) (ints [1; 2] [1; 1]%Z) 3 0);
    vm_compute; try reflexivity; try lia; discriminate.
Defined.

Lemma two_runs_agree_witness :
  let e := ObjectFeatures (amap (fun v => Qgt_bool v 1) blob) blob 2 (Some 3) SeedInstance in
  source_of e example_world = source_of e other_world /\
  measures_objects (L := example_library) e = true /\
  observe (source_of e) (run e example_world) = observe (source_of e) (run e other_world).
Proof.
  split; [reflexivity|]. split; [vm_compute; reflexivity|].
  apply (proj2 (two_runs_agree (L := example_library)
                  (ObjectFeatures (amap (fun v => Qgt_bool v 1) blob) blob 2 (Some 3)
                                  SeedInstance)
                  example_world other_world eq_refl)).
  left. vm_compute. reflexivity.
Defined.

Lemma fraction_positive_needs_positive_pixel_witness :
  fraction_positive (bools [1; 2] [1; 0]) (bools [1; 2] [0; 0]) 2 (9 # 10) "nuclei" "tf"
  = Raise (IndexError "index is out of bounds for axis 1").
Proof.
  apply (proj2 (fraction_positive_needs_positive_pixel
                  (bools [1; 2] [1; 0]) (bools [1; 2] [0; 0]) 2 (9 # 10) "nuclei" "tf"
                  (fun x H => match H with
                              | or_introl E => eq_sym E
                              | or_intror (or_introl E) => eq_sym E
                              | or_intror (or_intror F) => match F with end
                              end)
                  (or_introl eq_refl)));
    try reflexivity.
  right; reflexivity.
Defined.

(** * Further properties of the code *)

(** ** normalize_vectors and triplet_angles *)

Section Geometry.

Context {L : Library}.




(** X3: Every angle [triplet_angles] returns is the arccosine of a number
    between -1 and 1. *)
Theorem triplet_angles_cosines_clamped :
  forall (points : list (list Q)) (indices : matrix nat) (angles : list Q),
    triplet_angles points indices = Ok angles ->
    Forall (fun a => exists c : Q, (-1 <= c)%Q /\ (c <= 1)%Q /\ a = np_arccos c) angles.
Proof.
  intros points indices angles H.
  unfold triplet_angles in H. bind_inversion H. injection H as <-.
  apply Forall_forall. intros a Ha.
  apply in_map_iff in Ha. destruct Ha as [c2 [<- Hc2]].
  apply in_map_iff in Hc2. destruct Hc2 as [c1 [<- Hc1]].
  apply in_map_iff in Hc1. destruct Hc1 as [c0 [<- _]].
  eexists; split; [|split; [|reflexivity]].
  - unfold Qgt_bool.
    destruct (Qle_bool c0 1) eqn:Hle1; cbn [negb].
    + destruct (Qle_bool (-1) c0) eqn:Hle2; cbn [negb].
      * apply Qle_bool_iff. exact Hle2.
      * apply Qle_refl.
    + destruct (Qle_bool (-1) 1) eqn:Hle2; cbn [negb]; [|apply Qle_refl].
      apply Qle_bool_iff. exact Hle2.
  - unfold Qgt_bool.
    destruct (Qle_bool c0 1) eqn:Hle1; cbn [negb].
    + destruct (Qle_bool (-1) c0) eqn:Hle2; cbn [negb].
      * apply Qle_bool_iff. exact Hle1.
      * discriminate.
    + destruct (Qle_bool (-1) 1) eqn:Hle2; cbn [negb]; [apply Qle_refl | discriminate].
Qed.

Lemma triplet_angles_few_columns :
  forall (points : list (list Q)) (indices : matrix nat),
    ncols indices < 3 ->
    exists msg : string, triplet_angles points indices = Raise (IndexError msg).
Proof.
  intros points indices Hc.
  assert (Htake : forall idx, (exists pts, take points idx = Ok pts) \/
                              (exists msg, take points idx = Raise (IndexError msg))).
  { intros idx. unfold take. induction idx as [|j idx IH]; [left; eexists; reflexivity|].
    cbn [mapM]. destruct (nth_error points j); cbn [bind]; [|right; eexists; reflexivity].
    destruct IH as [[pts ->]|[msg ->]]; cbn [bind]; [left|right]; eexists; reflexivity. }
  assert (Hcol : forall j, (exists col, column indices j = Ok col /\ j < ncols indices) \/
                           (exists msg, column indices j = Raise (IndexError msg))).
  { intros j. unfold column. destruct (j <? ncols indices) eqn:E.
    - left. eexists; split; [reflexivity|]. apply Nat.ltb_lt, E.
    - right. eexists; reflexivity. }
  unfold triplet_angles.
  destruct (Hcol 0) as [[i0 [-> _]]|[msg ->]]; cbn [bind]; [|eauto].
  destruct (Htake i0) as [[roots ->]|[msg ->]]; cbn [bind]; [|eauto].
  destruct (Hcol 1) as [[i1 [-> _]]|[msg ->]]; cbn [bind]; [|eauto].
  destruct (Htake i1) as [[leaf1 ->]|[msg ->]]; cbn [bind]; [|eauto].
  destruct (Hcol 2) as [[i2 [_ H2]]|[msg ->]]; cbn [bind]; [lia|eauto].
Qed.

(** X4: With fewer than three columns of indices, [triplet_angles] raises
    an IndexError. *)
Theorem triplet_angles_needs_three_columns :
  forall (points : list (list Q)) (indices : matrix nat),
    ncols indices < 3 ->
    exists msg : string, triplet_angles points indices = Raise (IndexError msg).
Proof.
  intros points indices Hc.
  destruct (triplet_angles_few_columns points indices Hc) as [msg Hmsg].
  exists msg. exact Hmsg.
Qed.

End Geometry.

(** ** nearest_neighbors *)

Lemma nth_concat_uniform {A B} (f : A -> list B) (k : nat) (da : A) (db : B) :
  forall (l : list A) (i j : nat),
    (forall x, length (f x) = k) -> i < length l -> j < k ->
    nth (i * k + j) (concat (map f l)) db = nth j (f (nth i l da)) db.
Proof.
  induction l as [|x l IH]; intros i j Hk Hi Hj; simpl in Hi; [lia|].
  cbn [map concat]. destruct i as [|i].
  - simpl. apply app_nth1. rewrite Hk. exact Hj.
  - rewrite app_nth2 by (rewrite Hk; simpl; lia).
    rewrite Hk. replace (S i * k + j - k) with (i * k + j) by (simpl; lia).
    cbn [nth]. apply IH; auto. lia.
Qed.

Lemma nth_list_prod {A B} (da : A) (db : B) (l2 : list B) :
  forall (l1 : list A) (i j : nat),
    i < length l1 -> j < length l2 ->
    nth (i * length l2 + j) (list_prod l1 l2) (da, db) = (nth i l1 da, nth j l2 db).
Proof.
  induction l1 as [|x l1 IH]; intros i j Hi Hj; simpl in Hi; [lia|].
  cbn [list_prod]. destruct i as [|i].
  - simpl. rewrite app_nth1 by (rewrite length_map; exact Hj).
    rewrite (nth_indep _ (da, db) (x, db)) by (rewrite length_map; exact Hj).
    apply (map_nth (fun y => (x, y))).
  - rewrite app_nth2 by (rewrite length_map; simpl; lia).
    rewrite length_map.
    replace (S i * length l2 + j - length l2) with (i * length l2 + j) by (simpl; lia).
    cbn [nth]. apply IH; auto. lia.
Qed.


Section Neighbors.

Context {L : Library}.

Lemma kneighbors_shape nbrs X distances indices :
  kneighbors nbrs X = Ok (distances, indices) ->
  ncols distances = fst nbrs /\ ncols indices = fst nbrs.
Proof.
  unfold kneighbors. destruct nbrs as [k fitted].
  destruct (length fitted <? k); [discriminate|].
  intros H; injection H as <- <-. split; reflexivity.
Qed.

Lemma fit_neighbors k X nbrs : fit k X = Ok nbrs -> fst nbrs = k.
Proof. unfold fit. destruct X; [discriminate|]. intros H; injection H as <-. reflexivity. Qed.

(** X5: Asked for fewer than two neighbours, [nearest_neighbors] raises
    whatever the image: the angle needs the two nearest ones. *)
Theorem nearest_neighbors_needs_two_neighbors :
  forall (lab_im : label_input) (n : nat) (quantiles : list Q),
    n < 2 ->
    exists e : exn, nearest_neighbors lab_im n quantiles = Raise e.
Proof.
  intros lab_im n quantiles Hn. unfold nearest_neighbors.
  destruct (regionprops _ None) as [objects|e]; cbn [bind]; [|eauto].
  destruct (fit (n + 1) (map centroid objects)) as [nbrs|e] eqn:Hfit; cbn [bind]; [|eauto].
  destruct (kneighbors nbrs (map centroid objects)) as [[distances indices]|e] eqn:Hk;
    cbn [bind]; [|eauto].
  apply kneighbors_shape in Hk. destruct Hk as [_ Hi].
  apply fit_neighbors in Hfit.
  destruct (triplet_angles_few_columns (map centroid objects)
              (mkmat (Nat.min 3 (ncols indices)) (map (firstn 3) (rows indices))))
    as [msg Hmsg].
  { cbn [ncols]. lia. }
  rewrite Hmsg. cbn [bind]. eauto.
Qed.

(** On the quantiles [object_features] uses, the doubles give the
    percentage the exact product gives. *)
Lemma percent_quantiles_default :
  map percent quantiles_default = map (fun q => Ok (int_of_Q (q * 100))) quantiles_default.
Proof. vm_compute. reflexivity. Qed.

(** A quantile of 0.29 is named 28, and one the product overflows on
    has no name. *)
Lemma percent_rounds :
  percent (29 # 100) = Ok 28%Z /\
  percent (57 # 100) = Ok 56%Z /\
  percent (inject_Z (2 ^ 1020)) = Raise (OverflowError "cannot convert float infinity to integer").
Proof. repeat split; vm_compute; reflexivity. Qed.

Lemma mapM_nth {A B} (f : A -> res B) (da : A) (db : B) :
  forall (l : list A) (ys : list B) (k : nat),
    mapM f l = Ok ys -> k < length l -> f (nth k l da) = Ok (nth k ys db).
Proof.
  induction l as [|x l IH]; intros ys k H Hk; [simpl in Hk; lia|].
  cbn [mapM] in H.
  destruct (f x) as [y|] eqn:Hx; [|discriminate]. rewrite bind_Ok in H.
  destruct (mapM f l) as [ys'|]; [|discriminate]. rewrite bind_Ok in H.
  injection H as <-.
  destruct k as [|k]; [exact Hx|].
  cbn [nth]. apply IH; [reflexivity | simpl in Hk; lia].
Qed.

Lemma nearest_neighbors_unfold (lab_im : label_input) (n : nat) (quantiles : list Q) :
  nearest_neighbors lab_im n quantiles =
  (features <- neighbor_features lab_im n ;;
   names <- mapM (fun cq => pc <- percent (snd cq) ;;
                            Ok (fst cq ++ "-percentile-" ++ str_of_Z pc)%string)
                 (list_prod (neighbor_colnames n) quantiles) ;;
   Ok (ravel (mquantiles features quantiles), names)).
Proof.
  unfold nearest_neighbors, neighbor_features.
  destruct (regionprops _ None); cbn [bind]; [|reflexivity].
  destruct (fit _ _); cbn [bind]; [|reflexivity].
  destruct (kneighbors _ _) as [[distances indices]|]; cbn [bind]; [|reflexivity].
  destruct (triplet_angles _ _); reflexivity.
Qed.

Lemma neighbor_features_ncols (lab_im : label_input) (n : nat) (features : matrix Q) :
  neighbor_features lab_im n = Ok features -> ncols features = n + 3.
Proof.
  unfold neighbor_features. intros H. bind_inversion H.
  injection H as <-. cbn [ncols].
  match goal with
  | E : kneighbors _ _ = Ok _ |- _ => apply kneighbors_shape in E; destruct E as [Hd _]
  end.
  match goal with
  | E : fit _ _ = Ok _ |- _ => apply fit_neighbors in E; rename E into Hf
  end.
  lia.
Qed.

(** X6: What [nearest_neighbors] returns has [len(quantiles) * (n + 3)]
    values and as many names: three columns for the angle and [n] for
    the distances. *)
Theorem nearest_neighbors_length :
  forall (lab_im : label_input) (n : nat) (quantiles : list Q)
         (nei : list fval) (names : list string),
    nearest_neighbors lab_im n quantiles = Ok (nei, names) ->
    length nei = length quantiles * (n + 3) /\
    length names = length quantiles * (n + 3).
Proof.
  intros lab_im n quantiles nei names H.
  rewrite nearest_neighbors_unfold in H.
  destruct (neighbor_features lab_im n) as [features|] eqn:Hf; [|discriminate].
  rewrite bind_Ok in H.
  destruct (mapM _ (list_prod (neighbor_colnames n) quantiles)) as [nms|] eqn:Hn;
    [|discriminate].
  rewrite bind_Ok in H.
  apply Ok_pair_inj in H. destruct H as [<- <-].
  rewrite ravel_mquantiles_length, (neighbor_features_ncols _ _ _ Hf).
  split; [reflexivity|].
  rewrite (mapM_length _ _ _ Hn), length_prod. unfold neighbor_colnames.
  rewrite length_app, length_map, length_seq. simpl. lia.
Qed.

(** X7: The values of [nearest_neighbors] run quantile by quantile, its
    names column by column: quantile [i] of column [j] is the value at
    position [i * (n + 3) + j] and is named at position
    [j * len(quantiles) + i].  The number in the name is
    [int(q * 100)] as the doubles give it. *)
Theorem nearest_neighbors_values_and_names_order :
  forall (lab_im : label_input) (n : nat) (quantiles : list Q)
         (nei : list fval) (names : list string),
    nearest_neighbors lab_im n quantiles = Ok (nei, names) ->
    exists features : matrix Q,
      neighbor_features lab_im n = Ok features /\
      forall i j : nat,
        i < length quantiles -> j < n + 3 ->
        nth (i * (n + 3) + j) nei Masked
        = quantiles1D (nth j (columns features) []) (nth i quantiles 0%Q) /\
        exists pc : Z,
          percent (nth i quantiles 0%Q) = Ok pc /\
          nth (j * length quantiles + i) names ""
          = (nth j (neighbor_colnames n) "" ++ "-percentile-" ++ str_of_Z pc)%string.
Proof.
  intros lab_im n quantiles nei names H.
  rewrite nearest_neighbors_unfold in H.
  destruct (neighbor_features lab_im n) as [features|] eqn:Hf; [|discriminate].
  rewrite bind_Ok in H.
  destruct (mapM _ (list_prod (neighbor_colnames n) quantiles)) as [nms|] eqn:Hn;
    [|discriminate].
  rewrite bind_Ok in H.
  apply Ok_pair_inj in H. destruct H as [<- <-].
  exists features. split; [reflexivity|].
  pose proof (neighbor_features_ncols _ _ _ Hf) as Hc.
  intros i j Hi Hj. split.
  - unfold ravel, mquantiles. cbn [rows].
    rewrite <- Hc in *.
    rewrite (nth_concat_uniform
               (fun p => map (fun col => quantiles1D col p) (columns features))
               (ncols features) 0%Q Masked); auto.
    + change Masked with (quantiles1D [] (nth i quantiles 0%Q)).
      apply (map_nth (fun col => quantiles1D col (nth i quantiles 0%Q))).
    + intros p. rewrite length_map. apply columns_length.
  - assert (Hcol : j < length (neighbor_colnames n)).
    { unfold neighbor_colnames. rewrite length_app, length_map, length_seq. simpl. lia. }
    assert (Hk : j * length quantiles + i
                 < length (list_prod (neighbor_colnames n) quantiles)).
    { rewrite length_prod. nia. }
    apply (mapM_nth _ ("", 0%Q) "" _ _ _ Hn) in Hk.
    rewrite (nth_list_prod "" 0%Q) in Hk by assumption.
    cbn [fst snd] in Hk.
    destruct (percent (nth i quantiles 0%Q)) as [pc|x]; [|discriminate Hk].
    rewrite bind_Ok in Hk. injection Hk as Hk.
    exists pc. split; [reflexivity | symmetry; exact Hk].
Qed.

End Neighbors.

(** ** object_features *)

Lemma quantile_names_length (pn : list string) :
  length (quantile_names pn) = 5 * length pn.
Proof. unfold quantile_names. rewrite length_map, length_prod. simpl. lia. Qed.

Section ObjectFeatures.

Context {L : Library}.

Lemma randint_untouched random high count w js w' :
  randint random high count w = Ok (js, w') -> untouched random w w'.
Proof.
  unfold randint, untouched, same_generators. destruct (count =? 0).
  - intros H; injection H as _ <-. destruct random; auto.
  - destruct (high =? 0); [discriminate|].
    destruct random.
    + destruct (draws (global_state w) high count). intros H; injection H as _ <-. reflexivity.
    + intros H; injection H as _ <-. auto.
    + destruct (draws (instance_state w) high count). intros H; injection H as _ <-. reflexivity.
Qed.


Lemma same_generators_refl w : same_generators w w.
Proof. split; reflexivity. Qed.

Lemma same_generators_trans w1 w2 w3 :
  same_generators w1 w2 -> same_generators w2 w3 -> same_generators w1 w3.
Proof. unfold same_generators. intros [H1 H2] [H3 H4]. split; congruence. Qed.

Lemma untouched_refl random w : untouched random w w.
Proof. destruct random; simpl; auto using same_generators_refl. Qed.

Lemma untouched_trans random w1 w2 w3 :
  untouched random w1 w2 -> untouched random w2 w3 -> untouched random w1 w3.
Proof.
  destruct random; simpl; try congruence. apply same_generators_trans.
Qed.

(** What leaves both generators alone leaves those alone a call does
    not draw from. *)
Lemma same_generators_untouched random w w' :
  same_generators w w' -> untouched random w w'.
Proof. intros [H1 H2]. destruct random; simpl; auto. split; auto. Qed.


Lemma object_features_shape :
  forall (bin_im : ndarray bool) (im : ndarray Q) (erode : nat)
         (sample_size : option nat) (random_seed : seed) (w w' : world)
         (fs : list fval) (names : list string),
    object_features bin_im im erode sample_size random_seed w = Ok (fs, names, w') ->
    exists (se : selem) (b : ndarray bool) (rest : list fval),
      structuring_element (ndim im) erode = Ok se /\
      opening erode bin_im se = Ok b /\
      fs = Num (Qnat (snd (label b))) :: rest /\
      length rest = 5 * length (prop_names_of im) /\
      names = object_feature_names im.
Proof.
  intros bin_im im erode sample_size random_seed w w' fs names H.
  unfold object_features in H.
  destruct (structuring_element (ndim im) erode) as [se|] eqn:Hse; [|discriminate].
  rewrite bind_Ok in H.
  destruct (opening erode bin_im se) as [b|] eqn:Hb; [|discriminate].
  rewrite bind_Ok in H.
  bind_inversion H.
  apply Ok_triple_inj in H. destruct H as [<- [<- _]].
  exists se, b. eexists. repeat split; try assumption.
  rewrite getdata_length, ravel_transpose_length.
  match goal with
  | |- context [mquantiles ?m ?q] => destruct (mquantiles_shape m q) as [-> ->]
  end.
  unfold prop_names_of. simpl. lia.
Qed.

(** X8: What [object_features] returns starts with the number of objects of
    the opened mask, whatever the sample size; five quantiles of each
    property follow, and the names depend on the number of dimensions
    of the image only. *)
Theorem object_features_count_and_names :
  forall (bin_im : ndarray bool) (im : ndarray Q) (erode : nat)
         (sample_size : option nat) (random_seed : seed) (w w' : world)
         (fs : list fval) (names : list string),
    object_features bin_im im erode sample_size random_seed w = Ok (fs, names, w') ->
    exists (se : selem) (b : ndarray bool) (rest : list fval),
      structuring_element (ndim im) erode = Ok se /\
      opening erode bin_im se = Ok b /\
      fs = Num (Qnat (snd (label b))) :: rest /\
      length rest = 5 * length (prop_names_of im) /\
      names = object_feature_names im.
Proof.
  intros bin_im im erode sample_size random_seed w w' fs names H.
  destruct (object_features_shape _ _ _ _ _ _ _ _ _ H) as (se & b & rest & Hshape).
  exists se, b, rest. exact Hshape.
Qed.

End ObjectFeatures.



Section ObjectFeaturePositions.

Context {L : Library}.


(** A call of [object_features] leaves every generator it was not given
    as it was, and without a sample size it leaves all of them. *)
Lemma object_features_untouched bin_im im erode sample_size random_seed w w' fs names :
  object_features bin_im im erode sample_size random_seed w = Ok (fs, names, w') ->
  untouched (normalise_random_state random_seed) w w' /\
  (sample_size = None -> same_generators w w').
Proof.
  intros H. unfold object_features in H.
  destruct (structuring_element (ndim im) erode) as [se|]; [|discriminate].
  rewrite bind_Ok in H.
  destruct (opening erode bin_im se) as [b|]; [|discriminate].
  rewrite bind_Ok in H.
  destruct (match sample_size with
            | Some k => _
            | None => _
            end) as [[[n idx] w0]|] eqn:Hs; [|discriminate].
  rewrite bind_Ok in H.
  destruct (regionprops (fst (label b)) (Some im)) as [objects|]; [|discriminate].
  rewrite bind_Ok in H.
  destruct (mapM _ idx) as [table|]; [|discriminate].
  rewrite bind_Ok in H.
  apply Ok_triple_inj in H. destruct H as [_ [_ <-]].
  match goal with
  | |- context [getdata ?l w0] => pose proof (getdata_generators l w0) as Hg
  end.
  destruct sample_size as [k|].
  - destruct (randint _ _ k w) as [[js w1]|] eqn:Hd; [|discriminate].
    rewrite bind_Ok in Hs. injection Hs as _ _ <-.
    split; [|discriminate].
    eapply untouched_trans; [eapply randint_untouched; eauto|].
    apply same_generators_untouched, Hg.
  - injection Hs as _ _ <-.
    split; [apply same_generators_untouched, Hg | intros _; exact Hg].
Qed.

End ObjectFeaturePositions.

(** ** intensity_object_features and default_feature_map *)

Section FeatureMap.

Context {L : Library}.

Lemma intensity_object_features_block_names im thr r sample_size random_seed w w' fs names :
  intensity_object_features im thr r sample_size random_seed w = Ok (fs, names, w') ->
  names = block_names im thr.
Proof.
  intros H. unfold intensity_object_features in H. unfold block_names.
  destruct thr as [t|].
  - destruct (greater_threshold im t) as [tim|]; [|discriminate].
    rewrite bind_Ok in H.
    apply object_features_shape in H.
    destruct H as (se & b & rest & _ & _ & _ & _ & Hn). exact Hn.
  - destruct (threshold_otsu im) as [t1|]; [|discriminate].
    rewrite bind_Ok in H.
    destruct (object_features _ im 2 sample_size random_seed w) as [[[f1 names1] w1]|] eqn:H1;
      [|discriminate].
    rewrite bind_Ok in H.
    apply object_features_shape in H1.
    destruct H1 as (se & b & rest & _ & _ & _ & _ & ->).
    destruct (ndim im =? 2).
    + destruct (threshold_local im r) as [t2|]; [|discriminate].
      rewrite bind_Ok in H.
      destruct (greater_array im t2) as [tim2|]; [|discriminate].
      rewrite bind_Ok in H.
      destruct (object_features tim2 im 2 sample_size random_seed w1)
        as [[[f2 names2] w2]|] eqn:H2; [|discriminate].
      rewrite bind_Ok in H.
      apply object_features_shape in H2.
      destruct H2 as (se2 & b2 & rest2 & _ & _ & _ & _ & ->).
      apply Ok_triple_inj in H. destruct H as [_ [<- _]]. reflexivity.
    + apply Ok_triple_inj in H. destruct H as [_ [<- _]]. rewrite app_nil_r. reflexivity.
Qed.

(** X11: The names of [intensity_object_features] depend on the threshold
    argument and the number of dimensions only: one block of
    [object_features] names for a given threshold; without one, a block
    prefixed otsu-threshold- and, in two dimensions, a second one
    prefixed adaptive-threshold-.  The vector has as many values. *)
Theorem intensity_object_features_names :
  forall (im : ndarray Q) (thr : option threshold) (r : nat)
         (sample_size : option nat) (random_seed : seed) (w w' : world)
         (fs : list fval) (names : list string),
    intensity_object_features im thr r sample_size random_seed w = Ok (fs, names, w') ->
    names = block_names im thr /\ length fs = length (block_names im thr).
Proof.
  intros im thr r sample_size random_seed w w' fs names H.
  pose proof (intensity_object_features_lengths _ _ _ _ _ _ _ _ _ H) as Hlen.
  apply intensity_object_features_block_names in H.
  split; [exact H | congruence].
Qed.

Lemma intensity_object_features_untouched im thr r sample_size random_seed w w' fs names :
  intensity_object_features im thr r sample_size random_seed w = Ok (fs, names, w') ->
  untouched (normalise_random_state random_seed) w w' /\
  (sample_size = None -> same_generators w w').
Proof.
  intros H. unfold intensity_object_features in H.
  destruct thr as [t|].
  - destruct (greater_threshold im t) as [tim|]; [|discriminate].
    rewrite bind_Ok in H. eapply object_features_untouched; eauto.
  - destruct (threshold_otsu im) as [t1|]; [|discriminate].
    rewrite bind_Ok in H.
    destruct (object_features _ im 2 sample_size random_seed w) as [[[f1 names1] w1]|] eqn:H1;
      [|discriminate].
    rewrite bind_Ok in H.
    apply object_features_untouched in H1. destruct H1 as [Hu1 Hn1].
    destruct (ndim im =? 2).
    + destruct (threshold_local im r) as [t2|]; [|discriminate].
      rewrite bind_Ok in H.
      destruct (greater_array im t2) as [tim2|]; [|discriminate].
      rewrite bind_Ok in H.
      destruct (object_features tim2 im 2 sample_size random_seed w1)
        as [[[f2 names2] w2]|] eqn:H2; [|discriminate].
      rewrite bind_Ok in H.
      apply object_features_untouched in H2. destruct H2 as [Hu2 Hn2].
      apply Ok_triple_inj in H. destruct H as [_ [_ <-]].
      split; [eapply untouched_trans; eauto|].
      intros Hs. eapply same_generators_trans; eauto.
    + apply Ok_triple_inj in H. destruct H as [_ [_ <-]]. auto.
Qed.

Lemma channel_loop_names thr sample_size random_seed :
  forall todo all_fs all_names w all_fs' all_names' w',
    channel_loop todo thr sample_size random_seed all_fs all_names w
    = Ok (all_fs', all_names', w') ->
    all_names' = all_names ++
                 flat_map (fun ip => map (fun name => (snd ip ++ "-" ++ name)%string)
                                         (block_names (fst ip) thr)) todo.
Proof.
  induction todo as [|[im prefix] todo IH]; intros all_fs all_names w all_fs' all_names' w' H.
  - apply Ok_triple_inj in H. destruct H as [_ [<- _]]. simpl. rewrite app_nil_r. reflexivity.
  - rewrite channel_loop_cons in H.
    destruct (intensity_object_features im thr 51 sample_size random_seed w)
      as [[[fs names] w1]|] eqn:Hi; [|discriminate].
    rewrite bind_Ok in H. cbn [fst snd] in H.
    apply intensity_object_features_block_names in Hi. subst names.
    apply IH in H. rewrite H. cbn [flat_map fst snd]. rewrite app_assoc. reflexivity.
Qed.

Lemma channel_loop_untouched thr sample_size random_seed :
  forall todo all_fs all_names w all_fs' all_names' w',
    channel_loop todo thr sample_size random_seed all_fs all_names w
    = Ok (all_fs', all_names', w') ->
    untouched (normalise_random_state random_seed) w w' /\
    (sample_size = None -> same_generators w w').
Proof.
  induction todo as [|[im prefix] todo IH]; intros all_fs all_names w all_fs' all_names' w' H.
  - apply Ok_triple_inj in H. destruct H as [_ [_ <-]].
    split; [apply untouched_refl | intros _; apply same_generators_refl].
  - rewrite channel_loop_cons in H.
    destruct (intensity_object_features im thr 51 sample_size random_seed w)
      as [[[fs names] w1]|] eqn:Hi; [|discriminate].
    rewrite bind_Ok in H. cbn [fst snd] in H.
    apply intensity_object_features_untouched in Hi. destruct Hi as [Hu1 Hn1].
    apply IH in H. destruct H as [Hu2 Hn2].
    split; [eapply untouched_trans; eauto|].
    intros Hs. eapply same_generators_trans; eauto.
Qed.

Lemma default_feature_map_names_of_channels :
  forall (image : ndarray Q) (thr : option threshold) (channels : option (list nat))
         (channel_names : option (list string)) (sample_size : option nat)
         (random_seed : seed) (w w' : world) (fs : list fval) (names : list string),
    default_feature_map image thr channels channel_names sample_size random_seed w
    = Ok (fs, names, w') ->
    exists (cs : list nat) (images : list (ndarray Q)),
      selected_channels image channels = Ok cs /\
      mapM (channel image) cs = Ok images /\
      names = flat_map (fun ip => map (fun name => (snd ip ++ "-" ++ name)%string)
                                      (block_names (fst ip) thr))
                       (combine images (used_names cs channel_names)).
Proof.
  intros image thr channels channel_names sample_size random_seed w w' fs names H.
  rewrite default_feature_map_unfold in H.
  destruct (selected_channels image channels) as [cs|] eqn:Hc; [|discriminate].
  rewrite bind_Ok in H.
  destruct (mapM (channel image) cs) as [images|] eqn:Hm; [|discriminate].
  rewrite bind_Ok in H.
  destruct (channel_loop _ thr sample_size random_seed [] [] w)
    as [[[all_fs all_names] w1]|] eqn:Hl; [|discriminate].
  rewrite bind_Ok in H. cbn [fst snd] in H.
  destruct (concatenate all_fs) as [fs0|]; [|discriminate].
  rewrite bind_Ok in H.
  apply Ok_triple_inj in H. destruct H as [_ [<- _]].
  apply channel_loop_names in Hl. rewrite app_nil_l in Hl.
  exists cs, images. split; [reflexivity|]. split; [exact Hm|]. exact Hl.
Qed.

(** X12: The names [default_feature_map] returns do not depend on the pixels:
    for each selected channel that has a name, the names of
    [intensity_object_features] behind the channel name and a dash, in
    the order of the channels.  A channel without a name, and a name
    without a channel, is left out. *)
Theorem default_feature_map_names :
  forall (image : ndarray Q) (thr : option threshold) (channels : option (list nat))
         (channel_names : option (list string)) (sample_size : option nat)
         (random_seed : seed) (w w' : world) (fs : list fval) (names : list string),
    default_feature_map image thr channels channel_names sample_size random_seed w
    = Ok (fs, names, w') ->
    exists (cs : list nat) (images : list (ndarray Q)),
      selected_channels image channels = Ok cs /\
      mapM (channel image) cs = Ok images /\
      names = flat_map (fun ip => map (fun name => (snd ip ++ "-" ++ name)%string)
                                      (block_names (fst ip) thr))
                       (combine images (used_names cs channel_names)).
Proof.
  intros image thr channels channel_names sample_size random_seed w w' fs names H.
  destruct (default_feature_map_names_of_channels _ _ _ _ _ _ _ _ _ _ H)
    as (cs & images & Hnames).
  exists cs, images. exact Hnames.
Qed.

(** X14: When no channel is left to process, because no channel is selected
    or no channel name is given, [default_feature_map] raises instead of
    returning an empty vector. *)
Theorem default_feature_map_no_channel :
  forall (image : ndarray Q) (thr : option threshold) (channels : option (list nat))
         (channel_names : option (list string)) (sample_size : option nat)
         (random_seed : seed) (w : world) (cs : list nat) (images : list (ndarray Q)),
    selected_channels image channels = Ok cs ->
    mapM (channel image) cs = Ok images ->
    Nat.min (length cs) (length (used_names cs channel_names)) = 0 ->
    default_feature_map image thr channels channel_names sample_size random_seed w
    = Raise (ValueError "need at least one array to concatenate").
Proof.
  intros image thr channels channel_names sample_size random_seed w cs images Hc Hm Hmin.
  rewrite default_feature_map_unfold, Hc, bind_Ok, Hm, bind_Ok.
  assert (Hl : length images = length cs).
  { clear Hmin Hc. revert images Hm. induction cs as [|x cs IH]; intros images Hm.
    - injection Hm as <-. reflexivity.
    - cbn [mapM] in Hm.
      destruct (channel image x); [|discriminate]. rewrite bind_Ok in Hm.
      destruct (mapM (channel image) cs) as [ys|]; [|discriminate]. rewrite bind_Ok in Hm.
      injection Hm as <-. simpl. rewrite (IH ys eq_refl). reflexivity. }
  assert (Hnil : combine images (used_names cs channel_names) = []).
  { apply length_zero_iff_nil. rewrite length_combine, Hl. exact Hmin. }
  rewrite Hnil. reflexivity.
Qed.

(** X10: An extractor call leaves every random generator it was not given as
    it was; given an int seed, or no sample size, it leaves all of
    them.  An extractor that takes no seed leaves the whole world as it
    was. *)
Theorem extractors_leave_other_generators :
  forall (e : extractor) (w w' : world) (fs : list fval) (names : list string),
    run e w = Ok (fs, names, w') ->
    match generator_of e with
    | Some random => untouched random w w'
    | None => w' = w
    end /\
    (sample_size_of e = None -> same_generators w w').
Proof.
  intros e w w' fs names H.
  destruct e; cbn [run generator_of sample_size_of] in *.
  - eapply object_features_untouched; eauto.
  - eapply intensity_object_features_untouched; eauto.
  - destruct (nearest_neighbors lab_im n quantiles) as [[nei nms]|]; [|discriminate].
    rewrite bind_Ok in H. apply Ok_triple_inj in H. destruct H as [_ [_ <-]].
    split; [reflexivity | intros _; apply same_generators_refl].
  - destruct (fraction_positive bin_im positive_im erode overlap_thresh bin_name positive_name)
      as [[f nm]|]; [|discriminate].
    rewrite bind_Ok in H. apply Ok_triple_inj in H. destruct H as [_ [_ <-]].
    split; [reflexivity | intros _; apply same_generators_refl].
  - destruct (nuclei_per_cell_histogram nuc_im cell_im max_value) as [[f nm]|]; [|discriminate].
    rewrite bind_Ok in H. apply Ok_triple_inj in H. destruct H as [_ [_ <-]].
    split; [reflexivity | intros _; apply same_generators_refl].
  - rewrite default_feature_map_unfold in H.
    destruct (selected_channels image channels) as [cs|]; [|discriminate].
    rewrite bind_Ok in H.
    destruct (mapM (channel image) cs) as [images|]; [|discriminate].
    rewrite bind_Ok in H.
    destruct (channel_loop _ thr sample_size random_seed [] [] w)
      as [[[all_fs all_names] w1]|] eqn:Hl; [|discriminate].
    rewrite bind_Ok in H. cbn [fst snd] in H.
    destruct (concatenate all_fs) as [fs0|]; [|discriminate].
    rewrite bind_Ok in H.
    apply Ok_triple_inj in H. destruct H as [_ [_ <-]].
    eapply channel_loop_untouched; eauto.
Qed.

End FeatureMap.

Lemma flat_map_uniform_length {A B} (g : A -> list B) (k : nat) (l : list A) :
  (forall x, In x l -> length (g x) = k) -> length (flat_map g l) = k * length l.
Proof.
  induction l as [|x l IH]; intros H; simpl; [lia|].
  rewrite length_app, (H x (or_introl eq_refl)), IH by (intros y Hy; apply H; right; exact Hy).
  lia.
Qed.

Lemma mapM_images {A B} (f : A -> res B) : forall (l : list A) (ys : list B),
  mapM f l = Ok ys ->
  length ys = length l /\ forall y, In y ys -> exists x, In x l /\ f x = Ok y.
Proof.
  induction l as [|x l IH]; intros ys H.
  - injection H as <-. split; [reflexivity | intros y []].
  - cbn [mapM] in H.
    destruct (f x) as [y0|] eqn:Hx; [|discriminate]. rewrite bind_Ok in H.
    destruct (mapM f l) as [ys0|] eqn:Hm; [|discriminate]. rewrite bind_Ok in H.
    injection H as <-. destruct (IH ys0 eq_refl) as [Hlen Hin].
    split; [simpl; congruence|].
    intros y [<-|Hy].
    + exists x. split; [left; reflexivity | exact Hx].
    + destruct (Hin y Hy) as [x' [Hx' Hf]]. exists x'. split; [right; exact Hx' | exact Hf].
Qed.

Lemma channel_ndim (image im : ndarray Q) (i : nat) :
  channel image i = Ok im -> S (ndim im) = ndim image.
Proof.
  unfold channel, ndim. destruct (rev (shape image)) as [|c s0] eqn:Hr; [discriminate|].
  destruct (i <? c); [|discriminate].
  intros H; injection H as <-. cbn [shape].
  rewrite length_rev. rewrite <- (length_rev (shape image)), Hr. reflexivity.
Qed.

Lemma block_names_length_2d (im : ndarray Q) (thr : option threshold) :
  ndim im = 2 ->
  length (block_names im thr) = match thr with
                                | None => 82
                                | Some _ => 41
                                end.
Proof.
  intros Hd. unfold block_names, object_feature_names, prop_names_of. rewrite Hd.
  destruct thr; cbn [Nat.eqb];
    rewrite ?length_app, ?length_map; cbn [length]; rewrite quantile_names_length; reflexivity.
Qed.

Section FeatureMapWidth.

Context {L : Library}.

(** X13: On an image with rows, columns and channels, the vector of
    [default_feature_map] has a fixed width: 41 features per channel
    with a threshold, 82 without, for as many channels as have both an
    index and a name. *)
Theorem default_feature_map_fixed_width :
  forall (image : ndarray Q) (thr : option threshold) (channels : option (list nat))
         (channel_names : option (list string)) (sample_size : option nat)
         (random_seed : seed) (w w' : world) (fs : list fval) (names : list string),
    ndim image = 3 ->
    default_feature_map image thr channels channel_names sample_size random_seed w
    = Ok (fs, names, w') ->
    exists cs : list nat,
      selected_channels image channels = Ok cs /\
      length fs = (match thr with None => 82 | Some _ => 41 end)
                  * Nat.min (length cs) (length (used_names cs channel_names)) /\
      length names = length fs.
Proof.
  intros image thr channels channel_names sample_size random_seed w w' fs names Hd H.
  pose proof (default_feature_map_lengths _ _ _ _ _ _ _ _ _ _ H) as Hlen.
  apply default_feature_map_names_of_channels in H.
  destruct H as (cs & images & Hc & Hm & Hn).
  exists cs. split; [exact Hc|]. split; [|symmetry; exact Hlen].
  rewrite Hlen, Hn.
  destruct (mapM_images _ _ _ Hm) as [Hl Hin].
  rewrite (flat_map_uniform_length _ (match thr with None => 82 | Some _ => 41 end)).
  - rewrite length_combine, Hl. reflexivity.
  - intros [im prefix] Hip. rewrite length_map. cbn [fst].
    apply block_names_length_2d.
    apply in_combine_l in Hip. destruct (Hin im Hip) as [i [_ Hi]].
    apply channel_ndim in Hi. lia.
Qed.

Lemma channel_shape (image : ndarray Q) (s0 : list nat) (c i : nat) :
  shape image = s0 ++ [c] -> i < c ->
  exists d, channel image i = Ok (mkarr s0 d).
Proof.
  intros Hs Hi. unfold channel. rewrite Hs, rev_app_distr. simpl.
  replace (i <? c) with true by (symmetry; apply Nat.ltb_lt; exact Hi).
  rewrite rev_involutive. eexists; reflexivity.
Qed.

(** X15: [default_feature_map] takes the last axis for the channels: an image
    left with neither two nor three axes per channel, a plain
    two-dimensional image for one, is rejected with the ValueError of
    [object_features]. *)
Theorem default_feature_map_rejects_dimensions :
  forall (image : ndarray Q) (s0 : list nat) (c : nat) (t : Q)
         (sample_size : option nat) (random_seed : seed) (w : world),
    shape image = s0 ++ [c] ->
    0 < c ->
    length s0 <> 2 -> length s0 <> 3 ->
    default_feature_map image (Some (ThrFloat t)) None None sample_size random_seed w
    = Raise (ValueError "Unexpected number of image dimensions").
Proof.
  intros image s0 c t sample_size random_seed w Hs Hc H2 H3.
  rewrite default_feature_map_unfold. unfold selected_channels.
  rewrite Hs, rev_app_distr. cbn [rev app bind].
  destruct (mapM_all (channel image) (fun im => shape im = s0) (seq 0 c))
    as [images [Hm [HF Hlen]]].
  { intros i Hi. apply in_seq in Hi.
    destruct (channel_shape image s0 c i Hs) as [d Hd]; [lia|].
    eexists; split; [exact Hd | reflexivity]. }
  rewrite Hm, bind_Ok.
  rewrite length_seq in Hlen.
  destruct c as [|c]; [lia|].
  destruct images as [|im0 images]; [discriminate|].
  cbn [seq used_names map combine].
  rewrite channel_loop_cons.
  assert (Hi : intensity_object_features im0 (Some (ThrFloat t)) 51 sample_size random_seed w
               = Raise (ValueError "Unexpected number of image dimensions")).
  { rewrite intensity_object_features_float. unfold object_features, structuring_element.
    assert (Hn : ndim im0 = length s0).
    { unfold ndim. inversion HF as [|? ? Hs0 _]. rewrite Hs0. reflexivity. }
    rewrite Hn.
    replace (length s0 =? 2) with false by (symmetry; apply Nat.eqb_neq; exact H2).
    replace (length s0 =? 3) with false by (symmetry; apply Nat.eqb_neq; exact H3).
    reflexivity. }
  rewrite Hi. reflexivity.
Qed.

End FeatureMapWidth.

(** ** fraction_positive *)

Lemma Qnat_le (a b : nat) : a <= b -> (Qnat a <= Qnat b)%Q.
Proof. intros H. unfold Qnat, Qle. simpl. lia. Qed.

Lemma Qnat_pos (b : nat) : b <> 0 -> (0 < Qnat b)%Q.
Proof. intros H. unfold Qnat, Qlt. simpl. lia. Qed.

Lemma count_div_fraction (a b : nat) :
  a <= b ->
  count_div a b = NaN \/ exists q : Q, count_div a b = Num q /\ (0 <= q)%Q /\ (q <= 1)%Q.
Proof.
  intros Hle. unfold count_div.
  destruct (b =? 0) eqn:Eb.
  - apply Nat.eqb_eq in Eb. replace (a =? 0) with true by (symmetry; apply Nat.eqb_eq; lia).
    left; reflexivity.
  - apply Nat.eqb_neq in Eb. right. eexists; split; [reflexivity|]. split.
    + apply Qle_shift_div_l; [apply Qnat_pos; exact Eb|].
      rewrite Qmult_0_l. apply (Qnat_le 0 a). lia.
    + apply Qle_shift_div_r; [apply Qnat_pos; exact Eb|].
      rewrite Qmult_1_l. apply Qnat_le. exact Hle.
Qed.

Lemma fraction_positive_value bin_im positive_im erode overlap_thresh bin_name positive_name
      f name :
  fraction_positive bin_im positive_im erode overlap_thresh bin_name positive_name
  = Ok (f, name) ->
  exists (counts : matrix nat) (col1 : list nat),
    column counts 1 = Ok col1 /\
    (forall row, In row (rows counts) -> length row = ncols counts) /\
    f = [mean_bool (map (fun m => fgt m overlap_thresh)
                        (skipn 1 (map (fun ab => count_div (fst ab) (snd ab))
                                      (combine col1 (row_sums counts)))))].
Proof.
  unfold fraction_positive. intros H.
  destruct (opening erode bin_im (disk erode)) as [b|]; [|discriminate]. rewrite bind_Ok in H.
  destruct (opening erode positive_im (disk erode)) as [p|]; [|discriminate].
  rewrite bind_Ok in H.
  destruct (coo_todense _ _) as [counts|] eqn:Hc; [|discriminate]. rewrite bind_Ok in H.
  destruct (column counts 1) as [col1|] eqn:Hcol; [|discriminate]. rewrite bind_Ok in H.
  apply Ok_pair_inj in H. destruct H as [<- _].
  exists counts, col1. split; [exact Hcol|]. split; [|reflexivity].
  apply coo_todense_Ok in Hc. subst counts. cbn [rows ncols].
  intros row Hrow. apply in_map_iff in Hrow. destruct Hrow as [r [<- _]].
  rewrite length_map, length_seq. reflexivity.
Qed.

Lemma nth_error_le_sum (l : list nat) (i x : nat) :
  nth_error l i = Some x -> x <= list_sum l.
Proof.
  revert i. induction l as [|y l IH]; intros [|i] H; simpl in *; try discriminate.
  - injection H as ->. lia.
  - apply IH in H. lia.
Qed.

Lemma column_le_row_sums (j : nat) (table : list (list nat)) :
  forall ab,
    In ab (combine (flat_map (fun row => match nth_error row j with
                                         | Some x => [x]
                                         | None => []
                                         end) table)
                   (map (fun row => list_sum row) table)) ->
    (forall row, In row table -> j < length row) ->
    fst ab <= snd ab.
Proof.
  induction table as [|row table IH]; intros ab Hin Hlen; [destruct Hin|].
  cbn [flat_map map] in Hin.
  destruct (nth_error row j) as [x|] eqn:Ex.
  - cbn [app combine] in Hin. destruct Hin as [<-|Hin].
    + simpl. eapply nth_error_le_sum; eauto.
    + apply IH; auto. intros r Hr. apply Hlen. right; exact Hr.
  - apply nth_error_None in Ex. specialize (Hlen row (or_introl eq_refl)). lia.
Qed.

(** X18: What [fraction_positive] returns is one value, nan or a number
    between 0 and 1. *)
Theorem fraction_positive_is_a_fraction :
  forall (bin_im positive_im : ndarray bool) (erode : nat) (overlap_thresh : Q)
         (bin_name positive_name : string) (f : list fval) (name : list string),
    fraction_positive bin_im positive_im erode overlap_thresh bin_name positive_name
    = Ok (f, name) ->
    exists v : fval,
      f = [v] /\
      (v = NaN \/ exists q : Q, v = Num q /\ (0 <= q)%Q /\ (q <= 1)%Q).
Proof.
  intros bin_im positive_im erode t bn pn f name H.
  apply fraction_positive_value in H. destruct H as (counts & col1 & _ & _ & ->).
  eexists; split; [reflexivity|].
  unfold mean_bool. apply count_div_fraction.
  etransitivity; [apply filter_length_le | apply Nat.le_refl].
Qed.

(** X19: The overlap is compared strictly: with a threshold of 1 or more no
    object counts as positive, not even one that lies entirely in the
    positive mask, and the fraction is 0 (or nan without objects). *)
Theorem fraction_positive_threshold_is_strict :
  forall (bin_im positive_im : ndarray bool) (erode : nat) (overlap_thresh : Q)
         (bin_name positive_name : string) (f : list fval) (name : list string),
    (1 <= overlap_thresh)%Q ->
    fraction_positive bin_im positive_im erode overlap_thresh bin_name positive_name
    = Ok (f, name) ->
    exists v : fval,
      f = [v] /\
      (v = NaN \/ exists q : Q, v = Num q /\ q == 0).
Proof.
  intros bin_im positive_im erode t bn pn f name Ht H.
  apply fraction_positive_value in H. destruct H as (counts & col1 & Hcol & Hrows & ->).
  eexists; split; [reflexivity|].
  assert (Hc1 : 1 < ncols counts).
  { unfold column in Hcol. destruct (1 <? ncols counts) eqn:E; [|discriminate].
    apply Nat.ltb_lt. exact E. }
  assert (Hall : forall m,
             In m (map (fun ab => count_div (fst ab) (snd ab))
                       (combine col1 (row_sums counts))) ->
             fgt m t = false).
  { intros m Hm. apply in_map_iff in Hm. destruct Hm as [ab [<- Hab]].
    assert (Hle : fst ab <= snd ab).
    { unfold column in Hcol. destruct (1 <? ncols counts); [|discriminate].
      injection Hcol as <-. unfold row_sums in Hab.
      apply (column_le_row_sums 1 (rows counts) ab Hab).
      intros row Hrow. rewrite (Hrows row Hrow). exact Hc1. }
    destruct (count_div_fraction _ _ Hle) as [->|[q [-> [_ Hq]]]]; [reflexivity|].
    simpl. apply negb_false_iff, Qle_bool_iff. eapply Qle_trans; eauto. }
  set (means := map (fun ab => count_div (fst ab) (snd ab)) (combine col1 (row_sums counts))) in *.
  assert (Hnone : filter (fun b : bool => b) (map (fun m => fgt m t) (skipn 1 means)) = []).
  { assert (Hs : forall m, In m (skipn 1 means) -> fgt m t = false).
    { intros m Hm. apply Hall. destruct means; simpl in *; auto. }
    induction (skipn 1 means) as [|m ms IH]; [reflexivity|].
    simpl. rewrite (Hs m (or_introl eq_refl)). apply IH.
    intros m' Hm'. apply Hs. right; exact Hm'. }
  unfold mean_bool. rewrite Hnone. cbn [length]. unfold count_div.
  destruct (length (map (fun m => fgt m t) (skipn 1 means)) =? 0); [left; reflexivity|].
  right. eexists; split; [reflexivity|].
  unfold Qnat. simpl. unfold Qdiv. apply Qmult_0_l.
Qed.

(** ** nuclei_per_cell_histogram without any object *)

Lemma label_int_all_background (a : ndarray Z) :
  (forall x, In x (data a) -> x = 0%Z) ->
  forall l, In l (data (fst (label_int a))) -> l = 0.
Proof.
  intros Hz l Hl. unfold label_int in Hl.
  destruct (label_ok (amap (fun v => negb (v =? 0)%Z) a)) as [_ H].
  apply (In_nth _ _ 0) in Hl. destruct Hl as [p [_ Hp]].
  destruct (Nat.eq_dec l 0) as [|Hne]; auto. subst l.
  destruct (H p Hne) as [Hm _]. exfalso.
  unfold amap in Hm; cbn [data] in Hm.
  destruct (Nat.lt_ge_cases p (length (map (fun v => negb (v =? 0)%Z) (data a)))) as [Hlt|Hge].
  - assert (Hin : In (nth p (map (fun v => negb (v =? 0)%Z) (data a)) false)
                     (map (fun v => negb (v =? 0)%Z) (data a))) by (apply nth_In; exact Hlt).
    rewrite Hm in Hin. apply in_map_iff in Hin. destruct Hin as [x [Hx Hxin]].
    rewrite (Hz x Hxin) in Hx. discriminate.
  - rewrite nth_overflow in Hm by exact Hge. discriminate.
Qed.

(** X20: Two images of one size without any object: the histogram divides
    zero counts by a total of zero, and every entry is nan. *)
Theorem nuclei_per_cell_histogram_all_background :
  forall (nuc_im cell_im : ndarray Z) (max_value : nat),
    (forall x, In x (data nuc_im) -> x = 0%Z) ->
    (forall x, In x (data cell_im) -> x = 0%Z) ->
    size nuc_im = size cell_im ->
    exists (fs : list fval) (names : list string),
      nuclei_per_cell_histogram nuc_im cell_im max_value = Ok (fs, names) /\
      length fs = max_value + 2 /\
      Forall (fun v => v = NaN) fs.
Proof.
  intros nuc_im cell_im max_value Hn Hc Hsz.
  assert (Hcells : nuclei_per_cell nuc_im cell_im = Ok []).
  { unfold nuclei_per_cell, vstack_T.
    fold (size (fst (label_int nuc_im))) (size (fst (label_int cell_im))).
    rewrite !label_int_size, Hsz, Nat.eqb_refl, bind_Ok.
    assert (Hf : filter (fun r => negb (fst r + snd r =? 0))
                        (combine (data (fst (label_int nuc_im)))
                                 (data (fst (label_int cell_im)))) = []).
    { pose proof (label_int_all_background nuc_im Hn) as H1.
      pose proof (label_int_all_background cell_im Hc) as H2.
      revert H1 H2.
      generalize (data (fst (label_int nuc_im))), (data (fst (label_int cell_im))).
      induction l as [|x l IH]; intros [|y l'] H1 H2; simpl; auto.
      rewrite (H1 x (or_introl eq_refl)), (H2 y (or_introl eq_refl)). simpl.
      apply IH; intros z Hz; [apply H1 | apply H2]; right; exact Hz. }
    rewrite Hf. reflexivity. }
  unfold nuclei_per_cell_histogram. rewrite Hcells, bind_Ok.
  replace (max_value + 2) with (max_value + 1 + 1) by lia.
  set (nhist := bincount [] (max_value + 1 + 1)).
  assert (Hzero : forall x, In x nhist -> x = 0).
  { intros x Hx. unfold nhist, bincount in Hx.
    apply in_map_iff in Hx. destruct Hx as [v [<- _]]. reflexivity. }
  assert (Hlen : max_value + 1 + 1 <= length nhist).
  { unfold nhist. rewrite bincount_length. lia. }
  assert (Htot : list_sum nhist = 0) by (unfold nhist; apply bincount_sum).
  rewrite buckets by exact Hlen. rewrite Htot.
  eexists; eexists; split; [reflexivity|]. split.
  - rewrite length_map, length_app, length_firstn. simpl. lia.
  - apply Forall_forall. intros v Hv.
    apply in_map_iff in Hv. destruct Hv as [x [<- Hx]].
    assert (Hx0 : x = 0).
    { apply in_app_or in Hx. destruct Hx as [Hx|[<-|[]]].
      - apply Hzero. rewrite <- (firstn_skipn (max_value + 1) nhist).
        apply in_or_app. left; exact Hx.
      - pose proof (list_sum_split (max_value + 1) nhist). lia. }
    rewrite Hx0. reflexivity.
Qed.

Section ChannelBounds.

Context {L : Library}.

Lemma channel_raises_index_error (image : ndarray Q) (i : nat) :
  (exists im, channel image i = Ok im) \/
  (exists msg, channel image i = Raise (IndexError msg)).
Proof.
  unfold channel. destruct (rev (shape image)) as [|c s0]; [right; eexists; reflexivity|].
  destruct (i <? c); [left | right]; eexists; reflexivity.
Qed.

(** X16: A channel index beyond the last axis makes [default_feature_map]
    raise an IndexError before any feature is computed. *)
Theorem default_feature_map_channel_out_of_range :
  forall (image : ndarray Q) (thr : option threshold) (cs : list nat)
         (channel_names : option (list string)) (sample_size : option nat)
         (random_seed : seed) (w : world) (c i : nat) (s0 : list nat),
    rev (shape image) = c :: s0 ->
    In i cs ->
    c <= i ->
    exists msg : string,
      default_feature_map image thr (Some cs) channel_names sample_size random_seed w
      = Raise (IndexError msg).
Proof.
  intros image thr cs channel_names sample_size random_seed w c i s0 Hs Hin Hi.
  rewrite default_feature_map_unfold. cbn [selected_channels]. rewrite bind_Ok.
  assert (Hm : exists msg, mapM (channel image) cs = Raise (IndexError msg)).
  { induction cs as [|x cs IH]; [destruct Hin|].
    cbn [mapM].
    destruct (channel_raises_index_error image x) as [[im Hx]|[msg Hx]];
      rewrite Hx; cbn [bind]; [|eauto].
    destruct Hin as [->|Hin].
    - unfold channel in Hx. rewrite Hs in Hx.
      replace (i <? c) with false in Hx by (symmetry; apply Nat.ltb_ge; exact Hi).
      discriminate.
    - destruct (IH Hin) as [msg ->]. cbn [bind]. eauto. }
  destruct Hm as [msg ->]. cbn [bind]. eauto.
Qed.

End ChannelBounds.

(** ** The properties at concrete inputs *)



Lemma triplet_angles_cosines_clamped_witness :
  exists angles : list Q,
    triplet_angles (L := example_library) corner_points corner_triplet = Ok angles /\
    Forall (fun a => exists c : Q,
                (-1 <= c)%Q /\ (c <= 1)%Q /\ a = np_arccos (Library := example_library) c)
           angles.
Proof.
  eexists. split; [vm_compute; reflexivity|].
  eapply (triplet_angles_cosines_clamped (L := example_library) corner_points corner_triplet).
  vm_compute. reflexivity.
Defined.

Lemma triplet_angles_needs_three_columns_witness :
  exists msg : string,
    triplet_angles (L := example_library) corner_points (mkmat 2 [[0; 1]])
    = Raise (IndexError msg).
Proof.
  apply (triplet_angles_needs_three_columns (L := example_library)
           corner_points (mkmat 2 [[0; 1]])).
  simpl. lia.
Defined.

Lemma nearest_neighbors_needs_two_neighbors_witness :
  exists e : exn,
    nearest_neighbors (L := example_library) (BoolImage six_dots) 1 quantiles_default
    = Raise e.
Proof.
  apply (nearest_neighbors_needs_two_neighbors (L := example_library)
           (BoolImage six_dots) 1 quantiles_default).
  lia.
Defined.

Lemma nearest_neighbors_length_witness :
  exists (nei : list fval) (names : list string),
    nearest_neighbors (L := example_library) (BoolImage six_dots) 3 quantiles_default
    = Ok (nei, names) /\
    length nei = length quantiles_default * (3 + 3) /\
    length names = length quantiles_default * (3 + 3).
Proof.
  eexists; eexists. split; [vm_compute; reflexivity|].
  eapply (nearest_neighbors_length (L := example_library)
            (BoolImage six_dots) 3 quantiles_default).
  vm_compute. reflexivity.
Defined.

Lemma nearest_neighbors_values_and_names_order_witness :
  exists (nei : list fval) (names : list string),
    nearest_neighbors (L := example_library) (BoolImage six_dots) 3 [29 # 100; 95 # 100]%Q
    = Ok (nei, names) /\
    firstn 2 names = ["sin-theta-percentile-28"; "sin-theta-percentile-95"] /\
    exists features : matrix Q,
      neighbor_features (L := example_library) (BoolImage six_dots) 3 = Ok features /\
      forall i j : nat,
        i < length [29 # 100; 95 # 100]%Q -> j < 3 + 3 ->
        nth (i * (3 + 3) + j) nei Masked
        = quantiles1D (nth j (columns features) []) (nth i [29 # 100; 95 # 100]%Q 0%Q) /\
        exists pc : Z,
          percent (nth i [29 # 100; 95 # 100]%Q 0%Q) = Ok pc /\
          nth (j * length [29 # 100; 95 # 100]%Q + i) names ""
          = (nth j (neighbor_colnames 3) "" ++ "-percentile-" ++ str_of_Z pc)%string.
Proof.
  eexists; eexists. split; [vm_compute; reflexivity|].
  split; [reflexivity|].
  eapply (nearest_neighbors_values_and_names_order (L := example_library)
            (BoolImage six_dots) 3 [29 # 100; 95 # 100]%Q).
  vm_compute. reflexivity.
Defined.

Lemma object_features_count_and_names_witness :
  exists (fs : list fval) (names : list string) (w' : world),
    object_features (L := example_library) blob_mask blob 2 (Some 3) SeedInstance
                    example_world = Ok (fs, names, w') /\
    exists (se : selem) (b : ndarray bool) (rest : list fval),
      structuring_element (ndim blob) 2 = Ok se /\
      opening 2 blob_mask se = Ok b /\
      fs = Num (Qnat (snd (label b))) :: rest /\
      length rest = 5 * length (prop_names_of blob) /\
      names = object_feature_names blob.
Proof.
  eexists; eexists; eexists. split; [vm_compute; reflexivity|].
  eapply (object_features_count_and_names (L := example_library)
            blob_mask blob 2 (Some 3) SeedInstance example_world).
  vm_compute. reflexivity.
Defined.


Lemma extractors_leave_other_generators_witness :
  match run (L := example_library)
            (ObjectFeatures blob_mask blob 2 (Some 3) SeedInstance) example_world with
  | Ok (_, _, w') => global_state w' = global_state example_world
  | Raise _ => False
  end.
Proof.
  destruct (run (L := example_library)
                (ObjectFeatures blob_mask blob 2 (Some 3) SeedInstance) example_world)
    as [[[fs names] w']|e] eqn:H.
  - apply (proj1 (extractors_leave_other_generators (L := example_library)
                    (ObjectFeatures blob_mask blob 2 (Some 3) SeedInstance)
                    example_world w' fs names H)).
  - vm_compute in H. discriminate H.
Defined.

Lemma intensity_object_features_names_witness :
  exists (fs : list fval) (names : list string) (w' : world),
    intensity_object_features (L := example_library) blob None 51 None SeedNone example_world
    = Ok (fs, names, w') /\
    names = block_names blob None /\
    length fs = length (block_names blob None).
Proof.
  eexists; eexists; eexists. split; [vm_compute; reflexivity|].
  eapply (intensity_object_features_names (L := example_library)
            blob None 51 None SeedNone example_world).
  vm_compute. reflexivity.
Defined.

Lemma default_feature_map_names_witness :
  exists (fs : list fval) (names : list string) (w' : world),
    default_feature_map (L := example_library) blob_image (Some (ThrFloat 1)) None
                        (Some ["dapi"; "unused"]) None SeedNone example_world
    = Ok (fs, names, w') /\
    exists (cs : list nat) (images : list (ndarray Q)),
      selected_channels blob_image None = Ok cs /\
      mapM (channel blob_image) cs = Ok images /\
      names = flat_map (fun ip => map (fun name => (snd ip ++ "-" ++ name)%string)
                                      (block_names (fst ip) (Some (ThrFloat 1))))
                       (combine images (used_names cs (Some ["dapi"; "unused"]))).
Proof.
  eexists; eexists; eexists. split; [vm_compute; reflexivity|].
  eapply (default_feature_map_names (L := example_library)
            blob_image (Some (ThrFloat 1)) None (Some ["dapi"; "unused"]) None SeedNone
            example_world).
  vm_compute. reflexivity.
Defined.

Lemma default_feature_map_fixed_width_witness :
  exists (fs : list fval) (names : list string) (w' : world),
    default_feature_map (L := example_library) blob_image (Some (ThrFloat 1)) None
                        (Some ["dapi"; "unused"]) None SeedNone example_world
    = Ok (fs, names, w') /\
    exists cs : list nat,
      selected_channels blob_image None = Ok cs /\
      length fs = 41 * Nat.min (length cs) (length (used_names cs (Some ["dapi"; "unused"]))) /\
      length names = length fs.
Proof.
  eexists; eexists; eexists. split; [vm_compute; reflexivity|].
  eapply (default_feature_map_fixed_width (L := example_library)
            blob_image (Some (ThrFloat 1)) None (Some ["dapi"; "unused"]) None SeedNone
            example_world).
  - reflexivity.
  - vm_compute. reflexivity.
Defined.

Lemma default_feature_map_rejects_dimensions_witness :
  default_feature_map (L := example_library) blob (Some (ThrFloat 1)) None None None
                      SeedNone example_world
  = Raise (ValueError "Unexpected number of image dimensions").
Proof.
  apply (default_feature_map_rejects_dimensions (L := example_library)
           blob [6] 6 1 None SeedNone example_world).
  - reflexivity.
  - lia.
  - simpl; lia.
  - simpl; lia.
Defined.

Lemma default_feature_map_channel_out_of_range_witness :
  exists msg : string,
    default_feature_map (L := example_library) blob_image None (Some [0; 1]) None None
                        SeedNone example_world
    = Raise (IndexError msg).
Proof.
  apply (default_feature_map_channel_out_of_range (L := example_library)
           blob_image None [0; 1] None None SeedNone example_world 1 1 [6; 6]).
  - reflexivity.
  - simpl; auto.
  - lia.
Defined.

Lemma fraction_positive_is_a_fraction_witness :
  exists v : fval,
    [Num (1 # 2)] = [v] /\
    (v = NaN \/ exists q : Q, v = Num q /\ (0 <= q)%Q /\ (q <= 1)%Q).
Proof.
  apply (fraction_positive_is_a_fraction
           (bools [3; 3] [1;1;0; 0;0;0; 1;1;1]) (bools [3; 3] [1;0;0; 0;1;1; 0;1;1])
           0 (6 # 10) "nuclei" "tf"
           [Num (1 # 2)] ["frac-nuclei-pos-tf-erode-0-thresh-0.60"]).
  vm_compute. reflexivity.
Defined.

Lemma fraction_positive_threshold_is_strict_witness :
  exists v : fval,
    [Num (0 # 1)] = [v] /\
    (v = NaN \/ exists q : Q, v = Num q /\ q == 0).
Proof.
  apply (fraction_positive_threshold_is_strict
           (bools [1; 2] [1; 1]) (bools [1; 2] [1; 1]) 0 1 "nuclei" "tf"
           [Num (0 # 1)] ["frac-nuclei-pos-tf-erode-0-thresh-1.00"]).
  - vm_compute. discriminate.
  - vm_compute. reflexivity.
Defined.

Lemma nuclei_per_cell_histogram_all_background_witness :
  exists (fs : list fval) (names : list string),
    nuclei_per_cell_histogram (ints [2; 2] [0; 0; 0; 0]%Z) (ints [2; 2] [0; 0; 0; 0]%Z) 3
    = Ok (fs, names) /\
    length fs = 3 + 2 /\
    Forall (fun v => v = NaN) fs.
Proof.
  apply (nuclei_per_cell_histogram_all_background
           (ints [2; 2] [0; 0; 0; 0]%Z) (ints [2; 2] [0; 0; 0; 0]%Z) 3).
  - intros x Hx. simpl in Hx. intuition congruence.
  - intros x Hx. simpl in Hx. intuition congruence.
  - reflexivity.
Defined.

Lemma nuclei_per_cell_value_witness :
  nth 1 [0; 2] 0 =
  nuclei_in_cell (data (fst (label_int (ints [1; 2] [1; 0]%Z))))
                 (data (fst (label_int (ints [1; 2] [1; 1]%Z)))) 1 +
  (if in_dec Nat.eq_dec 0
             (map fst (filter (fun r => snd r =? 1)
                         (combine (data (fst (label_int (ints [1; 2] [1; 0]%Z))))
                                  (data (fst (label_int (ints [1; 2] [1; 1]%Z)))))))
   then 1 else 0).
Proof.
  apply (nuclei_per_cell_value (ints [1; 2] [1; 0]%Z) (ints [1; 2] [1; 1]%Z) [0; 2] 1).
  - vm_compute. reflexivity.
  - lia.
Defined.

Lemma default_feature_map_tuple_raises_witness :
  default_feature_map (L := example_library)
                      (floats [2; 2; 3] [1;2;3; 4;5;6; 7;8;9; 10;11;12]%Z)
                      (Some (ThrTuple [1; 2; 3]%Q)) None None None SeedNone example_world
  = Raise (ValueError "operands could not be broadcast together").
Proof.
  apply (default_feature_map_tuple_raises (L := example_library)
           (floats [2; 2; 3] [1;2;3; 4;5;6; 7;8;9; 10;11;12]%Z)
           [2] 2 3 [1; 2; 3]%Q None SeedNone example_world).
  - reflexivity.
  - lia.
  - simpl; lia.
  - simpl; lia.
  - lia.
Defined.

Lemma default_feature_map_no_channel_witness :
  default_feature_map (L := example_library) blob_image (Some (ThrFloat 1)) (Some [0])
                      (Some []) None SeedNone example_world
  = Raise (ValueError "need at least one array to concatenate").
Proof.
  eapply (default_feature_map_no_channel (L := example_library)
            blob_image (Some (ThrFloat 1)) (Some [0]) (Some []) None SeedNone example_world
            [0]).
  - reflexivity.
  - vm_compute. reflexivity.
  - reflexivity.
Defined.
